(** * The match orchestrator of node-glob: class [Glob] of src/glob.ts

    A shallow embedding of the class [Glob]: its constructor, [process],
    [processSync], [doNonull], [finish] and [sort], followed by the
    properties its specification states about them.

    What the class imports is not part of it: the pattern compiler
    (class Minimatch of the minimatch package), the host's
    [process.platform] and [String.prototype.localeCompare] are parameters
    of the development; the traversal engine (class GlobWalker) is modelled
    from the specification, over a parameter that stands for the
    traversal of the filesystem. *)

From Stdlib Require Import ZArith String Ascii.
From stdpp Require Import base option list strings sorting.

(** ** JavaScript values the class works with *)

(** [!!x] for an optional boolean field of an options bag. *)
Definition truthy (o : option bool) : bool :=
  match o with
  | Some true => true
  | _ => false
  end.

(** [s || ''] for an optional string. *)
Definition or_empty (o : option string) : string :=
  match o with
  | Some s => s
  | None => ""
  end.

(** [x === false] for an optional boolean field. *)
Definition is_false (o : option bool) : bool :=
  match o with
  | Some false => true
  | _ => false
  end.

Definition backslash : ascii := "\"%char.
Definition slash : ascii := "/"%char.

(** [s.replace(/\\/g, '/')] *)
Fixpoint replace_backslashes (s : string) : string :=
  match s with
  | EmptyString => EmptyString
  | String c s' =>
      String (if Ascii.eqb c backslash then slash else c)
             (replace_backslashes s')
  end.

(** [s.includes(c)] for a one-character needle. *)
Fixpoint includes (c : ascii) (s : string) : bool :=
  match s with
  | EmptyString => false
  | String c' s' => Ascii.eqb c' c || includes c s'
  end.

(** What a JavaScript computation can end in: a value, an exception, or
    [Stuck].  [Stuck] is not an exception: it marks the two places where
    the code leaves what its TypeScript types describe, reading an array
    past its end (JavaScript yields [undefined] where the type says
    [string]) and following a reference that names no set of the store,
    which no JavaScript value does.  The model stops there instead of
    carrying [undefined] along. *)
Inductive exn : Type :=
  | TypeError (msg : string)   (* [throw new TypeError(msg)] *)
  | NotIterable                (* the engine's TypeError for [[...undefined]] *)
  | NoProperty                 (* the engine's TypeError for [undefined.add] *)
  | Foreign (msg : string).    (* whatever a collaborator throws *)

Inductive outcome (A : Type) : Type :=
  | Ok (a : A)
  | Throw (e : exn)
  | Stuck.
Arguments Ok {A} a.
Arguments Throw {A} e.
Arguments Stuck {A}.

(** ** The store

    A [Set<string>] is an object: two array slots can hold the same set,
    and [add] through one is seen through the other.  Sets live in a
    store and are named by references.  The members of a set are kept in
    insertion order, as the iteration order of a JavaScript Set is. *)
Abbreviation ref := nat.

(** [set.add(x)] on the members of a set. *)
Definition members_add (x : string) (s : list string) : list string :=
  if decide (x ∈ s) then s else s ++ [x].

(** Calls to the collaborators, in the order they are made. *)
Inductive call (P : Type) : Type :=
  | Compiled (p : string)      (* [new Minimatch(p, mmo)] *)
  | Walked (p : P).            (* [new GlobWalker(p, '', this, false)] *)
Arguments Compiled {P} p.
Arguments Walked {P} p.

Record world (P : Type) : Type := World {
  sets : list (list string);
  calls : list (call P)
}.
Arguments World {P} sets calls.
Arguments sets {P} w.
Arguments calls {P} w.

(** The monad of the class's methods: a state over the [world], ending
    in an [outcome]; the state survives an exception. *)
Definition M (P A : Type) : Type := world P → outcome A * world P.

Definition ret {P A} (a : A) : M P A := λ w, (Ok a, w).

Definition bind {P A B} (m : M P A) (k : A → M P B) : M P B :=
  λ w, match m w with
       | (Ok a, w') => k a w'
       | (Throw e, w') => (Throw e, w')
       | (Stuck, w') => (Stuck, w')
       end.

Definition throw {P A} (e : exn) : M P A := λ w, (Throw e, w).
Definition stuck {P A} : M P A := λ w, (Stuck, w).

Declare Scope js_scope.
Delimit Scope js_scope with js.
Notation "'let*' x := m 'in' k" := (bind m (λ x, k))
  (at level 10, x binder, m at level 100, k at level 200) : js_scope.
Local Open Scope js_scope.

(** [xs.map(f)] where [f] has effects: left to right, the first
    exception ends it. *)
Fixpoint map_js {P A B} (f : A → M P B) (xs : list A) : M P (list B) :=
  match xs with
  | [] => ret []
  | x :: xs' => let* y := f x in let* ys := map_js f xs' in ret (y :: ys)
  end.

(** [xs.forEach(f)] *)
Fixpoint for_each {P A} (f : A → M P unit) (xs : list A) : M P unit :=
  match xs with
  | [] => ret tt
  | x :: xs' => let* _ := f x in for_each f xs'
  end.

(** [new Set()] *)
Definition new_Set {P} : M P ref :=
  λ w, (Ok (length (sets w)), World (sets w ++ [[]]) (calls w)).

(** [r.add(x)] *)
Definition Set_add {P} (r : ref) (x : string) : M P unit :=
  λ w, match sets w !! r with
       | Some s => (Ok tt, World (<[r := members_add x s]> (sets w)) (calls w))
       | None => (Stuck, w)
       end.

(** [[...r]], the members in insertion order; [r.size] is their number. *)
Definition Set_members {P} (r : ref) : M P (list string) :=
  λ w, match sets w !! r with
       | Some s => (Ok s, w)
       | None => (Stuck, w)
       end.

Definition record_call {P} (c : call P) : M P unit :=
  λ w, (Ok tt, World (sets w) (calls w ++ [c])).

(** [Array.prototype.sort(cmp)].  The sort is stable (ECMAScript 2019):
    for a consistent comparator the result is the one sorted arrangement
    that keeps elements comparing equal in their order, which inserting
    from the right computes.  For a comparator that is not consistent the
    standard leaves the order to the engine, and this is one such order. *)
Fixpoint sorted_insert {A} (cmp : A → A → Z) (x : A) (l : list A) : list A :=
  match l with
  | [] => [x]
  | y :: l' =>
      if decide (cmp x y ≤ 0)%Z then x :: y :: l'
      else y :: sorted_insert cmp x l'
  end.

Definition Array_sort {A} (cmp : A → A → Z) (l : list A) : list A :=
  foldr (sorted_insert cmp) [] l.

(** [a.localeCompare(b, locale)] on a host that has [Intl]: the
    comparison of the collator of [locale] (ECMA-402), which orders
    strings as the Unicode Collation Algorithm does, a locale-aware
    lexicographic comparison: under a locale every string has a sort
    key, a sequence of weights, and two strings compare as their keys
    do, weight by weight from the front, a key that ends first coming
    first.  The keys are the host's; the comparison of keys is this
    one. *)
Fixpoint compare_keys (k1 k2 : list N) : Z :=
  match k1, k2 with
  | [], [] => 0
  | [], _ :: _ => -1
  | _ :: _, [] => 1
  | x :: k1', y :: k2' =>
      match N.compare x y with
      | Lt => -1
      | Gt => 1
      | Eq => compare_keys k1' k2'
      end
  end.

Definition collator (sort_key : string → string → list N)
    (a b locale : string) : Z :=
  compare_keys (sort_key locale a) (sort_key locale b).

(** ** The class *)

Section Glob.

(** The types of the collaborators: the regular expressions Minimatch
    compiles pattern segments to, the cache the walkers share, and the
    Minimatch options [Glob] only hands on (nobrace, noext, nocase, ...). *)
Context {RegExp GlobCache OtherOptions : Type}.

(** [process.platform] *)
Variable platform : string.

(** One segment of a compiled alternative (minimatch's ParseReturnFiltered). *)
Inductive ParseReturn : Type :=
  | Literal (s : string)
  | Matcher (re : RegExp)
  | GLOBSTAR.

Abbreviation MatchSet := (list (list ParseReturn)).
Abbreviation GlobSet := (list string).
Abbreviation GlobParts := (list (list string)).

(** [interface GlobOptions extends MinimatchOptions], every field
    optional. *)
Record GlobOptions : Type := {
  opt_ignore : option (string + list string);
  opt_follow : option bool;
  opt_mark : option bool;
  opt_nodir : option bool;
  opt_nounique : option bool;
  opt_nosort : option bool;
  opt_cwd : option string;
  opt_realpath : option bool;
  opt_absolute : option bool;
  opt_cache : option GlobCache;
  (* of MinimatchOptions *)
  opt_dot : option bool;
  opt_nonull : option bool;
  opt_noglobstar : option bool;
  opt_matchBase : option bool;
  opt_windowsPathsNoEscape : option bool;
  opt_allowWindowsEscape : option bool;
  opt_nonegate : option bool;
  opt_nocomment : option bool;
  opt_preserveMultipleSlashes : option bool;
  opt_other : option OtherOptions
}.

(** [{}], the default of the constructor's [options]. *)
Definition no_options : GlobOptions :=
  {| opt_ignore := None; opt_follow := None; opt_mark := None;
     opt_nodir := None; opt_nounique := None; opt_nosort := None;
     opt_cwd := None; opt_realpath := None; opt_absolute := None;
     opt_cache := None; opt_dot := None; opt_nonull := None;
     opt_noglobstar := None; opt_matchBase := None;
     opt_windowsPathsNoEscape := None; opt_allowWindowsEscape := None;
     opt_nonegate := None; opt_nocomment := None;
     opt_preserveMultipleSlashes := None; opt_other := None |}.

(** The fields of a Minimatch object that [Glob] reads. *)
Record Minimatch : Type := {
  mm_set : MatchSet;
  mm_globSet : GlobSet;
  mm_globParts : GlobParts
}.

(** [new Minimatch(p, mmo)]: the pattern compiler. *)
Variable new_Minimatch : string → GlobOptions → outcome Minimatch.

(** Modelled from the spec: class Pattern (pattern.ts) is imported by
    glob.ts and not part of the sources.  The traversal of an
    alternative is invoked with its matchable form and its
    parsed-segment form; a Pattern carries the two, and the index it is
    made with.  [globList] is [this.globParts[i]], which is [undefined]
    past the end of [globParts]. *)
Record Pattern : Type := {
  patternList : list ParseReturn;
  globList : option (list string);
  index : nat
}.

(** [options.cache || Object.create(null)] *)
Inductive cache_of : Type :=
  | Supplied (c : GlobCache)
  | Fresh.

Record Glob : Type := {
  pattern : list string;
  ignore : option (string + list string);
  follow : bool;
  dot : bool;
  mark : bool;
  nodir : bool;
  nounique : bool;
  nosort : bool;
  cwd : string;
  matchSet : MatchSet;
  globSet : GlobSet;
  globParts : GlobParts;
  realpath : bool;
  nonull : bool;
  absolute : bool;
  matchBase : bool;
  windowsPathsNoEscape : bool;
  noglobstar : bool;
  cache : cache_of;
  matches : option ref
}.

Abbreviation JS := (M Pattern).

(** [{ ...options, nonegate: true, nocomment: true,
      preserveMultipleSlashes: true }] *)
Definition mmo_of (options : GlobOptions) : GlobOptions :=
  {| opt_ignore := opt_ignore options;
     opt_follow := opt_follow options;
     opt_mark := opt_mark options;
     opt_nodir := opt_nodir options;
     opt_nounique := opt_nounique options;
     opt_nosort := opt_nosort options;
     opt_cwd := opt_cwd options;
     opt_realpath := opt_realpath options;
     opt_absolute := opt_absolute options;
     opt_cache := opt_cache options;
     opt_dot := opt_dot options;
     opt_nonull := opt_nonull options;
     opt_noglobstar := opt_noglobstar options;
     opt_matchBase := opt_matchBase options;
     opt_windowsPathsNoEscape := opt_windowsPathsNoEscape options;
     opt_allowWindowsEscape := opt_allowWindowsEscape options;
     opt_nonegate := Some true;
     opt_nocomment := Some true;
     opt_preserveMultipleSlashes := Some true;
     opt_other := opt_other options |}.

(** [p => (p.includes('/') ? p : `**/${p}`)] *)
Definition base_pattern (p : string) : string :=
  if includes slash p then p else "**/" +:+ p.

(** [if (typeof pattern === 'string') pattern = [pattern]] *)
Definition as_array (pattern0 : string + list string) : list string :=
  match pattern0 with
  | inl p => [p]
  | inr ps => ps
  end.

(** The call [new Minimatch(p, mmo)], recorded. *)
Definition compile (mmo : GlobOptions) (p : string) : JS Minimatch :=
  let* _ := record_call (Compiled p) in
  λ w, (new_Minimatch p mmo, w).

(** The reducer of [mms.reduce(...)]: the three arrays of [m] are pushed
    onto the three accumulators. *)
Definition push_sets (acc : MatchSet * GlobSet * GlobParts) (m : Minimatch)
  : MatchSet * GlobSet * GlobParts :=
  (acc.1.1 ++ mm_set m, acc.1.2 ++ mm_globSet m, acc.2 ++ mm_globParts m).

(** [constructor(pattern, options)] *)
Definition new_Glob (pattern0 : string + list string) (options : GlobOptions)
  : JS Glob :=
  let nounique_ := truthy (opt_nounique options) in
  let* matches_ :=
    (if nounique_ then ret None
     else let* r := new_Set in ret (Some r)) in
  let cwd0 := or_empty (opt_cwd options) in
  let cwd_ :=
    if String.eqb platform "win32" then replace_backslashes cwd0 else cwd0 in
  let matchBase_ := truthy (opt_matchBase options) in
  let pattern1 := as_array pattern0 in
  let windowsPathsNoEscape_ :=
    truthy (opt_windowsPathsNoEscape options)
    || is_false (opt_allowWindowsEscape options) in
  let pattern2 :=
    if windowsPathsNoEscape_ then map replace_backslashes pattern1
    else pattern1 in
  let* pattern3 :=
    (if matchBase_ then
       if truthy (opt_noglobstar options)
       then throw (TypeError "base matching requires globstar")
       else ret (map base_pattern pattern2)
     else ret pattern2) in
  let mmo := mmo_of options in
  let* mms := map_js (compile mmo) pattern3 in
  let '(matchSet_, globSet_, globParts_) :=
    fold_left push_sets mms ([], [], []) in
  ret {| pattern := pattern3;
         ignore := opt_ignore options;
         follow := truthy (opt_follow options);
         dot := truthy (opt_dot options);
         mark := truthy (opt_mark options);
         nodir := truthy (opt_nodir options);
         nounique := nounique_;
         nosort := truthy (opt_nosort options);
         cwd := cwd_;
         matchSet := matchSet_;
         globSet := globSet_;
         globParts := globParts_;
         realpath := truthy (opt_realpath options);
         nonull := truthy (opt_nonull options);
         absolute := truthy (opt_absolute options);
         matchBase := matchBase_;
         windowsPathsNoEscape := windowsPathsNoEscape_;
         noglobstar := truthy (opt_noglobstar options);
         cache := match opt_cache options with
                  | Some c => Supplied c
                  | None => Fresh
                  end;
         matches := matches_ |}.

(** [a.localeCompare(b, locale)] *)
Variable localeCompare : string → string → string → Z.

(** [(a, b) => a.localeCompare(b, 'en')] *)
Definition compare_en (a b : string) : Z := localeCompare a b "en".

(** [sort(flat)] *)
Definition sort (flat : list string) : list string :=
  Array_sort compare_en flat.

(** The [forEach] of [doNonull]: the literal glob strings of the
    alternatives whose set is empty, from index [i] on. *)
Fixpoint nulls_from (this : Glob) (i : nat) (matches_ : list ref)
  : JS (list string) :=
  match matches_ with
  | [] => ret []
  | r :: rest =>
      let* s := Set_members r in
      let* here :=
        (if (length s =? 0) && nonull this then
           match globSet this !! i with
           | Some n => ret [n]
           | None => stuck
           end
         else ret []) in
      let* more := nulls_from this (S i) rest in
      ret (here ++ more)
  end.

(** [doNonull(matches)] *)
Definition doNonull (this : Glob) (matches_ : list ref) : JS (list ref) :=
  let* nulls := nulls_from this 0 matches_ in
  let* _ :=
    for_each (λ n, match matches_ !! 0 with
                   | Some r => Set_add r n
                   | None => throw NoProperty
                   end) nulls in
  ret matches_.

(** [finish(matches)] *)
Definition finish (this : Glob) (matches_ : list ref) : JS (list string) :=
  let* raw0 :=
    match matches_ !! 0 with
    | Some r => Set_members r
    | None => throw NotIterable
    end in
  let* raw :=
    (if nounique this then
       let* all := map_js Set_members matches_ in
       ret (raw0 ++ concat all)
     else ret raw0) in
  ret (if nosort this then raw else sort raw).

(** *** The traversal engine *)

(** Modelled from the spec: what the traversal of one alternative comes
    to (walker.ts is imported by glob.ts and not part of the sources).
    The engine leaves out a subtree it cannot read, "unless the error is
    at the pattern's own root, in which case the whole call fails": a
    traversal reports the paths it matches, in traversal-discovery
    order, or fails at its root, having matched nothing. *)
Inductive traversal : Type :=
  | Reports (paths : list string)
  | RootError (msg : string).

(** The paths of a traversal. *)
Definition paths (t : traversal) : list string :=
  match t with
  | Reports ps => ps
  | RootError _ => []
  end.

(** The error of a traversal that fails. *)
Definition root_error (t : traversal) : option string :=
  match t with
  | Reports _ => None
  | RootError msg => Some msg
  end.

(** The traversal of the filesystem for one alternative, under the
    configuration and the cache of the [Glob] it is run for. *)
Variable discover : Glob → Pattern → traversal.

(** Modelled from the spec: class GlobWalker (walker.ts) is imported by
    glob.ts and not part of the sources.  With [nounique] unset every
    matched path of every alternative is inserted, during traversal, into
    one shared, insertion-order-preserving, uniqueness-enforcing
    collection, the set the constructor of [Glob] makes, and that
    collection is the result set of each walker; with [nounique] set a
    walker fills a set of its own.  The blocking and the suspending walk
    of an alternative report the same paths, or fail alike.  [pending]
    is what the walk has still to do. *)
Record GlobWalker : Type := {
  target : ref;
  pending : traversal
}.

(** The paths a walker has still to report, and the error it fails
    with. *)
Definition found (w : GlobWalker) : list string := paths (pending w).
Definition rejects (w : GlobWalker) : option string := root_error (pending w).

(** Modelled from the spec: [new GlobWalker(pattern, path, options,
    hasParent)].  The walker takes the shared set of [options] as its
    result set where there is one, and makes a set otherwise; what its
    walk will do is the traversal of its pattern. *)
Definition new_GlobWalker (p : Pattern) (path : string) (options : Glob)
    (hasParent : bool) : JS GlobWalker :=
  let* _ := record_call (Walked p) in
  let* r :=
    match matches options with
    | Some shared => ret shared
    | None => new_Set
    end in
  ret {| target := r; pending := discover options p |}.

(** Modelled from the spec: [walkSync()] of GlobWalker, the blocking
    walk: it throws where the traversal fails at its root; otherwise
    every matched path goes into the walker's set, which is the
    result. *)
Definition walkSync (w : GlobWalker) : JS ref :=
  match pending w with
  | RootError msg => throw (Foreign msg)
  | Reports ps =>
      let* _ := for_each (Set_add (target w)) ps in
      ret (target w)
  end.

(** The first of two rejections in time. *)
Definition first_of (e1 e2 : option string) : option string :=
  match e1 with
  | Some _ => e1
  | None => e2
  end.

(** Modelled from the spec: the suspending [walk()] of GlobWalker runs
    between the steps of the other walkers; one step reports the next
    matched path, or fails where the traversal fails at its root.
    [walk_step k ws] lets walker [k] of [ws] take a step, and gives the
    walkers after it and the error walker [k] rejected with, if it
    did. *)
Definition walk_step (k : nat) (ws : list GlobWalker)
  : JS (list GlobWalker * option string) :=
  match ws !! k with
  | Some w =>
      match pending w with
      | RootError msg => ret (ws, Some msg)
      | Reports (x :: rest) =>
          let* _ := Set_add (target w) x in
          ret (<[k := {| target := target w; pending := Reports rest |}]> ws,
               None)
      | Reports [] => ret (ws, None)
      end
  | None => ret (ws, None)
  end.

(** [getWalker(pattern)] *)
Definition getWalker (this : Glob) (p : Pattern) : JS GlobWalker :=
  new_GlobWalker p "" this false.

(** [new Pattern(set, this.globParts[i], 0)] *)
Definition new_Pattern (this : Glob) (i : nat) (set_ : list ParseReturn)
  : Pattern :=
  {| patternList := set_; globList := globParts this !! i; index := 0 |}.

(** [processSync()]: a walk that throws ends the [map], and the
    alternatives after it are not walked. *)
Definition processSync (this : Glob) : JS (list string) :=
  let* matches_ :=
    map_js (λ '(i, set_),
              let p := new_Pattern this i set_ in
              let* w := getWalker this p in
              walkSync w)
           (imap pair (matchSet this)) in
  let* ms := doNonull this matches_ in
  finish this ms.

(** The walks proceed in an order the class does not decide.  [sched]
    names the walker that takes each next step; the second component is
    the first rejection among the steps. *)
Fixpoint run_schedule (sched : list nat) (ws : list GlobWalker)
  : JS (list GlobWalker * option string) :=
  match sched with
  | [] => ret (ws, None)
  | k :: sched' =>
      let* r1 := walk_step k ws in
      let* r2 := run_schedule sched' r1.1 in
      ret (r2.1, first_of r1.2 r2.2)
  end.

(** What is left of a walk runs to its end: the walk rejects, or
    reports the rest of its paths and fulfils with its set. *)
Definition settle (w : GlobWalker) : JS (ref * option string) :=
  match pending w with
  | RootError msg => ret (target w, Some msg)
  | Reports ps =>
      let* _ := for_each (Set_add (target w)) ps in
      ret (target w, None)
  end.

(** [await Promise.all(walks)]: when the schedule is used up, what is
    left of each walk completes.  The promise rejects with the first
    rejection in time, which the [await] throws; the other walks are
    not cancelled and run on, so the store is the one all the walks
    leave.  Where no walk rejects, the results come in the order of the
    walkers. *)
Definition Promise_all (sched : list nat) (ws : list GlobWalker)
  : JS (list ref) :=
  let* r := run_schedule sched ws in
  let* settled := map_js settle r.1 in
  match first_of r.2 (foldr first_of None settled.*2) with
  | Some msg => throw (Foreign msg)
  | None => ret settled.*1
  end.

(** [process()], under the schedule [sched] of its walkers: the
    callbacks of [map] run one after the other up to their [await], each
    making its walker, and the walks are awaited together. *)
Definition process (this : Glob) (sched : list nat) : JS (list string) :=
  let* ws :=
    map_js (λ '(i, set_),
              let p := new_Pattern this i set_ in
              getWalker this p)
           (imap pair (matchSet this)) in
  let* matches_ := Promise_all sched ws in
  let* ms := doNonull this matches_ in
  finish this ms.

End Glob.

(** ** Notions the properties are stated with *)

(** [s] after [s.add(x)] for each [x] of [xs], in order. *)
Definition adds (s xs : list string) : list string :=
  foldl (λ s x, members_add x s) s xs.

(** Every object of the store is a set: no member twice. *)
Definition store_ok {P} (w : world P) : Prop := Forall NoDup (sets w).

(** [r] names a set of the store. *)
Definition live {P} (w : world P) (r : ref) : Prop := r < length (sets w).

(** [ss] are the members of the sets [rs], slot by slot. *)
Definition holds {P} (w : world P) (rs : list ref) (ss : list (list string))
  : Prop :=
  Forall2 (λ r s, sets w !! r = Some s) rs ss.

(** What the constructor leaves: the shared set exists exactly when
    [nounique] is unset. *)
Definition Glob_inv {RegExp GlobCache} (this : @Glob RegExp GlobCache)
    (w : world (@Pattern RegExp)) : Prop :=
  match matches this with
  | Some r => nounique this = false ∧ live w r
  | None => nounique this = true
  end.

(** The three arrays of a compiled pattern have one entry per
    alternative. *)
Definition aligned {RegExp} (m : @Minimatch RegExp) : Prop :=
  length (mm_set m) = length (mm_globParts m)
  ∧ length (mm_globSet m) = length (mm_globParts m).

(** A consistent comparator that orders all strings, as ECMA-402 asks
    of a collator's [compare] and ECMAScript of the argument of
    [Array.prototype.sort]: the sign of [cmp b a] mirrors that of
    [cmp a b], and "less than" and "equal" are transitive. *)
Record consistent {A} (cmp : A → A → Z) : Prop := {
  cmp_flip : ∀ a b, (cmp a b < 0 ↔ 0 < cmp b a)%Z;
  cmp_lt_trans : ∀ a b c, (cmp a b < 0 → cmp b c < 0 → cmp a c < 0)%Z;
  cmp_eq_trans : ∀ a b c, (cmp a b = 0 → cmp b c = 0 → cmp a c = 0)%Z
}.

(** [a ≤ b] in the order of a comparator. *)
Definition cmp_le {A} (cmp : A → A → Z) (a b : A) : Prop := (cmp a b ≤ 0)%Z.

(** No two distinct strings of [l] compare equal. *)
Definition no_ties {A} (cmp : A → A → Z) (l : list A) : Prop :=
  ∀ a b, a ∈ l → b ∈ l → cmp a b = 0%Z → a = b.

(** No backslash in [s]. *)
Definition no_backslash (s : string) : Prop := includes backslash s = false.

(** Two runs end alike: in the same error, or with the same paths, each
    as often in the one as in the other. *)
Definition same_paths (o1 o2 : outcome (list string)) : Prop :=
  match o1, o2 with
  | Ok l1, Ok l2 => l1 ≡ₚ l2
  | Throw e1, Throw e2 => e1 = e2
  | Stuck, Stuck => True
  | _, _ => False
  end.

(** The insertions a run makes, as pairs of a set and a path, and their
    effect on the store. *)
Abbreviation insertion := (ref * string)%type.

Definition apply_ins (ins : list insertion) (ss : list (list string))
  : list (list string) :=
  foldl (λ ss i, alter (members_add i.2) i.1 ss) ss ins.

(** The paths [ins] inserts into the set [r], in order. *)
Definition into (r : ref) (ins : list insertion) : list string :=
  (filter (λ i, i.1 = r) ins).*2.

(** The array [nulls] of [doNonull], from the members [ss] of the sets:
    [None] where [globSet] has no entry for an empty set. *)
Fixpoint nulls_of {RegExp GlobCache} (this : @Glob RegExp GlobCache)
    (i : nat) (ss : list (list string)) : option (list string) :=
  match ss with
  | [] => Some []
  | s :: ss' =>
      here ← (if (length s =? 0) && nonull this
              then (λ n, [n]) <$> globSet this !! i
              else Some []);
      more ← nulls_of this (S i) ss';
      Some (here ++ more)
  end.

(** The insertions of one whole walk, of the walks one after the other,
    and of the walks under a schedule. *)
Definition walk_ins (wk : GlobWalker) : list insertion :=
  (λ x, (target wk, x)) <$> found wk.

Definition drain (ws : list GlobWalker) : list insertion :=
  concat (walk_ins <$> ws).

Fixpoint sched_ins (sched : list nat) (ws : list GlobWalker)
  : list insertion * list GlobWalker :=
  match sched with
  | [] => ([], ws)
  | k :: sched' =>
      match ws !! k with
      | Some wk =>
          match found wk with
          | x :: rest =>
              let r := sched_ins sched'
                         (<[k := {| target := target wk; pending := Reports rest |}]> ws)
              in ((target wk, x) :: r.1, r.2)
          | [] => sched_ins sched' ws
          end
      | None => sched_ins sched' ws
      end
  end.

Definition trace (sched : list nat) (ws : list GlobWalker) : list insertion :=
  (sched_ins sched ws).1 ++ drain (sched_ins sched ws).2.

(** The rejection [Promise.all] ends with: that of the first walker to
    fail under the schedule, or, where none of the scheduled steps is of
    a failing walker, of the first failing walker in order. *)
Definition first_failure (ws : list GlobWalker) : option string :=
  foldr first_of None (rejects <$> ws).

Fixpoint sched_rejection (sched : list nat) (ws : list GlobWalker)
  : option string :=
  match sched with
  | [] => None
  | k :: sched' => first_of (ws !! k ≫= rejects) (sched_rejection sched' ws)
  end.

Definition rejection (sched : list nat) (ws : list GlobWalker)
  : option string :=
  first_of (sched_rejection sched ws) (first_failure ws).

(** The walkers the blocking mode gets to make: those up to the first
    whose walk fails, that one included. *)
Fixpoint made (ws : list GlobWalker) : nat :=
  match ws with
  | [] => 0
  | wk :: ws' =>
      match rejects wk with
      | Some _ => 1
      | None => S (made ws')
      end
  end.

(** The walkers [process] and [processSync] make for the alternatives
    [alts], when the store has [base] sets. *)
Definition walkers_of {RegExp GlobCache}
    (discover : @Glob RegExp GlobCache → @Pattern RegExp → traversal)
    (this : @Glob RegExp GlobCache) (base : nat)
    (alts : list (nat * list (@ParseReturn RegExp))) : list GlobWalker :=
  imap (λ j a, {| target := match matches this with
                            | Some r => r
                            | None => base + j
                            end;
                  pending := discover this (new_Pattern this a.1 a.2) |}) alts.

(** The errors of the alternatives whose traversal fails at its root,
    in the order of the alternatives. *)
Definition root_failures {RegExp GlobCache}
    (discover : @Glob RegExp GlobCache → @Pattern RegExp → traversal)
    (this : @Glob RegExp GlobCache) : list string :=
  omap (λ a, root_error (discover this (new_Pattern this a.1 a.2)))
       (imap pair (matchSet this)).

(** The sets the walkers of [this] allocate. *)
Definition fresh_sets {RegExp GlobCache} (this : @Glob RegExp GlobCache)
    (n : nat) : list (list string) :=
  match matches this with
  | Some _ => []
  | None => replicate n []
  end.

(** Two stores with the same sets, up to the order of the members. *)
Definition similar (ss1 ss2 : list (list string)) : Prop :=
  Forall NoDup ss1 ∧ Forall NoDup ss2 ∧ Forall2 (≡ₚ) ss1 ss2.

(** The patterns the constructor compiles, when it gets that far: the
    argument as an array, its backslashes replaced under
    [windowsPathsNoEscape], bare names prefixed under [matchBase]. *)
Definition prepared {GlobCache OtherOptions}
    (options : @GlobOptions GlobCache OtherOptions)
    (pattern0 : string + list string) : list string :=
  let pattern1 := as_array pattern0 in
  let pattern2 :=
    if truthy (opt_windowsPathsNoEscape options)
       || is_false (opt_allowWindowsEscape options)
    then map replace_backslashes pattern1
    else pattern1 in
  if truthy (opt_matchBase options) then map base_pattern pattern2
  else pattern2.

(** [{ ...options, nonegate, nocomment, preserveMultipleSlashes }]: the
    options a caller passes who sets the three fields. *)
Definition with_policy {GlobCache OtherOptions}
    (nonegate nocomment preserveMultipleSlashes : option bool)
    (options : @GlobOptions GlobCache OtherOptions)
  : @GlobOptions GlobCache OtherOptions :=
  {| opt_ignore := opt_ignore options;
     opt_follow := opt_follow options;
     opt_mark := opt_mark options;
     opt_nodir := opt_nodir options;
     opt_nounique := opt_nounique options;
     opt_nosort := opt_nosort options;
     opt_cwd := opt_cwd options;
     opt_realpath := opt_realpath options;
     opt_absolute := opt_absolute options;
     opt_cache := opt_cache options;
     opt_dot := opt_dot options;
     opt_nonull := opt_nonull options;
     opt_noglobstar := opt_noglobstar options;
     opt_matchBase := opt_matchBase options;
     opt_windowsPathsNoEscape := opt_windowsPathsNoEscape options;
     opt_allowWindowsEscape := opt_allowWindowsEscape options;
     opt_nonegate := nonegate;
     opt_nocomment := nocomment;
     opt_preserveMultipleSlashes := preserveMultipleSlashes;
     opt_other := opt_other options |}.

(** How often [p] is in [l]. *)
Definition occurrences (p : string) (l : list string) : nat :=
  length (filter (p =.) l).

(** ** A scenario

    A host, a compiler, a tree and a collation to run the class on: the
    compiler knows no braces, so that a pattern is its one alternative
    (the empty pattern has none, as in minimatch); the tree answers the
    few patterns below, and its directories locked and sealed cannot be
    read; strings are collated by their character codes. *)
Module Scenario.

Definition compiler (p : string) (mmo : @GlobOptions unit unit)
  : outcome (@Minimatch unit) :=
  if String.eqb p ""
  then Ok {| mm_set := []; mm_globSet := []; mm_globParts := [] |}
  else Ok {| mm_set := [[Literal p]]; mm_globSet := [p];
             mm_globParts := [[p]] |}.

(** The sort key of a string: its character codes, under every
    locale. *)
Definition code_points (locale s : string) : list N :=
  N_of_ascii <$> list_ascii_of_string s.

Definition collate : string → string → string → Z := collator code_points.

(** A collation under which the strings of one length have one key, and
    so tie. *)
Definition length_key (locale s : string) : list N :=
  [N.of_nat (String.length s)].

Definition by_length : string → string → string → Z := collator length_key.

Definition tree (this : @Glob unit unit) (p : @Pattern unit) : traversal :=
  match patternList p with
  | [Literal "*.md"] => Reports ["README.md"; "CHANGELOG.md"]
  | [Literal "*.txt"] => Reports ["b.txt"; "a.txt"]
  | [Literal "a*"] => Reports ["a.txt"]
  | [Literal "b*"] => Reports ["b.txt"]
  | [Literal "a.txt"] => Reports ["a.txt"]
  | [Literal "locked/*"] => RootError "EACCES: locked"
  | [Literal "sealed/*"] => RootError "EACCES: sealed"
  | _ => Reports []
  end.

(** Options with the given flags, the other fields absent. *)
Definition options (nounique nosort nonull matchBase noglobstar
                    windowsPathsNoEscape : option bool)
    (cwd : option string) : @GlobOptions unit unit :=
  {| opt_ignore := None; opt_follow := None; opt_mark := None;
     opt_nodir := None; opt_nounique := nounique; opt_nosort := nosort;
     opt_cwd := cwd; opt_realpath := None; opt_absolute := None;
     opt_cache := None; opt_dot := None; opt_nonull := nonull;
     opt_noglobstar := noglobstar; opt_matchBase := matchBase;
     opt_windowsPathsNoEscape := windowsPathsNoEscape;
     opt_allowWindowsEscape := None; opt_nonegate := None;
     opt_nocomment := None; opt_preserveMultipleSlashes := None;
     opt_other := None |}.

(** Options that ask for [windowsPathsNoEscape] the old way, by
    [allowWindowsEscape: false]. *)
Definition legacy_options (cwd : option string) : @GlobOptions unit unit :=
  {| opt_ignore := None; opt_follow := None; opt_mark := None;
     opt_nodir := None; opt_nounique := None; opt_nosort := None;
     opt_cwd := cwd; opt_realpath := None; opt_absolute := None;
     opt_cache := None; opt_dot := None; opt_nonull := None;
     opt_noglobstar := None; opt_matchBase := None;
     opt_windowsPathsNoEscape := None;
     opt_allowWindowsEscape := Some false; opt_nonegate := None;
     opt_nocomment := None; opt_preserveMultipleSlashes := None;
     opt_other := None |}.

(** The [Glob] the constructor makes of [patterns] under the flags
    [nounique], [nosort] and [nonull], in a store of [base] sets. *)
Definition glob (patterns : list string) (nounique_ nosort_ nonull_ : bool)
    (base : nat) : @Glob unit unit :=
  {| pattern := patterns; ignore := None; follow := false; dot := false;
     mark := false; nodir := false; nounique := nounique_;
     nosort := nosort_; cwd := "";
     matchSet := (λ p, [Literal p]) <$> patterns;
     globSet := patterns;
     globParts := (λ p, [p]) <$> patterns;
     realpath := false; nonull := nonull_; absolute := false;
     matchBase := false; windowsPathsNoEscape := false;
     noglobstar := false; cache := Fresh;
     matches := if nounique_ then None else Some base |}.

(** The empty store, before any call. *)
Definition start : world (@Pattern unit) := World [] [].

(** The constructor, then the match operation, from [start]. *)
Definition glob_sync (patterns : list string) (o : @GlobOptions unit unit)
  : outcome (list string) :=
  (bind (new_Glob "linux" compiler (inr patterns) o)
        (processSync collate tree) start).1.

Definition glob_async (patterns : list string) (o : @GlobOptions unit unit)
    (sched : list nat) : outcome (list string) :=
  (bind (new_Glob "linux" compiler (inr patterns) o)
        (λ this, process collate tree this sched) start).1.

(** A compiler that rejects the pattern "[" as minimatch rejects what it
    cannot parse, and compiles the others as [compiler] does. *)
Definition strict_compiler (p : string) (mmo : @GlobOptions unit unit)
  : outcome (@Minimatch unit) :=
  if String.eqb p "[" then Throw (Foreign "invalid pattern")
  else compiler p mmo.

(** A compiler that reads a leading "!" as a negation, which leaves the
    pattern no alternative, unless it is asked with [nonegate]. *)
Definition negating_compiler (p : string) (mmo : @GlobOptions unit unit)
  : outcome (@Minimatch unit) :=
  match opt_nonegate mmo, p with
  | Some true, _ => compiler p mmo
  | _, String "!" _ =>
      Ok {| mm_set := []; mm_globSet := []; mm_globParts := [] |}
  | _, _ => compiler p mmo
  end.

End Scenario.

(** ** Options *)

(** [windowsPathsNoEscape] is set by its own option, or by
    [allowWindowsEscape: false]. *)
Lemma no_escape_iff (a b : option bool) :
  truthy a || is_false b = true ↔ a = Some true ∨ b = Some false.
Proof.
  destruct a as [[]|], b as [[]|]; simpl; split;
    try done; try (by left); try (by right); by intros [?|?].
Qed.

(** ** Sets as insertion-ordered lists *)

Lemma elem_of_members_add x y s : y ∈ members_add x s ↔ y ∈ s ∨ y = x.
Proof.
  unfold members_add. case_decide as Hx.
  - split; [by left | intros [?| ->]; done].
  - rewrite elem_of_app, list_elem_of_singleton. done.
Qed.

Lemma NoDup_members_add x s : NoDup s → NoDup (members_add x s).
Proof.
  intros Hs. unfold members_add. case_decide as Hx; [done|].
  apply NoDup_app. split_and!; [done | | apply NoDup_singleton].
  intros y Hy ->%list_elem_of_singleton. done.
Qed.

Lemma members_add_known x s : x ∈ s → members_add x s = s.
Proof. intros Hx. unfold members_add. by rewrite decide_True. Qed.

Lemma adds_cons s x xs : adds s (x :: xs) = adds (members_add x s) xs.
Proof. reflexivity. Qed.

Lemma elem_of_adds s xs y : y ∈ adds s xs ↔ y ∈ s ∨ y ∈ xs.
Proof.
  revert s. induction xs as [|x xs IH]; intros s.
  - simpl. rewrite elem_of_nil. tauto.
  - rewrite adds_cons, IH, elem_of_members_add, elem_of_cons. tauto.
Qed.

Lemma NoDup_adds s xs : NoDup s → NoDup (adds s xs).
Proof.
  revert s. induction xs as [|x xs IH]; intros s Hs; [done|].
  rewrite adds_cons. by apply IH, NoDup_members_add.
Qed.

Lemma adds_nil_inv s xs : adds s xs = [] → s = [] ∧ xs = [].
Proof.
  destruct xs as [|x xs]; [done|]. rewrite adds_cons. intros Hnil.
  assert (x ∈ adds (members_add x s) xs) as Hx.
  { apply elem_of_adds. left. apply elem_of_members_add. by right. }
  rewrite Hnil in Hx. by apply not_elem_of_nil in Hx.
Qed.

Lemma adds_Permutation s s' xs ys :
  NoDup s → NoDup s' → s ≡ₚ s' → xs ≡ₚ ys → adds s xs ≡ₚ adds s' ys.
Proof.
  intros Hs Hs' Hss Hxy.
  apply NoDup_Permutation; [by apply NoDup_adds..|].
  intros y. rewrite !elem_of_adds, Hss, Hxy. done.
Qed.

Lemma filter_absent (p : string) (l : list string) :
  p ∉ l → filter (p =.) l = [].
Proof.
  induction l as [|x l IH]; [done|]. intros [Hne Hp]%not_elem_of_cons.
  rewrite filter_cons, decide_False by done. by apply IH.
Qed.

Lemma NoDup_filter_once (p : string) (l : list string) :
  NoDup l → p ∈ l → length (filter (p =.) l) = 1.
Proof.
  induction 1 as [|x l Hx Hl IH]; intros Hp; [by apply elem_of_nil in Hp|].
  rewrite filter_cons. apply elem_of_cons in Hp as [->|Hp].
  - rewrite decide_True by done. simpl. by rewrite filter_absent.
  - rewrite decide_False by (by intros ->). by apply IH.
Qed.

Lemma concat_Permutation (l1 l2 : list (list string)) :
  Forall2 (≡ₚ) l1 l2 → concat l1 ≡ₚ concat l2.
Proof. induction 1 as [|s1 s2 l1 l2 Hs _ IH]; [done|]. simpl. by rewrite Hs, IH. Qed.

(** ** Insertions into the store *)

Lemma apply_ins_cons i ins ss :
  apply_ins (i :: ins) ss = apply_ins ins (alter (members_add i.2) i.1 ss).
Proof. reflexivity. Qed.

Lemma apply_ins_app ins1 ins2 ss :
  apply_ins (ins1 ++ ins2) ss = apply_ins ins2 (apply_ins ins1 ss).
Proof. apply foldl_app. Qed.

Lemma length_apply_ins ins ss : length (apply_ins ins ss) = length ss.
Proof.
  revert ss. induction ins as [|i ins IH]; intros ss; [done|].
  by rewrite apply_ins_cons, IH, length_alter.
Qed.

Lemma into_cons r i ins :
  into r (i :: ins) = if decide (i.1 = r) then i.2 :: into r ins else into r ins.
Proof. unfold into. rewrite filter_cons. by case_decide. Qed.

Lemma into_app r ins1 ins2 : into r (ins1 ++ ins2) = into r ins1 ++ into r ins2.
Proof. unfold into. by rewrite filter_app, fmap_app. Qed.

(** The set [r] after the insertions [ins]: what went into [r], added
    in order. *)
Lemma lookup_apply_ins ins ss r :
  apply_ins ins ss !! r = (λ s, adds s (into r ins)) <$> ss !! r.
Proof.
  revert ss. induction ins as [|[r' x] ins IH]; intros ss.
  - simpl. by destruct (ss !! r).
  - rewrite apply_ins_cons, IH, into_cons. simpl. case_decide as Hr.
    + subst r'. rewrite list_lookup_alter_eq, <-option_fmap_compose. done.
    + by rewrite list_lookup_alter_ne.
Qed.

Lemma apply_ins_ext ins1 ins2 ss :
  (∀ r, r < length ss → into r ins1 = into r ins2) →
  apply_ins ins1 ss = apply_ins ins2 ss.
Proof.
  intros Hinto. apply list_eq. intros r. rewrite !lookup_apply_ins.
  destruct (ss !! r) as [s|] eqn:Hr; [|done]. simpl.
  rewrite Hinto; [done|]. by eapply lookup_lt_Some.
Qed.

Lemma apply_ins_NoDup ins ss : Forall NoDup ss → Forall NoDup (apply_ins ins ss).
Proof.
  intros Hss. apply Forall_lookup. intros r s. rewrite lookup_apply_ins.
  destruct (ss !! r) as [s'|] eqn:Hr; [|done]. intros [= <-].
  apply NoDup_adds. by eapply Forall_lookup_1.
Qed.

(** Insertions into the sets of a store do not reach sets made later. *)
Lemma apply_ins_app_l ins ss extra :
  Forall (λ i, i.1 < length ss) ins →
  apply_ins ins (ss ++ extra) = apply_ins ins ss ++ extra.
Proof.
  intros Hins. revert ss Hins.
  induction ins as [|i ins IH]; intros ss Hins; [done|].
  apply Forall_cons_1 in Hins as [Hi Hins].
  rewrite !apply_ins_cons, alter_app_l by done.
  apply IH. by rewrite length_alter.
Qed.

Lemma apply_ins_similar ins1 ins2 ss :
  Forall NoDup ss →
  (∀ r, into r ins1 ≡ₚ into r ins2) →
  similar (apply_ins ins1 ss) (apply_ins ins2 ss).
Proof.
  intros Hss Hinto. split_and!; [by apply apply_ins_NoDup..|].
  apply Forall2_same_length_lookup. split.
  { by rewrite !length_apply_ins. }
  intros r s1 s2. rewrite !lookup_apply_ins.
  destruct (ss !! r) as [s|] eqn:Hr; [|done]. intros [= <-] [= <-].
  assert (NoDup s) by by eapply Forall_lookup_1.
  by apply adds_Permutation.
Qed.

Lemma elem_of_into r x ins : x ∈ into r ins ↔ (r, x) ∈ ins.
Proof.
  unfold into. rewrite list_elem_of_fmap. split.
  - intros ([r' x'] & -> & [Hr ?]%list_elem_of_filter). simpl in *. by subst.
  - intros Hin. exists (r, x). split; [done|]. by apply list_elem_of_filter.
Qed.


(** ** Walks under a schedule *)

Lemma drain_cons wk ws : drain (wk :: ws) = walk_ins wk ++ drain ws.
Proof. reflexivity. Qed.

Lemma drain_app ws1 ws2 : drain (ws1 ++ ws2) = drain ws1 ++ drain ws2.
Proof. unfold drain. by rewrite fmap_app, concat_app. Qed.

Lemma into_drain_other r ws :
  Forall (λ wk, target wk ≠ r) ws → into r (drain ws) = [].
Proof.
  induction 1 as [|wk ws Hwk _ IH]; [done|].
  rewrite drain_cons, into_app, IH, app_nil_r.
  unfold walk_ins. induction (found wk) as [|x xs IHx]; [done|].
  csimpl. rewrite into_cons. simpl. by rewrite decide_False.
Qed.

Lemma into_Permutation r ins1 ins2 : ins1 ≡ₚ ins2 → into r ins1 ≡ₚ into r ins2.
Proof. intros Hp. unfold into. by rewrite Hp. Qed.

(** Walker [k] reporting its next path now rather than in its turn:
    each set receives the same paths, and in the same order if no other
    walker fills it. *)
Lemma into_drain_step r ws k wk x rest :
  ws !! k = Some wk → found wk = x :: rest →
  let ws' := <[k := {| target := target wk; pending := Reports rest |}]> ws in
  into r ((target wk, x) :: drain ws') ≡ₚ into r (drain ws)
  ∧ (NoDup (target <$> ws) →
     into r ((target wk, x) :: drain ws') = into r (drain ws)).
Proof.
  intros Hk Hfound ws'.
  assert (k < length ws) as Hlt by by eapply lookup_lt_Some.
  assert (drain ws = drain (take k ws)
                     ++ (target wk, x) :: walk_ins {| target := target wk; pending := Reports rest |}
                     ++ drain (drop (S k) ws)) as Hws.
  { rewrite <-(take_drop_middle ws k wk Hk) at 1.
    rewrite drain_app, drain_cons. unfold walk_ins at 1. by rewrite Hfound. }
  assert (drain ws' = drain (take k ws)
                      ++ walk_ins {| target := target wk; pending := Reports rest |}
                      ++ drain (drop (S k) ws)) as Hws'.
  { subst ws'. rewrite insert_take_drop by done.
    by rewrite drain_app, drain_cons. }
  rewrite Hws, Hws'. split.
  - apply into_Permutation, Permutation_middle.
  - intros Hnd. rewrite !into_cons, !into_app, !into_cons, !into_app. simpl.
    destruct (decide (target wk = r)) as [Hr|Hr]; [|done].
    rewrite into_drain_other; [done|].
    rewrite <-(take_drop_middle ws k wk Hk), fmap_app in Hnd.
    apply NoDup_app in Hnd as (_ & Hnd & _).
    apply Forall_forall. intros wk' Hwk' Heq. apply (Hnd (target wk')).
    + by apply list_elem_of_fmap_2.
    + csimpl. rewrite Heq, <-Hr. by left.
Qed.

Lemma sched_ins_targets sched ws :
  target <$> (sched_ins sched ws).2 = target <$> ws.
Proof.
  revert ws. induction sched as [|k sched IH]; intros ws; [done|].
  simpl. destruct (ws !! k) as [wk|] eqn:Hk; [|done].
  destruct (found wk) as [|x rest]; [done|]. simpl. rewrite IH.
  rewrite list_fmap_insert. simpl. apply list_insert_id.
  by rewrite list_lookup_fmap, Hk.
Qed.

Lemma trace_step k sched ws wk x rest :
  ws !! k = Some wk → found wk = x :: rest →
  trace (k :: sched) ws
  = (target wk, x)
    :: trace sched (<[k := {| target := target wk; pending := Reports rest |}]> ws).
Proof. intros Hk Hf. unfold trace. simpl. by rewrite Hk, Hf. Qed.

Lemma trace_skip k sched ws :
  (ws !! k = None ∨ ∃ wk, ws !! k = Some wk ∧ found wk = []) →
  trace (k :: sched) ws = trace sched ws.
Proof.
  unfold trace. simpl. intros [->|(wk & -> & ->)]; done.
Qed.

(** Whatever the schedule, each set receives the paths it receives when
    the walks run one after the other. *)
Lemma into_trace_Permutation r sched ws :
  into r (trace sched ws) ≡ₚ into r (drain ws).
Proof.
  revert ws. induction sched as [|k sched IH]; intros ws; [done|].
  destruct (ws !! k) as [wk|] eqn:Hk; [|by rewrite trace_skip by by left].
  destruct (found wk) as [|x rest] eqn:Hf.
  { rewrite trace_skip; [done|]. right. by exists wk. }
  rewrite (trace_step _ _ _ _ _ _ Hk Hf).
  destruct (into_drain_step r ws k wk x rest Hk Hf) as [Hstep _].
  rewrite <-Hstep, !into_cons. case_decide; by rewrite IH.
Qed.

(** Where each walker fills a set of its own, each set receives its
    paths in the order of its walk. *)
Lemma into_trace_eq r sched ws :
  NoDup (target <$> ws) → into r (trace sched ws) = into r (drain ws).
Proof.
  revert ws. induction sched as [|k sched IH]; intros ws Hnd; [done|].
  destruct (ws !! k) as [wk|] eqn:Hk;
    [|rewrite trace_skip by (by left); by apply IH].
  destruct (found wk) as [|x rest] eqn:Hf.
  { rewrite trace_skip; [by apply IH|]. right. by exists wk. }
  rewrite (trace_step _ _ _ _ _ _ Hk Hf).
  destruct (into_drain_step r ws k wk x rest Hk Hf) as [_ Hstep].
  rewrite <-Hstep by done. rewrite !into_cons, IH; [done|].
  rewrite list_fmap_insert. simpl. rewrite list_insert_id; [done|].
  by rewrite list_lookup_fmap, Hk.
Qed.

Lemma trace_elem sched ws i : i ∈ trace sched ws ↔ i ∈ drain ws.
Proof.
  destruct i as [r x]. by rewrite <-!elem_of_into, into_trace_Permutation.
Qed.

Lemma drain_elem ws r x :
  (r, x) ∈ drain ws → ∃ wk, wk ∈ ws ∧ target wk = r ∧ x ∈ found wk.
Proof.
  induction ws as [|wk ws IH]; [by intros ?%elem_of_nil|].
  rewrite drain_cons. intros [Hx|Hx]%elem_of_app.
  - unfold walk_ins in Hx.
    apply list_elem_of_fmap in Hx as (y & [= -> ->] & Hy).
    exists wk. split_and!; [by left|done..].
  - destruct (IH Hx) as (wk' & ? & ? & ?). exists wk'.
    split_and!; [by right|done..].
Qed.

(** ** [Array.prototype.sort] *)

Section sorting.
Context {A : Type} (cmp : A → A → Z).

Lemma sorted_insert_Permutation x l : sorted_insert cmp x l ≡ₚ x :: l.
Proof.
  induction l as [|y l IH]; simpl; [done|].
  case_decide; [done|]. rewrite IH. apply Permutation_swap.
Qed.

Lemma Array_sort_Permutation l : Array_sort cmp l ≡ₚ l.
Proof.
  induction l as [|x l IH]; simpl; [done|].
  rewrite sorted_insert_Permutation. by f_equiv.
Qed.

Lemma Array_sort_NoDup l : NoDup l → NoDup (Array_sort cmp l).
Proof. by rewrite Array_sort_Permutation. Qed.

Lemma elem_of_Array_sort x l : x ∈ Array_sort cmp l ↔ x ∈ l.
Proof. by rewrite Array_sort_Permutation. Qed.

Hypothesis Hcmp : consistent cmp.

Lemma cmp_eq_sym a b : cmp a b = 0%Z → cmp b a = 0%Z.
Proof.
  pose proof (cmp_flip cmp Hcmp a b). pose proof (cmp_flip cmp Hcmp b a). lia.
Qed.

Lemma cmp_le_total a b : cmp_le cmp a b ∨ cmp_le cmp b a.
Proof. unfold cmp_le. pose proof (cmp_flip cmp Hcmp b a). lia. Qed.

(** [≤] is transitive: the comparator orders the strings in classes of
    equals. *)
Lemma cmp_le_trans a b c : cmp_le cmp a b → cmp_le cmp b c → cmp_le cmp a c.
Proof.
  unfold cmp_le. intros Hab Hbc.
  destruct (Z.eq_dec (cmp a b) 0%Z) as [Eab|Nab];
    destruct (Z.eq_dec (cmp b c) 0%Z) as [Ebc|Nbc].
  - pose proof (cmp_eq_trans cmp Hcmp a b c Eab Ebc). lia.
  - (* a = b < c: were c < a, then b < c < a, against a = b *)
    destruct (Z_lt_le_dec 0%Z (cmp a c)) as [Hgt|]; [|done].
    apply (cmp_flip cmp Hcmp c a) in Hgt.
    assert (cmp b a < 0)%Z by (apply (cmp_lt_trans cmp Hcmp b c a); lia).
    apply cmp_eq_sym in Eab. lia.
  - (* a < b = c: were c < a, then c < a < b, against b = c *)
    destruct (Z_lt_le_dec 0%Z (cmp a c)) as [Hgt|]; [|done].
    apply (cmp_flip cmp Hcmp c a) in Hgt.
    assert (cmp c b < 0)%Z by (apply (cmp_lt_trans cmp Hcmp c a b); lia).
    apply cmp_eq_sym in Ebc. lia.
  - assert (cmp a c < 0)%Z by (apply (cmp_lt_trans cmp Hcmp a b c); lia). lia.
Qed.

Lemma HdRel_sorted_insert a x l :
  cmp_le cmp a x → HdRel (cmp_le cmp) a l →
  HdRel (cmp_le cmp) a (sorted_insert cmp x l).
Proof.
  intros Hax Hal. destruct l as [|y l]; simpl; [by constructor|].
  case_decide; constructor; [done|]. by inv Hal.
Qed.

Lemma Sorted_sorted_insert x l :
  Sorted (cmp_le cmp) l → Sorted (cmp_le cmp) (sorted_insert cmp x l).
Proof.
  induction 1 as [|y l Hl IH Hy]; simpl; [by repeat constructor|].
  case_decide as Hxy.
  - constructor; [by constructor | by constructor].
  - constructor; [done|]. apply HdRel_sorted_insert; [|done].
    destruct (cmp_le_total x y); done.
Qed.

Lemma Array_sort_Sorted l : Sorted (cmp_le cmp) (Array_sort cmp l).
Proof.
  induction l as [|x l IH]; simpl; [constructor|].
  by apply Sorted_sorted_insert.
Qed.

Lemma Array_sort_StronglySorted l :
  StronglySorted (cmp_le cmp) (Array_sort cmp l).
Proof.
  apply Sorted.Sorted_StronglySorted; [|apply Array_sort_Sorted].
  intros a b c. apply cmp_le_trans.
Qed.



(** Two arrangements of the same strings sort to the same array when no
    two of them tie. *)
Lemma Array_sort_unique l1 l2 :
  l1 ≡ₚ l2 → no_ties cmp l2 → Array_sort cmp l1 = Array_sort cmp l2.
Proof.
  intros Hperm Hties.
  apply (StronglySorted_unique_strong (cmp_le cmp));
    [|apply Array_sort_StronglySorted..|by rewrite !Array_sort_Permutation].
  intros a b Ha Hb Hab Hba. rewrite elem_of_Array_sort in Ha, Hb.
  apply Hties; [by rewrite <-Hperm | done |].
  unfold cmp_le in *. pose proof (cmp_flip cmp Hcmp a b). lia.
Qed.

End sorting.

(** ** The collator *)

Lemma compare_keys_flip k1 k2 : compare_keys k2 k1 = (- compare_keys k1 k2)%Z.
Proof.
  revert k2. induction k1 as [|x k1 IH]; intros [|y k2]; simpl; try done.
  rewrite (N.compare_antisym x y). destruct (N.compare x y); simpl; [|done..].
  apply IH.
Qed.

Lemma compare_keys_eq k1 k2 : compare_keys k1 k2 = 0%Z → k1 = k2.
Proof.
  revert k2. induction k1 as [|x k1 IH]; intros [|y k2]; simpl; try done.
  destruct (N.compare_spec x y) as [->| |]; [|done..].
  by intros ->%IH.
Qed.

Lemma compare_keys_refl k : compare_keys k k = 0%Z.
Proof. induction k as [|x k IH]; [done|]. simpl. by rewrite N.compare_refl. Qed.

Lemma compare_keys_lt_trans k1 k2 k3 :
  (compare_keys k1 k2 < 0 → compare_keys k2 k3 < 0 → compare_keys k1 k3 < 0)%Z.
Proof.
  revert k2 k3.
  induction k1 as [|x k1 IH]; intros [|y k2] [|z k3]; simpl; try lia.
  specialize (IH k2 k3).
  destruct (N.compare_spec x y), (N.compare_spec y z), (N.compare_spec x z);
    lia.
Qed.

(** The comparison of a collator is consistent, whatever the keys. *)
Lemma collator_consistent sort_key (locale : string) :
  consistent (λ a b, collator sort_key a b locale).
Proof.
  unfold collator. split.
  - intros a b. rewrite (compare_keys_flip (sort_key locale a)). lia.
  - intros a b c. apply compare_keys_lt_trans.
  - intros a b c Hab%compare_keys_eq. by rewrite Hab.
Qed.

(** ** The methods, step by step *)

Section Properties.
Context {RegExp GlobCache OtherOptions : Type}.
Variable platform : string.
Variable new_Minimatch :
  string → @GlobOptions GlobCache OtherOptions → outcome (@Minimatch RegExp).
Variable localeCompare : string → string → string → Z.
Variable discover : @Glob RegExp GlobCache → @Pattern RegExp → traversal.

Implicit Types (this : @Glob RegExp GlobCache) (w : world (@Pattern RegExp)).
Implicit Types (r : ref) (rs : list ref) (s : list string).
Implicit Types (ss : list (list string)).

Lemma holds_live w rs ss : holds w rs ss → Forall (live w) rs.
Proof.
  induction 1 as [|r s rs ss Hr _ IH]; constructor; [|done].
  by eapply lookup_lt_Some.
Qed.

Lemma live_holds w rs : Forall (live w) rs → ∃ ss, holds w rs ss.
Proof.
  induction 1 as [|r rs Hr _ [ss IH]]; [by exists []; constructor|].
  apply lookup_lt_is_Some_2 in Hr as [s Hs].
  exists (s :: ss). by constructor.
Qed.

Lemma holds_inj w rs ss ss' : holds w rs ss → holds w rs ss' → ss = ss'.
Proof.
  intros Hh. revert ss'. induction Hh as [|r s rs ss Hr _ IH]; intros ss' Hh'.
  - by inv Hh'.
  - inv Hh'. f_equal; try congruence. by apply IH.
Qed.

Lemma holds_NoDup w rs ss : store_ok w → holds w rs ss → Forall NoDup ss.
Proof.
  intros Hok. induction 1 as [|r s rs ss Hr _ IH]; constructor; [|done].
  exact (Forall_lookup_1 _ _ _ _ Hok Hr).
Qed.

Lemma Set_members_holds w r s :
  sets w !! r = Some s → Set_members r w = (Ok s, w).
Proof. intros Hr. unfold Set_members. by rewrite Hr. Qed.

Lemma map_js_Set_members w rs ss :
  holds w rs ss → map_js Set_members rs w = (Ok ss, w).
Proof.
  induction 1 as [|r s rs ss Hr _ IH]; [done|].
  simpl. unfold bind. by rewrite (Set_members_holds _ _ _ Hr), IH.
Qed.

(** Adding to a set of the store. *)
Lemma for_each_Set_add w r s xs :
  sets w !! r = Some s →
  for_each (Set_add r) xs w
  = (Ok tt, World (<[r := adds s xs]> (sets w)) (calls w)).
Proof.
  revert w s. induction xs as [|x xs IH]; intros w s Hr.
  - simpl. unfold ret. rewrite list_insert_id by done. by destruct w.
  - simpl. unfold bind, Set_add at 1. rewrite Hr.
    erewrite IH; simpl.
    + by rewrite list_insert_insert_eq.
    + apply list_lookup_insert_eq. by eapply lookup_lt_Some.
Qed.

(** *** [finish] *)

Lemma finish_eq this r0 rest s0 more w :
  holds w (r0 :: rest) (s0 :: more) →
  finish localeCompare this (r0 :: rest) w
  = (Ok (let raw := s0 ++ (if nounique this then concat (s0 :: more) else [])
         in if nosort this then raw else sort localeCompare raw), w).
Proof.
  intros Hh. pose proof Hh as Hh0. apply Forall2_cons_1 in Hh0 as [Hr0 _].
  unfold finish, bind. change ((r0 :: rest) !! 0) with (Some r0).
  cbv beta iota. rewrite (Set_members_holds _ _ _ Hr0).
  destruct (nounique this).
  - by rewrite (map_js_Set_members _ _ _ Hh).
  - by rewrite app_nil_r.
Qed.

(** *** [doNonull] *)

Lemma nulls_from_eq this i w rs ss :
  holds w rs ss →
  nulls_from this i rs w
  = (match nulls_of this i ss with Some ns => Ok ns | None => Stuck end, w).
Proof.
  intros Hh. revert i. induction Hh as [|r s rs ss Hr _ IH]; intros i; [done|].
  simpl. unfold bind at 1. rewrite (Set_members_holds _ _ _ Hr).
  unfold bind at 1.
  destruct ((length s =? 0) && nonull this).
  - destruct (globSet this !! i) as [n|]; simpl; [|done].
    unfold bind. rewrite IH. by destruct (nulls_of this (S i) ss).
  - simpl. unfold bind. rewrite IH. by destruct (nulls_of this (S i) ss).
Qed.

Lemma nulls_of_aligned this i ss :
  i + length ss ≤ length (globSet this) → is_Some (nulls_of this i ss).
Proof.
  revert i. induction ss as [|s ss IH]; intros i Hlen; [by eexists|].
  simpl in *. destruct (IH (S i)) as [more ->]; [lia|].
  destruct ((length s =? 0) && nonull this); [|by eexists].
  destruct (lookup_lt_is_Some_2 (globSet this) i) as [n ->]; [lia|].
  by eexists.
Qed.

Lemma nulls_of_elem this i ss ns k n :
  nulls_of this i ss = Some ns → nonull this = true →
  ss !! k = Some [] → globSet this !! (i + k) = Some n → n ∈ ns.
Proof.
  revert i ns k. induction ss as [|s ss IH]; intros i ns k Hns Hnn Hk Hn; [done|].
  simpl in Hns.
  destruct (if (length s =? 0) && nonull this
            then (λ n, [n]) <$> globSet this !! i else Some [])
    as [here|] eqn:Hhere; [|done].
  destruct (nulls_of this (S i) ss) as [more|] eqn:Hmore; [|done].
  simpl in Hns. injection Hns as <-. apply elem_of_app.
  destruct k as [|k]; simpl in Hk.
  - left. injection Hk as ->. simpl in Hhere. rewrite Hnn in Hhere.
    replace (i + 0) with i in Hn by lia. rewrite Hn in Hhere.
    injection Hhere as <-. by left.
  - right. eapply (IH (S i) more k); [done..|].
    by replace (S i + k) with (i + S k) by lia.
Qed.

(** With [nonull] unset, and where no set is empty, there are no nulls. *)
Lemma nulls_of_none this i ss :
  nonull this = false ∨ Forall (λ s, s ≠ []) ss → nulls_of this i ss = Some [].
Proof.
  intros Hcase. revert i. induction ss as [|s ss IH]; intros i; [done|].
  simpl. rewrite IH.
  - destruct Hcase as [->|Hne].
    + by rewrite andb_false_r.
    + apply Forall_cons_1 in Hne as [Hs _]. by destruct s.
  - destruct Hcase as [?|Hne]; [by left|]. right.
    by apply Forall_cons_1 in Hne as [_ ?].
Qed.

Lemma doNonull_eq this w r0 rest s0 more ns :
  holds w (r0 :: rest) (s0 :: more) →
  nulls_of this 0 (s0 :: more) = Some ns →
  doNonull this (r0 :: rest) w
  = (Ok (r0 :: rest), World (<[r0 := adds s0 ns]> (sets w)) (calls w)).
Proof.
  intros Hh Hns. pose proof Hh as Hh0. apply Forall2_cons_1 in Hh0 as [Hr0 _].
  unfold doNonull, bind. rewrite (nulls_from_eq _ _ _ _ _ Hh), Hns.
  simpl. by rewrite (for_each_Set_add _ _ _ _ Hr0).
Qed.

Lemma doNonull_stuck this w rs ss :
  holds w rs ss → nulls_of this 0 ss = None →
  doNonull this rs w = (Stuck, w).
Proof.
  intros Hh Hns. unfold doNonull, bind.
  by rewrite (nulls_from_eq _ _ _ _ _ Hh), Hns.
Qed.

(** *** The constructor *)

Lemma map_js_compile mmo ps w mms w' :
  map_js (compile new_Minimatch mmo) ps w = (Ok mms, w') →
  Forall2 (λ p m, new_Minimatch p mmo = Ok m) ps mms
  ∧ sets w' = sets w ∧ calls w' = calls w ++ (Compiled <$> ps).
Proof.
  revert w mms. induction ps as [|p ps IH]; intros w mms.
  - intros [= <- <-]. by rewrite app_nil_r.
  - simpl. unfold bind at 1. unfold compile at 1, bind, record_call.
    destruct (new_Minimatch p mmo) as [m| |] eqn:Hm; [|done..].
    unfold bind.
    destruct (map_js _ ps _) as [[ms| |] w1] eqn:Hms; [|done..].
    intros [= <- <-]. apply IH in Hms as (? & -> & ->). simpl.
    split_and!; [by constructor | done | by rewrite <-app_assoc].
Qed.

Lemma map_js_compile_ok mmo ps w :
  Forall (λ p, ∃ m, new_Minimatch p mmo = Ok m) ps →
  ∃ mms w', map_js (compile new_Minimatch mmo) ps w = (Ok mms, w').
Proof.
  intros Hps. revert w. induction Hps as [|p ps [m Hm] _ IH]; intros w.
  - by eexists _, _.
  - simpl. unfold bind at 1. unfold compile at 1, bind, record_call.
    rewrite Hm. unfold bind.
    edestruct IH as (ms & w1 & ->). by eexists _, _.
Qed.

Lemma fold_left_push_sets (mms : list (@Minimatch RegExp)) a b c :
  fold_left push_sets mms (a, b, c)
  = (a ++ concat (mm_set <$> mms), b ++ concat (mm_globSet <$> mms),
     c ++ concat (mm_globParts <$> mms)).
Proof.
  revert a b c. induction mms as [|m mms IH]; intros a b c; simpl.
  - by rewrite !app_nil_r.
  - unfold push_sets at 2. simpl. by rewrite IH, <-!app_assoc.
Qed.

(** The patterns the constructor compiles and keeps as [this.pattern]. *)
Lemma new_Glob_inv pattern0 options w this w' :
  new_Glob platform new_Minimatch pattern0 options w = (Ok this, w') →
  ∃ mms,
    Forall2 (λ p m, new_Minimatch p (mmo_of options) = Ok m) (pattern this) mms
    ∧ matchSet this = concat (mm_set <$> mms)
    ∧ globSet this = concat (mm_globSet <$> mms)
    ∧ globParts this = concat (mm_globParts <$> mms)
    ∧ pattern this
      = (let ps := if windowsPathsNoEscape this
                   then replace_backslashes <$> as_array pattern0
                   else as_array pattern0
         in if matchBase this then base_pattern <$> ps else ps)
    ∧ cwd this
      = (if String.eqb platform "win32"
         then replace_backslashes (or_empty (opt_cwd options))
         else or_empty (opt_cwd options))
    ∧ windowsPathsNoEscape this
      = truthy (opt_windowsPathsNoEscape options)
        || is_false (opt_allowWindowsEscape options)
    ∧ matchBase this = truthy (opt_matchBase options)
    ∧ nounique this = truthy (opt_nounique options)
    ∧ nosort this = truthy (opt_nosort options)
    ∧ nonull this = truthy (opt_nonull options)
    ∧ matches this
      = (if nounique this then None else Some (length (sets w)))
    ∧ sets w' = (if nounique this then sets w else sets w ++ [[]])
    ∧ calls w' = calls w ++ (Compiled <$> pattern this).
Proof.
  unfold new_Glob. unfold bind at 1.
  set (w0 := (if truthy (opt_nounique options) then ret None
              else bind new_Set (λ r, ret (Some r))) w).
  assert (w0 = (Ok (if truthy (opt_nounique options) then None
                    else Some (length (sets w))),
                World (if truthy (opt_nounique options) then sets w
                       else sets w ++ [[]]) (calls w))) as ->.
  { subst w0. destruct (truthy (opt_nounique options)); [|done].
    by destruct w. }
  unfold bind at 1.
  set (ps := if truthy (opt_windowsPathsNoEscape options)
                || is_false (opt_allowWindowsEscape options)
             then map replace_backslashes (as_array pattern0)
             else as_array pattern0).
  destruct (truthy (opt_matchBase options)) eqn:Hmb;
    [destruct (truthy (opt_noglobstar options)) eqn:Hng; [done|]|];
    unfold ret at 1; unfold bind at 1;
    (destruct (map_js _ _ _) as [[mms| |] w1] eqn:Hmms; [|done..]);
    rewrite (fold_left_push_sets mms [] [] []); simpl;
    intros [= <- <-]; simpl; rewrite ?Hmb;
    apply map_js_compile in Hmms as (Hall & Hsets & Hcalls);
    exists mms; split_and!; done.
Qed.

(** The constructor returns unless the configuration is invalid or the
    compiler throws. *)
Lemma new_Glob_returns pattern0 options w :
  truthy (opt_matchBase options) && truthy (opt_noglobstar options) = false →
  (∀ p, ∃ m, new_Minimatch p (mmo_of options) = Ok m) →
  ∃ this w', new_Glob platform new_Minimatch pattern0 options w = (Ok this, w').
Proof.
  intros Hcfg Hmm. unfold new_Glob. unfold bind at 1.
  destruct ((if truthy (opt_nounique options) then ret None
             else bind new_Set (λ r, ret (Some r))) w) as [o w0] eqn:Hw0.
  assert (∃ mr, o = Ok mr) as [mr ->].
  { destruct (truthy (opt_nounique options)); inv Hw0; by eexists. }
  unfold bind at 1.
  destruct (truthy (opt_matchBase options));
    [destruct (truthy (opt_noglobstar options)); [done|]|];
    unfold ret at 1; unfold bind at 1;
    (edestruct map_js_compile_ok as (mms & w1 & ->);
     [apply Forall_forall; intros p _; apply Hmm|]);
    rewrite (fold_left_push_sets mms [] [] []); by eexists _, _.
Qed.

Lemma new_Glob_inv_ok pattern0 options w this w' :
  store_ok w →
  new_Glob platform new_Minimatch pattern0 options w = (Ok this, w') →
  store_ok w' ∧ Glob_inv this w'.
Proof.
  intros Hok (mms & _ & _ & _ & _ & _ & _ & _ & _ & _ & _ & _ & Hm & Hs & _)%new_Glob_inv.
  unfold store_ok, Glob_inv, live in *. rewrite Hm, Hs.
  destruct (nounique this); [done|]. split_and!.
  - apply Forall_app. split; [done|]. repeat constructor.
  - done.
  - rewrite length_app. simpl. lia.
Qed.

Lemma no_backslash_replace (s : string) : no_backslash (replace_backslashes s).
Proof.
  unfold no_backslash. induction s as [|c s IH]; [done|]. simpl.
  rewrite IH, orb_false_r. by destruct (Ascii.eqb c backslash) eqn:Hc.
Qed.

Lemma no_backslash_base_pattern (s : string) :
  no_backslash s → no_backslash (base_pattern s).
Proof. unfold base_pattern. by destruct (includes slash s). Qed.

(** Entry [i] of three concatenations of arrays that agree in length,
    piece by piece, is entry [k] of the three pieces [j]. *)
Lemma concat_aligned (mms : list (@Minimatch RegExp)) i :
  Forall aligned mms →
  i < length (concat (mm_set <$> mms)) →
  ∃ j k m,
    mms !! j = Some m ∧ k < length (mm_set m)
    ∧ concat (mm_set <$> mms) !! i = mm_set m !! k
    ∧ concat (mm_globSet <$> mms) !! i = mm_globSet m !! k
    ∧ concat (mm_globParts <$> mms) !! i = mm_globParts m !! k.
Proof.
  intros Hal. revert i. induction Hal as [|m mms [Hm1 Hm2] _ IH]; intros i Hi.
  { simpl in Hi. lia. }
  csimpl in *. rewrite length_app in Hi.
  destruct (decide (i < length (mm_set m))) as [Hlt|Hge].
  - exists 0, i, m. split_and!; [done..| | |];
      apply lookup_app_l; lia.
  - destruct (IH (i - length (mm_set m))) as (j & k & m' & ? & ? & E1 & E2 & E3);
      [lia|].
    exists (S j), k, m'. split_and!; [done..| | |].
    + rewrite lookup_app_r by lia. done.
    + rewrite lookup_app_r by lia. by replace (length (mm_globSet m))
        with (length (mm_set m)) by lia.
    + rewrite lookup_app_r by lia. by replace (length (mm_globParts m))
        with (length (mm_set m)) by lia.
Qed.

Lemma concat_aligned_length (mms : list (@Minimatch RegExp)) :
  Forall aligned mms →
  length (concat (mm_set <$> mms)) = length (concat (mm_globParts <$> mms))
  ∧ length (concat (mm_globSet <$> mms))
    = length (concat (mm_globParts <$> mms)).
Proof.
  induction 1 as [|m mms [Hm1 Hm2] _ [IH1 IH2]]; [done|].
  csimpl. rewrite !length_app. lia.
Qed.

(** *** The walks *)

Lemma Set_add_live w r x :
  live w r →
  Set_add r x w = (Ok tt, World (alter (members_add x) r (sets w)) (calls w)).
Proof.
  intros [s Hs]%lookup_lt_is_Some_2. unfold Set_add. rewrite Hs.
  do 2 f_equal. apply list_eq. intros j.
  destruct (decide (r = j)) as [<-|Hne].
  - rewrite list_lookup_alter_eq, Hs.
    apply list_lookup_insert_eq. by eapply lookup_lt_Some.
  - by rewrite list_lookup_alter_ne, list_lookup_insert_ne.
Qed.

Lemma for_each_insert w r (xs : list string) :
  live w r →
  for_each (Set_add r) xs w
  = (Ok tt, World (apply_ins ((λ x, (r, x)) <$> xs) (sets w)) (calls w)).
Proof.
  revert w. induction xs as [|x xs IH]; intros w Hlive.
  - by destruct w.
  - simpl. unfold bind at 1. rewrite (Set_add_live _ _ _ Hlive).
    rewrite IH; [done|]. unfold live in *. simpl. by rewrite length_alter.
Qed.

Lemma walk_ins_rejects wk m : rejects wk = Some m → walk_ins wk = [].
Proof.
  unfold rejects, walk_ins, found. by destruct (pending wk).
Qed.

Lemma walkSync_eq w wk :
  live w (target wk) → rejects wk = None →
  walkSync wk w
  = (Ok (target wk), World (apply_ins (walk_ins wk) (sets w)) (calls w)).
Proof.
  intros Hlive. unfold walkSync, rejects, walk_ins, found.
  destruct (pending wk) as [ps|m]; [intros _|done]. simpl.
  unfold bind. by rewrite for_each_insert.
Qed.

(** A walk that fails at its root throws, having reported nothing. *)
Lemma walkSync_fails w wk m :
  rejects wk = Some m → walkSync wk w = (Throw (Foreign m), w).
Proof.
  unfold walkSync, rejects. destruct (pending wk) as [ps|m']; [done|].
  by intros [= ->].
Qed.

Lemma map_js_walkSync w ws :
  Forall (λ wk, live w (target wk)) ws →
  Forall (λ wk, rejects wk = None) ws →
  map_js walkSync ws w
  = (Ok (target <$> ws), World (apply_ins (drain ws) (sets w)) (calls w)).
Proof.
  revert w. induction ws as [|wk ws IH]; intros w Hlive Hok.
  - by destruct w.
  - apply Forall_cons_1 in Hlive as [Hwk Hws].
    apply Forall_cons_1 in Hok as [Hwk' Hws'].
    simpl. unfold bind at 1. rewrite (walkSync_eq _ _ Hwk Hwk').
    unfold bind at 1. rewrite IH.
    + simpl. by rewrite drain_cons, apply_ins_app.
    + unfold live in *. simpl. by rewrite length_apply_ins.
    + done.
Qed.

Lemma settle_eq w wk :
  live w (target wk) →
  settle wk w
  = (Ok (target wk, rejects wk),
     World (apply_ins (walk_ins wk) (sets w)) (calls w)).
Proof.
  intros Hlive. unfold settle, rejects, walk_ins, found.
  destruct (pending wk) as [ps|m]; simpl.
  - unfold bind. by rewrite for_each_insert.
  - by destruct w.
Qed.

Lemma map_js_settle w ws :
  Forall (λ wk, live w (target wk)) ws →
  map_js settle ws w
  = (Ok ((λ wk, (target wk, rejects wk)) <$> ws),
     World (apply_ins (drain ws) (sets w)) (calls w)).
Proof.
  revert w. induction ws as [|wk ws IH]; intros w Hlive.
  - by destruct w.
  - apply Forall_cons_1 in Hlive as [Hwk Hws].
    simpl. unfold bind at 1. rewrite (settle_eq _ _ Hwk).
    unfold bind at 1. rewrite IH.
    + simpl. by rewrite drain_cons, apply_ins_app.
    + unfold live in *. simpl. by rewrite length_apply_ins.
Qed.

(** A step changes neither the targets of the walkers nor which of
    them fail. *)
Lemma sched_ins_rejects sched ws :
  rejects <$> (sched_ins sched ws).2 = rejects <$> ws.
Proof.
  revert ws. induction sched as [|k sched IH]; intros ws; [done|].
  simpl. destruct (ws !! k) as [wk|] eqn:Hk; [|done].
  destruct (found wk) as [|x rest] eqn:Hf; [done|]. simpl. rewrite IH.
  rewrite list_fmap_insert. apply list_insert_id.
  rewrite list_lookup_fmap, Hk. simpl. f_equal.
  unfold rejects, found in *. simpl. by destruct (pending wk).
Qed.

Lemma sched_rejection_ext sched ws1 ws2 :
  rejects <$> ws1 = rejects <$> ws2 →
  sched_rejection sched ws1 = sched_rejection sched ws2.
Proof.
  intros Heq. induction sched as [|k sched IH]; [done|]. simpl. rewrite IH.
  f_equal. apply (f_equal (.!! k)) in Heq. rewrite !list_lookup_fmap in Heq.
  destruct (ws1 !! k), (ws2 !! k); simpl in *; congruence.
Qed.

Lemma run_schedule_eq sched w ws :
  Forall (λ wk, live w (target wk)) ws →
  run_schedule sched ws w
  = (Ok ((sched_ins sched ws).2, sched_rejection sched ws),
     World (apply_ins (sched_ins sched ws).1 (sets w)) (calls w)).
Proof.
  revert w ws. induction sched as [|k sched IH]; intros w ws Hlive.
  - by destruct w.
  - simpl. unfold bind at 1. unfold walk_step.
    destruct (ws !! k) as [wk|] eqn:Hk; simpl.
    2:{ unfold bind. by rewrite IH. }
    assert (live w (target wk)) as Hwk
      by exact (Forall_lookup_1 _ _ _ _ Hlive Hk).
    unfold found, rejects.
    destruct (pending wk) as [[|x rest]|m] eqn:Hp; simpl.
    + unfold ret at 1. cbn [fst snd]. unfold bind. by rewrite IH.
    + unfold bind at 1. rewrite (Set_add_live _ _ _ Hwk). unfold ret at 1.
      cbn [fst snd]. unfold bind. rewrite IH.
      * unfold ret. cbn [fst snd sets calls first_of].
        do 3 f_equal. apply sched_rejection_ext.
        rewrite list_fmap_insert. apply list_insert_id.
        rewrite list_lookup_fmap, Hk. simpl. unfold rejects. by rewrite Hp.
      * apply Forall_insert;
          [eapply Forall_impl; [done|]; intros wk' Hwk'|];
          unfold live in *; simpl; by rewrite length_alter.
    + unfold ret at 1. cbn [fst snd]. unfold bind. by rewrite IH.
Qed.

Lemma live_targets w w' (ws ws' : list GlobWalker) :
  target <$> ws' = target <$> ws → length (sets w') = length (sets w) →
  Forall (λ wk, live w (target wk)) ws →
  Forall (λ wk, live w' (target wk)) ws'.
Proof.
  intros Ht Hlen Hlive.
  assert (Forall (live w') (target <$> ws')) as Hgoal.
  { rewrite Ht. apply Forall_fmap. eapply Forall_impl; [done|].
    intros wk Hwk. unfold live in *. simpl. by rewrite Hlen. }
  rewrite Forall_fmap in Hgoal. exact Hgoal.
Qed.

(** [Promise.all] rejects with the first rejection, or gives the result
    sets; either way all the insertions of the walks are made. *)
Lemma Promise_all_eq sched w ws :
  Forall (λ wk, live w (target wk)) ws →
  Promise_all sched ws w
  = (match rejection sched ws with
     | Some m => Throw (Foreign m)
     | None => Ok (target <$> ws)
     end,
     World (apply_ins (trace sched ws) (sets w)) (calls w)).
Proof.
  intros Hlive. unfold Promise_all. unfold bind at 1.
  rewrite (run_schedule_eq _ _ _ Hlive). unfold bind at 1.
  rewrite map_js_settle.
  2:{ eapply live_targets; [apply sched_ins_targets| |done].
      simpl. by rewrite length_apply_ins. }
  cbn [fst snd sets calls].
  rewrite <-apply_ins_app. fold (trace sched ws).
  rewrite <-!list_fmap_compose.
  change (foldr first_of None
            ((snd ∘ (λ wk, (target wk, rejects wk))) <$> (sched_ins sched ws).2))
    with (first_failure (sched_ins sched ws).2).
  unfold first_failure. rewrite sched_ins_rejects.
  fold (first_failure ws). fold (rejection sched ws).
  destruct (rejection sched ws) as [m|]; [done|].
  unfold ret. do 2 f_equal.
  change ((fst ∘ (λ wk, (target wk, rejects wk))) <$> (sched_ins sched ws).2)
    with (target <$> (sched_ins sched ws).2).
  apply sched_ins_targets.
Qed.

(** The walkers of the alternatives. *)
Lemma walkers_of_cons this base a alts :
  walkers_of discover this base (a :: alts)
  = {| target := match matches this with Some r => r | None => base end;
       pending := discover this (new_Pattern this a.1 a.2) |}
    :: walkers_of discover this (S base) alts.
Proof.
  unfold walkers_of. rewrite imap_cons. f_equal.
  - destruct (matches this); [done|]. by rewrite Nat.add_0_r.
  - apply imap_ext. intros j a' _. simpl.
    destruct (matches this); [done|]. do 2 f_equal. lia.
Qed.

Lemma walkers_of_base this b alts :
  walkers_of discover this
    (b + match matches this with Some _ => 0 | None => 1 end) alts
  = walkers_of discover this (S b) alts.
Proof.
  unfold walkers_of. apply imap_ext. intros j a _. simpl.
  destruct (matches this); [done|]. do 2 f_equal. lia.
Qed.

Lemma fresh_sets_S this n :
  fresh_sets this (S n) = fresh_sets this 1 ++ fresh_sets this n.
Proof. unfold fresh_sets. by destruct (matches this). Qed.

Lemma length_fresh_sets this n :
  length (fresh_sets this n)
  = match matches this with Some _ => 0 | None => n end.
Proof.
  unfold fresh_sets. destruct (matches this); [done|]. apply length_replicate.
Qed.

Lemma getWalker_eq this p w :
  getWalker discover this p w
  = (Ok {| target := match matches this with
                     | Some r => r
                     | None => length (sets w)
                     end;
           pending := discover this p |},
     World (sets w ++ fresh_sets this 1) (calls w ++ [Walked p])).
Proof.
  unfold getWalker, new_GlobWalker, bind, record_call, fresh_sets. simpl.
  destruct (matches this); [|done]. simpl. by rewrite app_nil_r.
Qed.

Lemma walkers_live this w alts :
  match matches this with Some r => live w r | None => True end →
  Forall (λ wk, target wk < length (sets w ++ fresh_sets this (length alts)))
         (walkers_of discover this (length (sets w)) alts).
Proof.
  intros Hm. apply Forall_lookup. intros j wk.
  unfold walkers_of. rewrite list_lookup_imap.
  destruct (alts !! j) as [a|] eqn:Ha; [|done]. intros [= <-]. simpl.
  rewrite length_app, length_fresh_sets.
  destruct (matches this); [unfold live in Hm; lia|].
  apply lookup_lt_Some in Ha. lia.
Qed.

Lemma getWalkers_eq this alts w :
  map_js (λ '(i, set_), getWalker discover this (new_Pattern this i set_))
         alts w
  = (Ok (walkers_of discover this (length (sets w)) alts),
     World (sets w ++ fresh_sets this (length alts))
           (calls w ++ ((λ a, Walked (new_Pattern this a.1 a.2)) <$> alts))).
Proof.
  revert w. induction alts as [|[i set_] alts IH]; intros w.
  - simpl. unfold ret, fresh_sets. destruct w. simpl.
    destruct (matches this); by rewrite !app_nil_r.
  - simpl map_js. unfold bind at 1. rewrite getWalker_eq.
    unfold bind at 1. rewrite IH. simpl.
    rewrite walkers_of_cons, (fresh_sets_S this (length alts)). simpl.
    rewrite length_app, length_fresh_sets, <-!app_assoc. simpl.
    by rewrite walkers_of_base.
Qed.

Lemma first_failure_cons wk ws :
  first_failure (wk :: ws) = first_of (rejects wk) (first_failure ws).
Proof. reflexivity. Qed.

Lemma made_all ws : first_failure ws = None → made ws = length ws.
Proof.
  induction ws as [|wk ws IH]; [done|]. rewrite first_failure_cons. simpl.
  destruct (rejects wk); [done|]. simpl. intros ?%IH. by f_equal.
Qed.

Lemma made_le ws : made ws ≤ length ws.
Proof.
  induction ws as [|wk ws IH]; [done|]. simpl.
  destruct (rejects wk); simpl; lia.
Qed.

(** The blocking walks: the walkers are made and walked one after the
    other, up to the first whose walk fails. *)
Lemma sync_walks_eq this alts w :
  match matches this with Some r => live w r | None => True end →
  let ws := walkers_of discover this (length (sets w)) alts in
  map_js (λ '(i, set_),
            let* wk := getWalker discover this (new_Pattern this i set_) in
            walkSync wk) alts w
  = (match first_failure ws with
     | Some m => Throw (Foreign m)
     | None => Ok (target <$> ws)
     end,
     World (apply_ins (drain (take (made ws) ws))
                      (sets w ++ fresh_sets this (made ws)))
           (calls w ++ ((λ a, Walked (new_Pattern this a.1 a.2))
                          <$> take (made ws) alts))).
Proof.
  revert w. induction alts as [|[i set_] alts IH]; intros w Hm ws.
  - subst ws. simpl. unfold ret, fresh_sets. destruct w. simpl.
    destruct (matches this); by rewrite !app_nil_r.
  - subst ws. rewrite walkers_of_cons. cbn [fst snd].
    set (wk := {| target := _; pending := _ |}).
    set (ws' := walkers_of discover this (S (length (sets w))) alts).
    assert (target wk < length (sets w ++ fresh_sets this 1)) as Hwk.
    { subst wk. simpl. rewrite length_app, length_fresh_sets.
      destruct (matches this); [unfold live in Hm|]; lia. }
    rewrite first_failure_cons. cbn [made map_js].
    unfold bind at 1. unfold bind at 1. rewrite getWalker_eq. fold wk.
    destruct (rejects wk) as [m|] eqn:Hrej.
    { rewrite (walkSync_fails _ _ _ Hrej). cbn [first_of take fmap list_fmap].
      rewrite drain_cons, (walk_ins_rejects _ _ Hrej). done. }
    rewrite walkSync_eq by done. cbn [first_of take].
    rewrite fmap_cons, drain_cons, apply_ins_app.
    rewrite (fresh_sets_S this (made ws')), app_assoc.
    rewrite (apply_ins_app_l (walk_ins wk) (sets w ++ fresh_sets this 1)).
    2:{ unfold walk_ins. apply Forall_fmap, Forall_forall. by intros x _. }
    unfold bind at 1.
    specialize (IH (World (apply_ins (walk_ins wk)
                             (sets w ++ fresh_sets this 1))
                          (calls w ++ [Walked (new_Pattern this i set_)]))).
    cbv zeta in IH. cbn [sets calls] in IH.
    rewrite length_apply_ins, length_app, length_fresh_sets in IH.
    rewrite walkers_of_base in IH. fold ws' in IH.
    cbn [sets calls]. rewrite IH.
    + rewrite <-app_assoc. by destruct (first_failure ws').
    + destruct (matches this); [|done]. unfold live in *. cbn [sets].
      rewrite length_apply_ins, length_app. lia.
Qed.

(** *** [process] and [processSync] *)

Local Abbreviation alternatives this := (imap pair (matchSet this)).
Local Abbreviation conclude this rs :=
  (bind (doNonull this rs) (λ ms, finish localeCompare this ms)).
Local Abbreviation walked this :=
  ((λ a, Walked (new_Pattern this a.1 a.2)) <$> alternatives this).

Lemma Glob_inv_matches this w :
  Glob_inv this w →
  match matches this with Some r => live w r | None => True end.
Proof. unfold Glob_inv. destruct (matches this); [by intros [_ ?]|done]. Qed.

(** Which walks fail. *)
Lemma first_failure_None ws :
  first_failure ws = None ↔ Forall (λ wk, rejects wk = None) ws.
Proof.
  induction ws as [|wk ws IH]; [done|]. rewrite first_failure_cons.
  rewrite Forall_cons, <-IH. destruct (rejects wk); simpl.
  - split; [done|by intros [? _]].
  - split; [done|by intros [_ ?]].
Qed.

Lemma first_failure_elem ws m :
  first_failure ws = Some m → ∃ wk, wk ∈ ws ∧ rejects wk = Some m.
Proof.
  induction ws as [|wk ws IH]; [done|]. rewrite first_failure_cons.
  destruct (rejects wk) as [m'|] eqn:Hwk; simpl.
  - intros [= ->]. exists wk. split; [by left|done].
  - intros (wk' & ? & ?)%IH. exists wk'. split; [by right|done].
Qed.

Lemma rejection_None sched ws :
  first_failure ws = None → rejection sched ws = None.
Proof.
  intros Hnone. unfold rejection. rewrite Hnone.
  apply first_failure_None in Hnone.
  induction sched as [|k sched IH]; [done|]. simpl in *.
  destruct (ws !! k) as [wk|] eqn:Hk; simpl; [|done].
  by rewrite (Forall_lookup_1 _ _ _ _ Hnone Hk).
Qed.

Lemma rejection_elem sched ws m :
  rejection sched ws = Some m → ∃ wk, wk ∈ ws ∧ rejects wk = Some m.
Proof.
  unfold rejection.
  destruct (sched_rejection sched ws) as [m'|] eqn:Hs; simpl;
    [|apply first_failure_elem].
  intros [= ->]. induction sched as [|k sched IH]; [done|]. simpl in Hs.
  destruct (ws !! k) as [wk|] eqn:Hk; simpl in Hs; [|by apply IH].
  destruct (rejects wk) as [m'|] eqn:Hwk; simpl in Hs; [|by apply IH].
  injection Hs as ->. exists wk. split; [|done].
  by eapply list_elem_of_lookup_2.
Qed.

Lemma rejection_Some sched ws m :
  first_failure ws = Some m → is_Some (rejection sched ws).
Proof.
  intros Hm. unfold rejection. rewrite Hm.
  by destruct (sched_rejection sched ws).
Qed.

Lemma rejection_nil ws : rejection [] ws = first_failure ws.
Proof. reflexivity. Qed.

(** The failing walkers are those of the alternatives whose traversal
    fails. *)
Lemma first_failure_walkers this base alts :
  first_failure (walkers_of discover this base alts)
  = head (omap (λ a, root_error (discover this (new_Pattern this a.1 a.2)))
               alts).
Proof.
  revert base. induction alts as [|a alts IH]; intros base; [done|].
  rewrite walkers_of_cons, first_failure_cons, IH. unfold rejects. simpl.
  by destruct (root_error (discover this (new_Pattern this a.1 a.2))).
Qed.

Lemma rejects_walkers this base alts wk m :
  wk ∈ walkers_of discover this base alts → rejects wk = Some m →
  m ∈ omap (λ a, root_error (discover this (new_Pattern this a.1 a.2))) alts.
Proof.
  unfold walkers_of. intros [j Hj]%list_elem_of_lookup Hm.
  rewrite list_lookup_imap in Hj.
  destruct (alts !! j) as [a|] eqn:Ha; [|done]. injection Hj as <-.
  apply list_elem_of_omap. exists a. split; [|done].
  by eapply list_elem_of_lookup_2.
Qed.

Lemma no_failure_walkers this base :
  root_failures discover this = [] →
  first_failure (walkers_of discover this base (alternatives this)) = None.
Proof. intros Hnone. rewrite first_failure_walkers. by fold (root_failures discover this); rewrite Hnone. Qed.

(** [process]: the walkers are made and the walks insert along the
    schedule; where a walk fails, the first rejection is thrown, and
    otherwise [doNonull] and [finish] run. *)
Lemma process_run this sched w :
  Glob_inv this w →
  let ws := walkers_of discover this (length (sets w)) (alternatives this) in
  let w1 := World (apply_ins (trace sched ws)
                     (sets w ++ fresh_sets this (length (alternatives this))))
                  (calls w ++ walked this) in
  process localeCompare discover this sched w
  = match rejection sched ws with
    | Some m => (Throw (Foreign m), w1)
    | None => conclude this (target <$> ws) w1
    end.
Proof.
  intros Hinv ws w1. unfold process. unfold bind at 1. rewrite getWalkers_eq.
  unfold bind at 1. rewrite Promise_all_eq.
  - fold ws. by destruct (rejection sched ws).
  - apply walkers_live. by apply Glob_inv_matches.
Qed.

(** [processSync]: the walkers are made and walked in turn; the first
    walk that fails throws, and otherwise [doNonull] and [finish]
    run. *)
Lemma processSync_run this w :
  Glob_inv this w →
  let ws := walkers_of discover this (length (sets w)) (alternatives this) in
  let w1 := World (apply_ins (drain (take (made ws) ws))
                     (sets w ++ fresh_sets this (made ws)))
                  (calls w ++ ((λ a, Walked (new_Pattern this a.1 a.2))
                                 <$> take (made ws) (alternatives this))) in
  processSync localeCompare discover this w
  = match first_failure ws with
    | Some m => (Throw (Foreign m), w1)
    | None => conclude this (target <$> ws) w1
    end.
Proof.
  intros Hinv ws w1. unfold processSync. unfold bind at 1.
  rewrite sync_walks_eq by by apply Glob_inv_matches.
  fold ws. by destruct (first_failure ws).
Qed.

(** Where no traversal fails. *)
Lemma process_eq this sched w :
  Glob_inv this w → root_failures discover this = [] →
  let ws := walkers_of discover this (length (sets w)) (alternatives this) in
  process localeCompare discover this sched w
  = conclude this (target <$> ws)
      (World (apply_ins (trace sched ws)
                (sets w ++ fresh_sets this (length (alternatives this))))
             (calls w ++ walked this)).
Proof.
  intros Hinv Hnone ws. rewrite process_run by done. fold ws.
  by rewrite (rejection_None sched ws (no_failure_walkers this _ Hnone)).
Qed.

Lemma processSync_eq this w :
  Glob_inv this w → root_failures discover this = [] →
  let ws := walkers_of discover this (length (sets w)) (alternatives this) in
  processSync localeCompare discover this w
  = conclude this (target <$> ws)
      (World (apply_ins (drain ws)
                (sets w ++ fresh_sets this (length (alternatives this))))
             (calls w ++ walked this)).
Proof.
  intros Hinv Hnone ws. rewrite processSync_run by done. fold ws.
  pose proof (no_failure_walkers this (length (sets w)) Hnone) as Hws.
  fold ws in Hws. rewrite Hws, (made_all ws Hws).
  assert (length ws = length (alternatives this)) as Hlen.
  { subst ws. unfold walkers_of. by rewrite length_imap. }
  rewrite firstn_all, Hlen, firstn_all. done.
Qed.


(** [doNonull] and [finish] on result sets that exist. *)
Lemma conclude_stuck this r0 rest s0 more w :
  holds w (r0 :: rest) (s0 :: more) →
  nulls_of this 0 (s0 :: more) = None →
  conclude this (r0 :: rest) w = (Stuck, w).
Proof.
  intros Hh Hns. unfold bind. by rewrite (doNonull_stuck _ _ _ _ Hh Hns).
Qed.

Lemma conclude_ok this r0 rest s0 more ns more' w :
  holds w (r0 :: rest) (s0 :: more) →
  nulls_of this 0 (s0 :: more) = Some ns →
  holds (World (<[r0 := adds s0 ns]> (sets w)) (calls w))
        (r0 :: rest) (adds s0 ns :: more') →
  conclude this (r0 :: rest) w
  = (Ok (let raw := adds s0 ns
                    ++ (if nounique this
                        then concat (adds s0 ns :: more') else [])
         in if nosort this then raw else sort localeCompare raw),
     World (<[r0 := adds s0 ns]> (sets w)) (calls w)).
Proof.
  intros Hh Hns Hh'. unfold bind.
  rewrite (doNonull_eq _ _ _ _ _ _ _ Hh Hns).
  exact (finish_eq _ _ _ _ _ _ Hh').
Qed.

(** The sets named by live references, before and after [doNonull]. *)
Lemma holds_after_insert w r0 rest s0 more s1 (c : list (call (@Pattern RegExp))) :
  holds w (r0 :: rest) (s0 :: more) →
  ∃ more', holds (World (<[r0 := s1]> (sets w)) c) (r0 :: rest) (s1 :: more').
Proof.
  intros Hh. pose proof (holds_live _ _ _ Hh) as Hlive.
  destruct (live_holds (World (<[r0 := s1]> (sets w)) c) (r0 :: rest))
    as [ss' Hh'].
  { eapply Forall_impl; [done|]. intros r Hr. unfold live in *. simpl.
    by rewrite length_insert. }
  destruct ss' as [|s1' more']; [by inv Hh'|].
  pose proof Hh' as [Hr0 _]%Forall2_cons_1. simpl in Hr0.
  apply Forall_cons_1 in Hlive as [Hlive0 _].
  rewrite list_lookup_insert_eq in Hr0 by done. injection Hr0 as <-.
  by exists more'.
Qed.

(** With at least one result set, [doNonull] and [finish] return, or
    stop where [globSet] has no entry for an empty set; they do not
    throw. *)
Lemma conclude_outcome this r0 rest w :
  Forall (live w) (r0 :: rest) →
  (∃ out w', conclude this (r0 :: rest) w = (Ok out, w'))
  ∨ (conclude this (r0 :: rest) w = (Stuck, w)
     ∧ ¬ length (r0 :: rest) ≤ length (globSet this)).
Proof.
  intros [ss Hh]%live_holds. destruct ss as [|s0 more]; [by inv Hh|].
  destruct (nulls_of this 0 (s0 :: more)) as [ns|] eqn:Hns.
  - left. destruct (holds_after_insert w r0 rest s0 more (adds s0 ns) (calls w) Hh)
      as [more' Hh'].
    eexists _, _. by eapply conclude_ok.
  - right. split; [by eapply conclude_stuck|]. intros Hlen.
    destruct (nulls_of_aligned this 0 (s0 :: more)) as [ns' Hns'].
    + apply Forall2_length in Hh. simpl in *. lia.
    + congruence.
Qed.

Lemma fresh_sets_NoDup this n : Forall NoDup (fresh_sets this n).
Proof.
  unfold fresh_sets. destruct (matches this); [done|].
  apply Forall_replicate. constructor.
Qed.

Lemma store_after_walks this w ins n :
  store_ok w → Forall NoDup (apply_ins ins (sets w ++ fresh_sets this n)).
Proof.
  intros Hok. apply apply_ins_NoDup, Forall_app. split; [done|].
  apply fresh_sets_NoDup.
Qed.

Lemma targets_live_after this w ins :
  Glob_inv this w →
  let ws := walkers_of discover this (length (sets w)) (alternatives this) in
  Forall (live (World (apply_ins ins (sets w ++ fresh_sets this
                                        (length (alternatives this))))
                      (calls w ++ walked this)))
         (target <$> ws).
Proof.
  intros Hinv ws. apply Forall_fmap.
  eapply Forall_impl; [apply walkers_live; by apply Glob_inv_matches|].
  intros wk Hwk. unfold live. simpl. by rewrite length_apply_ins.
Qed.

Lemma walkers_of_nil this base alts :
  walkers_of discover this base alts = [] ↔ alts = [].
Proof.
  split; [|by intros ->]. intros Hnil.
  apply (f_equal length) in Hnil. unfold walkers_of in Hnil.
  rewrite length_imap in Hnil. by destruct alts.
Qed.

Lemma run_schedule_nil sched w :
  run_schedule sched [] w = (Ok ([], None), w).
Proof.
  induction sched as [|k sched IH]; [done|]. simpl. unfold bind at 1.
  unfold walk_step. simpl. unfold bind. by rewrite IH.
Qed.

(** With [nounique] unset the output of [doNonull] and [finish] is the
    content of one set. *)
Lemma conclude_NoDup this rs w out w' :
  store_ok w → Forall (live w) rs → nounique this = false →
  conclude this rs w = (Ok out, w') → NoDup out.
Proof.
  intros Hok Hlive Hnu. destruct rs as [|r0 rest]; [done|].
  destruct (live_holds _ _ Hlive) as [ss Hh].
  destruct ss as [|s0 more]; [by inv Hh|].
  destruct (nulls_of this 0 (s0 :: more)) as [ns|] eqn:Hns.
  - destruct (holds_after_insert w r0 rest s0 more (adds s0 ns) (calls w) Hh)
      as [more' Hh'].
    rewrite (conclude_ok _ _ _ _ _ _ _ _ Hh Hns Hh'), Hnu.
    intros [= <- <-]. simpl. rewrite app_nil_r.
    assert (NoDup (adds s0 ns)).
    { apply NoDup_adds. apply (holds_NoDup _ _ _ Hok) in Hh.
      by apply Forall_cons_1 in Hh as [? _]. }
    destruct (nosort this); [done|]. by apply Array_sort_NoDup.
  - by rewrite (conclude_stuck _ _ _ _ _ _ Hh Hns).
Qed.

(** *** Runs on stores that differ in the order of the members *)

Lemma holds_similar ss1 ss2 (c : list (call (@Pattern RegExp))) rs :
  similar ss1 ss2 → Forall (λ r, r < length ss1) rs →
  ∃ l1 l2,
    holds (World ss1 c) rs l1 ∧ holds (World ss2 c) rs l2
    ∧ Forall2 (≡ₚ) l1 l2.
Proof.
  intros (_ & _ & H12). induction 1 as [|r rs Hr _ (l1 & l2 & H1 & H2 & Hl)].
  { exists [], []. split_and!; constructor. }
  apply lookup_lt_is_Some_2 in Hr as [s1 Hs1].
  destruct (Forall2_lookup_l _ _ _ _ _ H12 Hs1) as (s2 & Hs2 & Hs).
  exists (s1 :: l1), (s2 :: l2). split_and!; by constructor.
Qed.

Lemma nulls_of_Permutation this i l1 l2 :
  Forall2 (≡ₚ) l1 l2 → nulls_of this i l1 = nulls_of this i l2.
Proof.
  intros Hl. revert i. induction Hl as [|s1 s2 l1 l2 Hs _ IH]; intros i; [done|].
  simpl. by rewrite IH, (Permutation_length Hs).
Qed.

Lemma similar_insert ss1 ss2 r s1 s2 :
  similar ss1 ss2 → NoDup s1 → NoDup s2 → s1 ≡ₚ s2 →
  similar (<[r := s1]> ss1) (<[r := s2]> ss2).
Proof.
  intros (H1 & H2 & H12) ? ? ?.
  split_and!; [by apply Forall_insert..|by apply Forall2_insert].
Qed.

Lemma no_ties_Permutation {A} (cmp : A → A → Z) (l1 l2 : list A) :
  l1 ≡ₚ l2 → no_ties cmp l1 → no_ties cmp l2.
Proof. intros Hp Ht a b Ha Hb. apply Ht; by rewrite Hp. Qed.

(** From stores with the same sets [doNonull] and [finish] give the
    same paths; sorted, they give the same array when no two paths tie. *)
Lemma conclude_similar this rs ss1 ss2 (c : list (call (@Pattern RegExp))) :
  similar ss1 ss2 → Forall (λ r, r < length ss1) rs →
  same_paths (conclude this rs (World ss1 c)).1
             (conclude this rs (World ss2 c)).1
  ∧ (nosort this = false → consistent (compare_en localeCompare) →
     ∀ out, (conclude this rs (World ss2 c)).1 = Ok out →
            no_ties (compare_en localeCompare) out →
            (conclude this rs (World ss1 c)).1 = Ok out).
Proof.
  intros Hsim Hlive. destruct rs as [|r0 rest]; [done|].
  destruct (holds_similar ss1 ss2 c _ Hsim Hlive) as (l1 & l2 & H1 & H2 & Hl).
  destruct l1 as [|s1 more1]; [by inv H1|].
  destruct l2 as [|s2 more2]; [by inv H2|].
  pose proof Hl as [Hs12 _]%Forall2_cons_1.
  pose proof (nulls_of_Permutation this 0 _ _ Hl) as Hnulls.
  destruct (nulls_of this 0 (s2 :: more2)) as [ns|] eqn:Hns.
  2:{ rewrite (conclude_stuck _ _ _ _ _ _ H1 Hnulls).
      by rewrite (conclude_stuck _ _ _ _ _ _ H2 Hns). }
  assert (NoDup s1 ∧ NoDup s2) as [Hnd1 Hnd2].
  { destruct Hsim as (Hd1 & Hd2 & _).
    apply (holds_NoDup (World ss1 c) _ _ Hd1) in H1.
    apply (holds_NoDup (World ss2 c) _ _ Hd2) in H2.
    split; [by apply Forall_cons_1 in H1 as [? _]
           |by apply Forall_cons_1 in H2 as [? _]]. }
  assert (similar (<[r0 := adds s1 ns]> ss1) (<[r0 := adds s2 ns]> ss2))
    as Hsim'.
  { apply similar_insert; [done|by apply NoDup_adds..|].
    by apply adds_Permutation. }
  destruct (holds_similar _ _ c (r0 :: rest) Hsim')
    as (l1' & l2' & H1' & H2' & Hl').
  { eapply Forall_impl; [done|]. intros r Hr. simpl. by rewrite length_insert. }
  destruct (holds_after_insert _ r0 rest s1 more1 (adds s1 ns) c H1)
    as [m1 Hm1].
  destruct (holds_after_insert _ r0 rest s2 more2 (adds s2 ns) c H2)
    as [m2 Hm2].
  simpl in Hm1, Hm2.
  assert (l1' = adds s1 ns :: m1) as -> by exact (holds_inj _ _ _ _ H1' Hm1).
  assert (l2' = adds s2 ns :: m2) as -> by exact (holds_inj _ _ _ _ H2' Hm2).
  rewrite (conclude_ok _ _ _ _ _ _ _ _ H1 Hnulls Hm1).
  rewrite (conclude_ok _ _ _ _ _ _ _ _ H2 Hns Hm2). cbn [fst]. cbv zeta.
  assert (adds s1 ns
            ++ (if nounique this then concat (adds s1 ns :: m1) else [])
          ≡ₚ adds s2 ns
            ++ (if nounique this then concat (adds s2 ns :: m2) else []))
    as Hraw.
  { pose proof Hl' as [Hhd _]%Forall2_cons_1.
    apply Permutation_app; [done|]. destruct (nounique this); [|done].
    by apply concat_Permutation. }
  split.
  - destruct (nosort this); [done|]. unfold sort. simpl.
    by rewrite !Array_sort_Permutation.
  - intros -> Hcmp out [= <-] Hties. f_equal. unfold sort.
    apply Array_sort_unique; [done..|].
    eapply no_ties_Permutation; [|done]. apply Array_sort_Permutation.
Qed.

Lemma walkers_targets_fresh this base alts :
  matches this = None →
  target <$> walkers_of discover this base alts = seq base (length alts).
Proof.
  intros Hm. revert base. induction alts as [|a alts IH]; intros base; [done|].
  rewrite walkers_of_cons, fmap_cons, IH. simpl. by rewrite Hm.
Qed.

(** *** A second run of the same [Glob] *)

Lemma walkers_targets_shared this base alts r :
  matches this = Some r →
  Forall (λ wk, target wk = r) (walkers_of discover this base alts).
Proof.
  intros Hm. apply Forall_lookup. intros j wk. unfold walkers_of.
  rewrite list_lookup_imap. destruct (alts !! j); [|done].
  intros [= <-]. simpl. by rewrite Hm.
Qed.


Lemma holds_same w rs ss r s :
  Forall (r =.) rs → holds w rs ss → sets w !! r = Some s → Forall (s =.) ss.
Proof.
  intros Hrs Hh Hr. induction Hh as [|r' s' rs ss Hr' _ IH]; [done|].
  apply Forall_cons_1 in Hrs as [<- Hrs]. constructor; [congruence|].
  by apply IH.
Qed.




(** The suspending mode against the blocking mode, where no traversal
    fails. *)
Lemma process_vs_processSync this w sched :
  store_ok w → Glob_inv this w → root_failures discover this = [] →
  same_paths (process localeCompare discover this sched w).1
             (processSync localeCompare discover this w).1
  ∧ (nounique this = true →
     (process localeCompare discover this sched w).1
     = (processSync localeCompare discover this w).1)
  ∧ (nosort this = false → consistent (compare_en localeCompare) →
     ∀ out, (processSync localeCompare discover this w).1 = Ok out →
            no_ties (compare_en localeCompare) out →
            (process localeCompare discover this sched w).1 = Ok out).
Proof.
  intros Hok Hinv Hnone. rewrite process_eq, processSync_eq by done.
  set (ws := walkers_of discover this (length (sets w)) (alternatives this)).
  set (S1 := sets w ++ fresh_sets this (length (alternatives this))).
  assert (Forall NoDup S1) as HS1.
  { apply Forall_app. split; [done | apply fresh_sets_NoDup]. }
  assert (Forall (λ r, r < length (apply_ins (trace sched ws) S1))
                 (target <$> ws)) as Hlive.
  { apply (targets_live_after this w (trace sched ws) Hinv). }
  pose proof (conclude_similar this (target <$> ws) _ _ (calls w ++ walked this)
                (apply_ins_similar (trace sched ws) (drain ws) S1 HS1
                   (λ r, into_trace_Permutation r sched ws)) Hlive)
    as [Hsame Hsorted].
  split_and!; [done| |done].
  intros Hnu. unfold Glob_inv in Hinv.
  destruct (matches this) as [r|] eqn:Hm; [destruct Hinv; congruence|].
  rewrite (apply_ins_ext (trace sched ws) (drain ws) S1); [done|].
  intros r _. apply into_trace_eq. subst ws.
  rewrite walkers_targets_fresh by done. apply NoDup_seq.
Qed.

(** Where traversals fail, both modes fail: the blocking mode with the
    error of the first failing alternative, the suspending mode with
    that of the walk that failed first. *)
Lemma failing_runs this w sched m rest :
  Glob_inv this w → root_failures discover this = m :: rest →
  (processSync localeCompare discover this w).1 = Throw (Foreign m)
  ∧ ∃ m', m' ∈ m :: rest
          ∧ (process localeCompare discover this sched w).1
            = Throw (Foreign m').
Proof.
  intros Hinv Hfail. rewrite processSync_run, process_run by done. cbv zeta.
  set (ws := walkers_of discover this (length (sets w)) (alternatives this)).
  assert (first_failure ws = Some m) as Hfirst.
  { subst ws. rewrite first_failure_walkers.
    fold (root_failures discover this). by rewrite Hfail. }
  rewrite Hfirst. split; [done|].
  destruct (rejection_Some sched ws m Hfirst) as [m' Hm'].
  exists m'. rewrite Hm'. split; [|done]. rewrite <-Hfail.
  destruct (rejection_elem sched ws m' Hm') as (wk & Hwk & Hrej).
  by eapply rejects_walkers.
Qed.

(** A run that returns had no failing traversal. *)
Lemma returned_no_failure this w sched out w' :
  Glob_inv this w →
  process localeCompare discover this sched w = (Ok out, w')
  ∨ processSync localeCompare discover this w = (Ok out, w') →
  root_failures discover this = [].
Proof.
  intros Hinv Hrun.
  destruct (root_failures discover this) as [|m rest] eqn:Hfail; [done|].
  destruct (failing_runs this w sched m rest Hinv Hfail)
    as (Hsync & m' & _ & Hasync).
  destruct Hrun as [Hrun|Hrun]; [rewrite Hrun in Hasync|rewrite Hrun in Hsync];
    done.
Qed.

(** The literal of an empty result set is in the output. *)
Lemma conclude_has_literal this rs ss w out w' i n :
  conclude this rs w = (Ok out, w') → holds w rs ss → nonull this = true →
  ss !! i = Some [] → globSet this !! i = Some n → n ∈ out.
Proof.
  intros Hrun Hh Hnn Hi Hn.
  destruct ss as [|s0 more]; [done|].
  destruct rs as [|r0 rest]; [by inv Hh|].
  destruct (nulls_of this 0 (s0 :: more)) as [ns|] eqn:Hns;
    [|by rewrite (conclude_stuck _ _ _ _ _ _ Hh Hns) in Hrun].
  destruct (holds_after_insert w r0 rest s0 more (adds s0 ns) (calls w) Hh)
    as [more' Hh'].
  rewrite (conclude_ok _ _ _ _ _ _ _ _ Hh Hns Hh') in Hrun.
  injection Hrun as <- _. cbv zeta.
  assert (n ∈ adds s0 ns).
  { apply elem_of_adds. right. by eapply (nulls_of_elem this 0 _ ns i n). }
  destruct (nosort this); [|apply elem_of_Array_sort];
    apply elem_of_app; by left.
Qed.

Lemma into_walk_ins wk : into (target wk) (walk_ins wk) = found wk.
Proof.
  unfold walk_ins. induction (found wk) as [|x xs IH]; [done|].
  csimpl. rewrite into_cons. simpl. by rewrite decide_True, IH.
Qed.

(** Where each walker fills a set of its own, its set receives the paths
    of its walk. *)
Lemma into_drain_own ws j wk :
  NoDup (target <$> ws) → ws !! j = Some wk →
  into (target wk) (drain ws) = found wk.
Proof.
  intros Hnd Hj.
  assert (ws = take j ws ++ wk :: drop (S j) ws) as Hws
    by by rewrite take_drop_middle.
  rewrite Hws, fmap_app, fmap_cons in Hnd.
  apply NoDup_app in Hnd as (_ & Hpre & Hnd).
  apply NoDup_cons in Hnd as [Hpost _].
  rewrite Hws, drain_app, drain_cons, !into_app, into_walk_ins.
  rewrite !into_drain_other, app_nil_r; [done| |].
  - apply Forall_forall. intros wk' Hwk' Heq. apply Hpost. rewrite <-Heq.
    by apply list_elem_of_fmap_2.
  - apply Forall_forall. intros wk' Hwk' Heq.
    apply (Hpre (target wk')); [by apply list_elem_of_fmap_2|].
    rewrite Heq. by left.
Qed.

(** With [nounique] set, when the walks are over the set of each walker
    holds the paths of its traversal. *)
Lemma own_sets_after_walks this w sched (c : list (call (@Pattern RegExp))) :
  matches this = None →
  let ws := walkers_of discover this (length (sets w)) (alternatives this) in
  holds (World (apply_ins (trace sched ws)
                  (sets w ++ fresh_sets this (length (alternatives this)))) c)
        (target <$> ws) ((λ wk, adds [] (found wk)) <$> ws).
Proof.
  intros Hm ws. unfold holds. apply Forall2_fmap, Forall_Forall2_diag.
  apply Forall_lookup. intros j wk Hj. cbn [sets].
  assert (NoDup (target <$> ws)) as Hnd.
  { subst ws. rewrite walkers_targets_fresh by done. apply NoDup_seq. }
  assert (target wk = length (sets w) + j ∧ j < length (alternatives this))
    as [Ht Hlt].
  { assert ((target <$> ws) !! j = Some (target wk)) as Hl
      by by rewrite list_lookup_fmap, Hj.
    subst ws. rewrite walkers_targets_fresh in Hl by done.
    apply lookup_seq in Hl. lia. }
  rewrite lookup_apply_ins, into_trace_eq, (into_drain_own ws j wk) by done.
  rewrite Ht, lookup_app_r by lia.
  replace (length (sets w) + j - length (sets w)) with j by lia.
  unfold fresh_sets. rewrite Hm, lookup_replicate_2 by done. done.
Qed.

(** Walks that report nothing insert nothing. *)
Lemma into_trace_nothing r sched ws :
  Forall (λ wk, found wk = []) ws → into r (trace sched ws) = [].
Proof.
  intros Hnone. destruct (into r (trace sched ws)) as [|x l] eqn:Hl; [done|].
  assert (x ∈ into r (trace sched ws)) as Hx by (rewrite Hl; by left).
  apply elem_of_into, trace_elem, drain_elem in Hx as (wk & Hwk & _ & Hin).
  rewrite Forall_forall in Hnone. rewrite (Hnone wk Hwk) in Hin.
  by apply elem_of_nil in Hin.
Qed.

Lemma walker_of_alternative this base i set_ :
  matchSet this !! i = Some set_ →
  walkers_of discover this base (alternatives this) !! i
  = Some {| target := match matches this with
                      | Some r => r
                      | None => base + i
                      end;
            pending := discover this (new_Pattern this i set_) |}.
Proof.
  intros Hi. unfold walkers_of. by rewrite !list_lookup_imap, Hi.
Qed.

Lemma walkers_find_nothing this base :
  (∀ j set_, matchSet this !! j = Some set_ →
             paths (discover this (new_Pattern this j set_)) = []) →
  Forall (λ wk, found wk = [])
         (walkers_of discover this base (alternatives this)).
Proof.
  intros Hnone. apply Forall_lookup. intros j wk. unfold walkers_of.
  rewrite !list_lookup_imap.
  destruct (matchSet this !! j) as [set_|] eqn:Hj; [|done].
  intros [= <-]. unfold found. simpl. by apply Hnone.
Qed.

Lemma length_walkers this base :
  length (walkers_of discover this base (alternatives this))
  = length (matchSet this).
Proof. unfold walkers_of. by rewrite !length_imap. Qed.


(** ** The properties *)

(** C1. [finish] starts the output from the members of result set 0; if
    [nounique] is set, the members of every result set, set 0 again
    included, are appended in the order of the alternatives; the
    sequence is then sorted unless [nosort], which rearranges it and
    neither adds nor drops a path.  With [nounique] unset no path is in
    the output twice. *)
Theorem finish_starts_from_set0 this w r0 rest s0 more :
  store_ok w → holds w (r0 :: rest) (s0 :: more) →
  ∃ out,
    finish localeCompare this (r0 :: rest) w = (Ok out, w)
    ∧ out = (let raw := s0 ++ (if nounique this
                               then concat (s0 :: more) else [])
             in if nosort this then raw else sort localeCompare raw)
    ∧ (nounique this = false → NoDup out)
    ∧ out ≡ₚ s0 ++ (if nounique this then concat (s0 :: more) else []).
Proof.
  intros Hok Hh. eexists. split; [by apply finish_eq|]. split; [done|].
  split.
  - intros ->. simpl. rewrite app_nil_r.
    assert (NoDup s0) as Hs0.
    { apply (holds_NoDup _ _ _ Hok) in Hh.
      by apply Forall_cons_1 in Hh as [? _]. }
    destruct (nosort this); [done|]. by apply Array_sort_NoDup.
  - cbv zeta. destruct (nosort this); [done|]. apply Array_sort_Permutation.
Qed.

(** C2. With [nounique] unset every path of the output is in it
    exactly once: so it is for [doNonull] and [finish] on any result
    sets, whichever paths are in several of them, and so for [process]
    and [processSync], however many alternatives match a path and
    however often a pattern is given. *)
Theorem output_paths_once this w :
  store_ok w → nounique this = false →
  (∀ matches_ ms w1 out w2,
     Forall (live w) matches_ →
     doNonull this matches_ w = (Ok ms, w1) →
     finish localeCompare this ms w1 = (Ok out, w2) →
     NoDup out ∧ ∀ p, p ∈ out → length (filter (p =.) out) = 1)
  ∧ (∀ sched out w',
       Glob_inv this w →
       process localeCompare discover this sched w = (Ok out, w')
       ∨ processSync localeCompare discover this w = (Ok out, w') →
       NoDup out ∧ ∀ p, p ∈ out → length (filter (p =.) out) = 1).
Proof.
  intros Hok Hnu.
  assert (∀ out : list string,
            NoDup out →
            NoDup out ∧ ∀ p, p ∈ out → length (filter (p =.) out) = 1)
    as Honce.
  { intros out Hnd. split; [done|]. intros p Hp. by apply NoDup_filter_once. }
  split.
  - intros matches_ ms w1 out w2 Hlive Hnulls Hfinish. apply Honce.
    apply (conclude_NoDup this matches_ w out w2 Hok Hlive Hnu).
    unfold bind. by rewrite Hnulls.
  - intros sched out w' Hinv Hrun. apply Honce.
    pose proof (returned_no_failure this w sched out w' Hinv Hrun) as Hnone.
    destruct Hrun as [Hrun|Hrun];
      [rewrite process_eq in Hrun by done
      |rewrite processSync_eq in Hrun by done];
      (eapply conclude_NoDup in Hrun;
       [done
       |by apply store_after_walks
       |apply (targets_live_after this w _ Hinv)
       |done]).
Qed.

(** C3, as the code has it.  With [nonull] set, the literal glob string
    of every alternative whose result set is empty when [doNonull] runs
    is added to result set 0 and is in the output of [finish].  The
    result set of an alternative is the set its walk filled: with
    [nounique] set its own, so that the literal of every alternative
    whose traversal matched nothing is in the output; with [nounique]
    unset the one set all the alternatives share, so that the literals
    are in the output when no alternative matched anything. *)
Theorem nonull_literal_in_output this :
  nonull this = true →
  (∀ w matches_ ss i n,
     holds w matches_ ss → length matches_ ≤ length (globSet this) →
     ss !! i = Some [] → globSet this !! i = Some n →
     ∃ w1 r0 s0 out,
       doNonull this matches_ w = (Ok matches_, w1)
       ∧ matches_ !! 0 = Some r0 ∧ sets w1 !! r0 = Some s0 ∧ n ∈ s0
       ∧ finish localeCompare this matches_ w1 = (Ok out, w1)
       ∧ n ∈ out)
  ∧ (∀ w sched out w' i set_ n,
       Glob_inv this w → nounique this = true →
       process localeCompare discover this sched w = (Ok out, w')
       ∨ processSync localeCompare discover this w = (Ok out, w') →
       matchSet this !! i = Some set_ →
       paths (discover this (new_Pattern this i set_)) = [] →
       globSet this !! i = Some n → n ∈ out)
  ∧ (∀ w sched out w' r i n,
       Glob_inv this w → matches this = Some r → sets w !! r = Some [] →
       process localeCompare discover this sched w = (Ok out, w')
       ∨ processSync localeCompare discover this w = (Ok out, w') →
       (∀ j set_, matchSet this !! j = Some set_ →
                  paths (discover this (new_Pattern this j set_)) = []) →
       i < length (matchSet this) → globSet this !! i = Some n → n ∈ out).
Proof.
  intros Hnn.
  assert (∀ w sched out w',
            Glob_inv this w →
            process localeCompare discover this sched w = (Ok out, w')
            ∨ processSync localeCompare discover this w = (Ok out, w') →
            ∃ sched' w'',
              conclude this
                (target <$> walkers_of discover this (length (sets w))
                              (alternatives this))
                (World (apply_ins
                          (trace sched'
                             (walkers_of discover this (length (sets w))
                                (alternatives this)))
                          (sets w ++ fresh_sets this
                                       (length (alternatives this))))
                       (calls w ++ walked this))
              = (Ok out, w'')) as Hrun.
  { intros w sched out w' Hinv Hrun.
    pose proof (returned_no_failure this w sched out w' Hinv Hrun) as Hnone.
    destruct Hrun as [Hrun|Hrun].
    - exists sched, w'. by rewrite <-Hrun, process_eq.
    - exists [], w'. by rewrite <-Hrun, processSync_eq. }
  split_and!.
  - intros w matches_ ss i n Hh Hlen Hi Hn.
    destruct ss as [|s0 more]; [done|].
    destruct matches_ as [|r0 rest]; [by inv Hh|].
    pose proof Hh as [Hr0 Hrest]%Forall2_cons_1.
    destruct (nulls_of_aligned this 0 (s0 :: more)) as [ns Hns].
    { apply Forall2_length in Hrest. simpl in *. lia. }
    assert (n ∈ ns) as Hin by by eapply (nulls_of_elem this 0 _ ns i n).
    pose (w1 := World (<[r0 := adds s0 ns]> (sets w)) (calls w)).
    assert (sets w1 !! r0 = Some (adds s0 ns)) as Hr0'.
    { apply list_lookup_insert_eq. by eapply lookup_lt_Some. }
    destruct (live_holds w1 (r0 :: rest)) as [ss1 Hh1].
    { apply holds_live in Hh. unfold live in *. simpl.
      by rewrite length_insert. }
    destruct ss1 as [|s1 more1]; [by inv Hh1|].
    pose proof Hh1 as [Hs1 _]%Forall2_cons_1.
    assert (s1 = adds s0 ns) as -> by congruence.
    eexists w1, r0, (adds s0 ns), _. split_and!.
    + by apply (doNonull_eq _ _ _ _ _ more).
    + done.
    + done.
    + apply elem_of_adds. by right.
    + exact (finish_eq this r0 rest (adds s0 ns) more1 w1 Hh1).
    + simpl. assert (n ∈ adds s0 ns) by (apply elem_of_adds; by right).
      destruct (nosort this); [|apply elem_of_Array_sort];
        apply elem_of_app; by left.
  - intros w sched out w' i set_ n Hinv Hnu Hret Hi Hnothing Hn.
    destruct (Hrun w sched out w' Hinv Hret) as (sched' & w'' & Hconclude).
    assert (matches this = None) as Hm.
    { unfold Glob_inv in Hinv. destruct (matches this); [|done].
      destruct Hinv. congruence. }
    eapply (conclude_has_literal this _ _ _ out w'' i n Hconclude);
      [apply (own_sets_after_walks this w sched' _ Hm)|done| |done].
    rewrite list_lookup_fmap, (walker_of_alternative this _ i set_ Hi).
    unfold found. simpl. by rewrite Hnothing.
  - intros w sched out w' r i n Hinv Hm Hs Hret Hnothing Hi Hn.
    destruct (Hrun w sched out w' Hinv Hret) as (sched' & w'' & Hconclude).
    set (ws := walkers_of discover this (length (sets w)) (alternatives this))
      in *.
    assert (fresh_sets this (length (alternatives this)) = []) as Hfresh.
    { unfold fresh_sets. by rewrite Hm. }
    rewrite Hfresh, app_nil_r in Hconclude.
    assert (Forall (r =.) (target <$> ws)) as Hrs.
    { apply Forall_fmap. eapply Forall_impl;
        [apply (walkers_targets_shared this _ _ r Hm)|]. by intros wk <-. }
    assert (apply_ins (trace sched' ws) (sets w) !! r = Some []) as Hr1.
    { rewrite lookup_apply_ins, Hs, into_trace_nothing; [done|].
      by apply walkers_find_nothing. }
    destruct (live_holds (World (apply_ins (trace sched' ws) (sets w))
                                (calls w ++ walked this)) (target <$> ws))
      as [ss Hh].
    { eapply Forall_impl; [exact Hrs|]. intros r' <-. unfold live. simpl.
      rewrite length_apply_ins. by eapply lookup_lt_Some. }
    pose proof (holds_same _ _ _ r [] Hrs Hh Hr1) as Hall.
    apply (conclude_has_literal this _ ss _ out w'' i n Hconclude Hh Hnn);
      [|done].
    assert (i < length ss) as Hlt.
    { apply Forall2_length in Hh. rewrite <-Hh, length_fmap. subst ws.
      by rewrite length_walkers. }
    destruct (lookup_lt_is_Some_2 ss i Hlt) as [s Hsi]. rewrite Hsi.
    by rewrite (Forall_lookup_1 _ _ _ _ Hall Hsi).
Qed.

(** C4. Whatever the patterns, asking for [matchBase] with [noglobstar]
    set makes the constructor throw the TypeError "base matching
    requires globstar"; by then no pattern has been compiled and no
    walker made. *)
Theorem matchBase_requires_globstar pattern0 options w :
  truthy (opt_matchBase options) = true →
  truthy (opt_noglobstar options) = true →
  ∃ w',
    new_Glob platform new_Minimatch pattern0 options w
    = (Throw (TypeError "base matching requires globstar"), w')
    ∧ calls w' = calls w.
Proof.
  intros Hmb Hng. unfold new_Glob. unfold bind at 1.
  destruct (truthy (opt_nounique options)); simpl;
    unfold bind at 1; rewrite Hmb, Hng; by eexists.
Qed.


(** C7. After construction [matchSet], [globSet] and [globParts] are
    the arrays of the compiled patterns laid end to end, in the order
    of the patterns and of the alternatives of each; as the compiler
    gives every pattern three arrays of one length, the three views have
    one length and entry [i] of each is the same alternative [k] of the
    same pattern [j]. *)
Theorem views_aligned pattern0 options w this w' :
  (∀ p m, new_Minimatch p (mmo_of options) = Ok m → aligned m) →
  new_Glob platform new_Minimatch pattern0 options w = (Ok this, w') →
  ∃ mms,
    Forall2 (λ p m, new_Minimatch p (mmo_of options) = Ok m)
            (pattern this) mms
    ∧ matchSet this = concat (mm_set <$> mms)
    ∧ globSet this = concat (mm_globSet <$> mms)
    ∧ globParts this = concat (mm_globParts <$> mms)
    ∧ length (matchSet this) = length (globParts this)
    ∧ length (globSet this) = length (globParts this)
    ∧ ∀ i, i < length (matchSet this) →
        ∃ j k m,
          mms !! j = Some m ∧ k < length (mm_set m)
          ∧ matchSet this !! i = mm_set m !! k
          ∧ globSet this !! i = mm_globSet m !! k
          ∧ globParts this !! i = mm_globParts m !! k.
Proof.
  intros Hcompiler (mms & Hall & Hms & Hgs & Hgp & _)%new_Glob_inv.
  assert (Forall aligned mms) as Hal.
  { apply Forall_forall. intros m Hm.
    apply list_elem_of_lookup in Hm as [j Hj].
    destruct (Forall2_lookup_r _ _ _ _ _ Hall Hj) as (p & _ & Hp).
    by eapply Hcompiler. }
  exists mms. rewrite Hms, Hgs, Hgp.
  destruct (concat_aligned_length mms Hal) as [? ?].
  split_and!; [done..|]. intros i Hi. by apply concat_aligned.
Qed.

(** C8. On a host whose [process.platform] is 'win32' the constructor
    replaces the backslashes of [cwd] by forward slashes, and, when
    [windowsPathsNoEscape] is set, which it is exactly when the option
    of that name is true or the option [allowWindowsEscape] is [false],
    those of every input pattern; otherwise the patterns keep theirs. *)
Theorem separators_normalized pattern0 options w this w' :
  platform = "win32" →
  new_Glob platform new_Minimatch pattern0 options w = (Ok this, w') →
  (∀ c, opt_cwd options = Some c → cwd this = replace_backslashes c)
  ∧ (opt_cwd options = None → cwd this = "")
  ∧ no_backslash (cwd this)
  ∧ (windowsPathsNoEscape this = true
     ↔ opt_windowsPathsNoEscape options = Some true
       ∨ opt_allowWindowsEscape options = Some false)
  ∧ (opt_windowsPathsNoEscape options = Some true
     ∨ opt_allowWindowsEscape options = Some false →
       pattern this
       = (λ p, if matchBase this
               then base_pattern (replace_backslashes p)
               else replace_backslashes p) <$> as_array pattern0
       ∧ Forall no_backslash (pattern this))
  ∧ (windowsPathsNoEscape this = false →
       pattern this
       = (λ p, if matchBase this then base_pattern p else p)
           <$> as_array pattern0).
Proof.
  intros Hwin (mms & _ & _ & _ & _ & Hps & Hcwd & Hwp & _)%new_Glob_inv.
  rewrite Hwin in Hcwd. simpl in Hcwd.
  pose proof (no_escape_iff (opt_windowsPathsNoEscape options)
                (opt_allowWindowsEscape options)) as Hiff.
  rewrite <-Hwp in Hiff. split_and!.
  - intros c Hc. by rewrite Hcwd, Hc.
  - intros Hc. by rewrite Hcwd, Hc.
  - rewrite Hcwd. apply no_backslash_replace.
  - done.
  - intros Hset%Hiff. rewrite Hset in Hps. simpl in Hps. rewrite Hps.
    destruct (matchBase this).
    + split; [by rewrite <-list_fmap_compose|].
      apply Forall_fmap, Forall_fmap, Forall_forall. intros p _. simpl.
      apply no_backslash_base_pattern, no_backslash_replace.
    + split; [done|].
      apply Forall_fmap, Forall_forall. intros p _.
      apply no_backslash_replace.
  - intros Hunset. rewrite Hunset in Hps. simpl in Hps. rewrite Hps.
    destruct (matchBase this); [done|]. by rewrite list_fmap_id.
Qed.

(** The patterns are rewritten on every platform, and [cwd] on no other
    than 'win32'. *)
Lemma patterns_normalized_everywhere pattern0 options w this w' :
  new_Glob platform new_Minimatch pattern0 options w = (Ok this, w') →
  windowsPathsNoEscape this = true →
  Forall no_backslash (pattern this).
Proof.
  intros (mms & _ & _ & _ & _ & Hps & _)%new_Glob_inv Hset.
  rewrite Hset in Hps. simpl in Hps. rewrite Hps.
  destruct (matchBase this).
  - apply Forall_fmap, Forall_fmap, Forall_forall. intros p _. simpl.
    apply no_backslash_base_pattern, no_backslash_replace.
  - apply Forall_fmap, Forall_forall. intros p _. apply no_backslash_replace.
Qed.

Lemma cwd_kept_elsewhere pattern0 options w this w' :
  platform ≠ "win32" →
  new_Glob platform new_Minimatch pattern0 options w = (Ok this, w') →
  cwd this = or_empty (opt_cwd options).
Proof.
  intros Hp (mms & _ & _ & _ & _ & _ & Hcwd & _)%new_Glob_inv.
  apply String.eqb_neq in Hp. by rewrite Hp in Hcwd.
Qed.


(** C10. Without a compiled alternative, as for an empty list of
    patterns, [process] and [processSync] throw: [finish] spreads result
    set 0, which does not exist.  With one alternative or more they do
    not throw that error: as the views are aligned they return an
    output, unless a traversal fails at its root, whose error they
    throw. *)
Theorem process_needs_an_alternative this w sched :
  (∀ options w0 g w1,
     new_Glob platform new_Minimatch (inr []) options w0 = (Ok g, w1) →
     matchSet g = [])
  ∧ (matchSet this = [] →
     (process localeCompare discover this sched w).1 = Throw NotIterable
     ∧ (processSync localeCompare discover this w).1 = Throw NotIterable)
  ∧ (matchSet this ≠ [] → Glob_inv this w →
     (process localeCompare discover this sched w).1 ≠ Throw NotIterable
     ∧ (processSync localeCompare discover this w).1 ≠ Throw NotIterable
     ∧ (length (matchSet this) ≤ length (globSet this) →
        (root_failures discover this = []
         ∧ ∃ out1 out2,
             (process localeCompare discover this sched w).1 = Ok out1
             ∧ (processSync localeCompare discover this w).1 = Ok out2)
        ∨ (∃ m1 m2,
             m1 ∈ root_failures discover this
             ∧ m2 ∈ root_failures discover this
             ∧ (process localeCompare discover this sched w).1
               = Throw (Foreign m1)
             ∧ (processSync localeCompare discover this w).1
               = Throw (Foreign m2)))).
Proof.
  split_and!.
  - intros options w0 g w1 (mms & Hall & -> & _ & _ & Hps & _)%new_Glob_inv.
    simpl in Hps. assert (pattern g = []) as Hnil.
    { rewrite Hps. by destruct (windowsPathsNoEscape g), (matchBase g). }
    rewrite Hnil in Hall. by apply Forall2_nil_inv_l in Hall as ->.
  - intros Hnil. unfold process, processSync. rewrite Hnil. simpl.
    unfold bind at 1. unfold ret at 1. unfold bind at 1.
    unfold Promise_all. unfold bind at 1. by rewrite run_schedule_nil.
  - intros Hne Hinv.
    destruct (root_failures discover this) as [|m rest] eqn:Hfail.
    2:{ destruct (failing_runs this w sched m rest Hinv Hfail)
          as (Hsync & m' & Hm' & Hasync).
        rewrite Hsync, Hasync. split_and!; [done..|]. intros _. right.
        exists m', m. split_and!; [done|by left|done..]. }
    rewrite process_eq, processSync_eq by done.
    set (ws := walkers_of discover this (length (sets w)) (alternatives this)).
    assert (∃ r0 rest, target <$> ws = r0 :: rest) as (r0 & rest & Hrs).
    { destruct ws as [|wk ws'] eqn:Hws; [|by eexists _, _].
      apply walkers_of_nil in Hws. apply (f_equal length) in Hws.
      rewrite length_imap in Hws. by destruct (matchSet this). }
    assert (length (r0 :: rest) = length (matchSet this)) as Hlen.
    { rewrite <-Hrs, length_fmap. subst ws. unfold walkers_of.
      by rewrite !length_imap. }
    pose proof (targets_live_after this w (trace sched ws) Hinv) as Hl1.
    pose proof (targets_live_after this w (drain ws) Hinv) as Hl2.
    cbv zeta in Hl1, Hl2. fold ws in Hl1, Hl2. rewrite Hrs in *.
    destruct (conclude_outcome this r0 rest _ Hl1) as [(o1 & w1 & E1)|[E1 N1]];
      destruct (conclude_outcome this r0 rest _ Hl2) as [(o2 & w2 & E2)|[E2 N2]];
      rewrite E1, E2; simpl; (split_and!; [done..|]); intros Hal;
      try (left; split; [done|]; by eexists _, _); lia.
Qed.

(** ** Further properties of the methods *)

(** *** Strings and sets *)

Lemma replace_backslashes_id (s : string) :
  no_backslash s → replace_backslashes s = s.
Proof.
  unfold no_backslash. induction s as [|c s IH]; [done|]. simpl.
  intros [Hc Hs]%orb_false_elim. by rewrite Hc, IH.
Qed.

Lemma includes_base_pattern (p : string) :
  includes slash (base_pattern p) = true.
Proof. unfold base_pattern. by destruct (includes slash p) eqn:Hp. Qed.

Lemma base_pattern_idempotent (p : string) :
  base_pattern (base_pattern p) = base_pattern p.
Proof. unfold base_pattern at 1. by rewrite includes_base_pattern. Qed.

Lemma world_eta w : World (sets w) (calls w) = w.
Proof. by destruct w. Qed.

Lemma adds_prefix s xs : s `prefix_of` adds s xs.
Proof.
  revert s. induction xs as [|x xs IH]; intros s; [done|].
  rewrite adds_cons. etrans; [|apply IH].
  unfold members_add. case_decide; [done|]. by apply prefix_app_r.
Qed.

Lemma adds_absorbed s xs : Forall (.∈ s) xs → adds s xs = s.
Proof.
  induction 1 as [|x xs Hx _ IH]; [done|].
  by rewrite adds_cons, members_add_known.
Qed.

Lemma occurrences_NoDup (p : string) s :
  NoDup s → occurrences p s = if decide (p ∈ s) then 1 else 0.
Proof.
  intros Hs. unfold occurrences. case_decide as Hp.
  - by apply NoDup_filter_once.
  - by rewrite filter_absent.
Qed.

Lemma occurrences_app (p : string) l1 l2 :
  occurrences p (l1 ++ l2) = occurrences p l1 + occurrences p l2.
Proof. unfold occurrences. by rewrite filter_app, length_app. Qed.

Lemma occurrences_concat (p : string) ss :
  Forall NoDup ss →
  occurrences p (concat ss) = length (filter (λ s, p ∈ s) ss).
Proof.
  induction 1 as [|s ss Hs _ IH]; [done|].
  csimpl. rewrite occurrences_app, IH, occurrences_NoDup by done.
  rewrite filter_cons. by case_decide.
Qed.

Lemma occurrences_Permutation (p : string) l1 l2 :
  l1 ≡ₚ l2 → occurrences p l1 = occurrences p l2.
Proof. intros Hl. unfold occurrences. by rewrite Hl. Qed.

(** *** [sort] *)

Lemma Array_sort_sorted_id {A} (cmp : A → A → Z) (l : list A) :
  Sorted (cmp_le cmp) l → Array_sort cmp l = l.
Proof.
  induction 1 as [|x l Hs IH Hhd]; [done|].
  change (Array_sort cmp (x :: l))
    with (sorted_insert cmp x (Array_sort cmp l)).
  rewrite IH. destruct Hhd as [|y l' Hxy]; [done|]. simpl.
  unfold cmp_le in Hxy. by rewrite decide_True.
Qed.

(** X1. [sort] rearranges: the array it returns has the strings of its
    argument, each as often.  Under a consistent comparator it returns
    its argument unchanged exactly when that is in order already, and
    sorting a second time changes nothing. *)
Theorem sort_idempotent (l : list string) :
  sort localeCompare l ≡ₚ l
  ∧ (consistent (compare_en localeCompare) →
     (sort localeCompare l = l
      ↔ Sorted (cmp_le (compare_en localeCompare)) l)
     ∧ sort localeCompare (sort localeCompare l) = sort localeCompare l).
Proof.
  unfold sort. split; [apply Array_sort_Permutation|].
  intros Hcmp. split.
  - split.
    + intros <-. by apply Array_sort_Sorted.
    + apply Array_sort_sorted_id.
  - apply Array_sort_sorted_id. by apply Array_sort_Sorted.
Qed.

(** *** [finish] on any array of references *)

Lemma map_js_Set_members_reads w rs :
  ∃ o, map_js Set_members rs w = (o, w) ∧ ∀ e, o ≠ Throw e.
Proof.
  induction rs as [|r rs (o & Ho & Hne)]; [by exists (Ok [])|].
  simpl. unfold bind at 1. unfold Set_members at 1.
  destruct (sets w !! r) as [s|]; [|by exists Stuck].
  unfold bind. rewrite Ho. destruct o as [ss|e|]; [by eexists| |by eexists].
  by destruct (Hne e).
Qed.

(** X2. [finish] reads: whatever array of result sets it is given and
    however it ends, it leaves every set and the log of calls as they
    were.  It throws exactly when the array is empty, and then the
    TypeError of spreading [undefined]. *)
Theorem finish_reads_only this rs w :
  ∃ o,
    finish localeCompare this rs w = (o, w)
    ∧ (rs = [] → o = Throw NotIterable)
    ∧ (∀ e, o = Throw e → e = NotIterable ∧ rs = []).
Proof.
  destruct rs as [|r0 rest].
  { exists (Throw NotIterable). split_and!; [done..|]. by intros e [= <-]. }
  unfold finish, bind. change ((r0 :: rest) !! 0) with (Some r0).
  cbv beta iota. unfold Set_members at 1.
  destruct (sets w !! r0) as [s0|]; [|by exists Stuck].
  destruct (nounique this); [|by eexists].
  destruct (map_js_Set_members_reads w (r0 :: rest)) as (o & -> & Hne).
  destruct o as [ss|e|]; [by eexists| |by exists Stuck].
  by destruct (Hne e).
Qed.

(** X3. With [nounique] set the output of [finish] has the members of
    result set 0 and then those of every result set, set 0 again among
    them: a path is in the output twice for being in set 0 and once more
    for each further slot whose set has it. *)
Theorem nounique_counts_set0_twice this r0 rest s0 more w (p : string) :
  store_ok w → holds w (r0 :: rest) (s0 :: more) → nounique this = true →
  ∃ out,
    finish localeCompare this (r0 :: rest) w = (Ok out, w)
    ∧ length out = 2 * length s0 + length (concat more)
    ∧ occurrences p out
      = (if decide (p ∈ s0) then 2 else 0)
        + length (filter (λ s, p ∈ s) more).
Proof.
  intros Hok Hh Hnu. eexists. split; [by apply finish_eq|].
  rewrite Hnu. cbv zeta.
  pose proof (holds_NoDup _ _ _ Hok Hh) as [Hs0 Hmore]%Forall_cons_1.
  set (raw := s0 ++ concat (s0 :: more)).
  assert (length raw = 2 * length s0 + length (concat more)) as Hlen.
  { subst raw. csimpl. rewrite !length_app. lia. }
  assert (occurrences p raw
          = (if decide (p ∈ s0) then 2 else 0)
            + length (filter (λ s, p ∈ s) more)) as Hocc.
  { subst raw. csimpl.
    rewrite !occurrences_app, occurrences_concat, occurrences_NoDup by done.
    case_decide; lia. }
  destruct (nosort this); [done|]. unfold sort. split.
  - by rewrite Array_sort_Permutation.
  - by rewrite (occurrences_Permutation p _ raw (Array_sort_Permutation _ raw)).
Qed.

(** *** [doNonull] on any array of references *)

Lemma nulls_from_reads this i rs w :
  ∃ o,
    nulls_from this i rs w = (o, w)
    ∧ (∀ e, o ≠ Throw e)
    ∧ (∀ ns, o = Ok ns → Forall (live w) rs).
Proof.
  revert i. induction rs as [|r rs IH]; intros i.
  { exists (Ok []). split_and!; [done..|]. by constructor. }
  simpl. unfold bind at 1. unfold Set_members at 1.
  destruct (sets w !! r) as [s|] eqn:Hr; [|by exists Stuck].
  assert (live w r) as Hlive by by eapply lookup_lt_Some.
  destruct (IH (S i)) as (o & Ho & Hne & Hok).
  unfold bind at 1.
  destruct ((length s =? 0) && nonull this);
    [destruct (globSet this !! i); [|by exists Stuck]|];
    unfold ret at 1; unfold bind; rewrite Ho;
    (destruct o as [more|e|]; [|by destruct (Hne e)|by exists Stuck]);
    (eexists; split_and!; [done..|]); intros ns _; constructor; eauto.
Qed.

Lemma doNonull_nil this w : doNonull this [] w = (Ok [], w).
Proof. done. Qed.

(** X4. [doNonull] returns the array it was given and only ever adds to
    result set 0: no set is made or lost, the members a set had stay,
    in their order, at its front, every set other than set 0 is as it
    was, and no collaborator is called.  It does not throw. *)
Theorem doNonull_only_adds_to_set0 this rs w :
  ∃ o w',
    doNonull this rs w = (o, w')
    ∧ (∀ e, o ≠ Throw e)
    ∧ (∀ ms, o = Ok ms → ms = rs)
    ∧ calls w' = calls w
    ∧ length (sets w') = length (sets w)
    ∧ ∀ r s, sets w !! r = Some s →
        ∃ s', sets w' !! r = Some s' ∧ s `prefix_of` s'
              ∧ (rs !! 0 ≠ Some r → s' = s).
Proof.
  assert (∀ r s, sets w !! r = Some s →
            ∃ s', sets w !! r = Some s' ∧ s `prefix_of` s'
                  ∧ (rs !! 0 ≠ Some r → s' = s)) as Hsame.
  { intros r s Hr. by exists s. }
  destruct (nulls_from_reads this 0 rs w) as (o & Ho & Hne & Hok).
  destruct o as [ns|e|].
  - destruct (live_holds w rs (Hok ns eq_refl)) as [ss Hh].
    destruct Hh as [|r0 s0 rest more Hr0 Hrest].
    { exists (Ok []), w. split_and!; try done. by intros ms [= <-]. }
    assert (holds w (r0 :: rest) (s0 :: more)) as Hh by by constructor.
    rewrite (nulls_from_eq _ _ _ _ _ Hh) in Ho.
    destruct (nulls_of this 0 (s0 :: more)) as [ns'|] eqn:Hns; [|done].
    injection Ho as ->.
    eexists _, _. split; [exact (doNonull_eq _ _ _ _ _ _ _ Hh Hns)|].
    split_and!; try done.
    + by intros ms [= <-].
    + simpl. by rewrite length_insert.
    + intros r s Hr. simpl. destruct (decide (r = r0)) as [->|Hne0].
      * exists (adds s0 ns). split_and!.
        -- apply list_lookup_insert_eq. by eapply lookup_lt_Some.
        -- assert (s = s0) as -> by congruence. apply adds_prefix.
        -- by intros [].
      * exists s. split_and!; [|done..].
        by rewrite list_lookup_insert_ne.
  - by destruct (Hne e).
  - exists Stuck, w. unfold doNonull, bind. rewrite Ho.
    split_and!; done.
Qed.

(** X5. With [nonull] unset, and where no result set is empty,
    [doNonull] changes nothing. *)
Theorem doNonull_nothing_to_add this rs ss w :
  holds w rs ss →
  nonull this = false ∨ Forall (λ s, s ≠ []) ss →
  doNonull this rs w = (Ok rs, w).
Proof.
  intros Hh Hcase. pose proof (nulls_of_none this 0 ss Hcase) as Hns.
  destruct Hh as [|r0 s0 rest more Hr0 Hrest]; [done|].
  assert (holds w (r0 :: rest) (s0 :: more)) as Hh by by constructor.
  rewrite (doNonull_eq _ _ _ _ _ _ _ Hh Hns). simpl.
  by rewrite list_insert_id, world_eta.
Qed.

(** Sets that have grown give no new nulls. *)
Lemma nulls_of_grown this i ss ss' ns :
  Forall2 (λ s s', s' = [] → s = []) ss ss' →
  nulls_of this i ss = Some ns →
  ∃ ns', nulls_of this i ss' = Some ns' ∧ ∀ n, n ∈ ns' → n ∈ ns.
Proof.
  intros Hg. revert i ns.
  induction Hg as [|s s' ss ss' Hs _ IH]; intros i ns Hns.
  { exists []. split; [done|]. by intros n ?%elem_of_nil. }
  simpl in Hns.
  destruct (if (length s =? 0) && nonull this
            then (λ n, [n]) <$> globSet this !! i else Some [])
    as [here|] eqn:Hhere; [|done].
  destruct (nulls_of this (S i) ss) as [more|] eqn:Hmore; [|done].
  simpl in Hns. injection Hns as <-.
  destruct (IH (S i) more Hmore) as (more' & Hmore' & Hsub).
  simpl. rewrite Hmore'.
  destruct ((length s' =? 0) && nonull this) eqn:Hc.
  - apply andb_true_iff in Hc as [Hnil%Nat.eqb_eq Hnn].
    assert (s = []) as -> by (apply Hs; by destruct s').
    simpl in Hhere. rewrite Hnn in Hhere. rewrite Hhere. simpl.
    eexists. split; [done|]. intros n [Hn|Hn]%elem_of_app.
    + apply elem_of_app. by left.
    + apply elem_of_app. right. by apply Hsub.
  - simpl. eexists. split; [done|]. intros n Hn.
    apply elem_of_app. right. by apply Hsub.
Qed.

Lemma holds_grown w r0 s0 s1 rs ss ss' (c : list (call (@Pattern RegExp))) :
  sets w !! r0 = Some s0 → (s1 = [] → s0 = []) →
  holds w rs ss → holds (World (<[r0 := s1]> (sets w)) c) rs ss' →
  Forall2 (λ s s', s' = [] → s = []) ss ss'.
Proof.
  intros Hr0 Hs1 Hh. revert ss'.
  induction Hh as [|r s rs ss Hr _ IH]; intros ss' Hh'; inv Hh'; [done|].
  constructor; [|by apply IH].
  match goal with H : sets _ !! r = Some _ |- _ => simpl in H; rename H into Hr' end.
  destruct (decide (r = r0)) as [->|Hne].
  - rewrite list_lookup_insert_eq in Hr' by by eapply lookup_lt_Some.
    injection Hr' as <-. intros Hnil. rewrite Hs1 in Hr0 by done. congruence.
  - rewrite list_lookup_insert_ne in Hr' by done. intros Hnil. congruence.
Qed.

(** X6. [doNonull] run again on the array it returned changes nothing:
    the literals it would add are in result set 0 by then. *)
Theorem doNonull_twice this rs w ms w' :
  doNonull this rs w = (Ok ms, w') →
  doNonull this ms w' = (Ok ms, w').
Proof.
  intros Hrun.
  destruct (nulls_from_reads this 0 rs w) as (o & Ho & Hne & Hok).
  destruct o as [ns|e|]; [|by destruct (Hne e)|];
    [|unfold doNonull, bind in Hrun; by rewrite Ho in Hrun].
  destruct (live_holds w rs (Hok ns eq_refl)) as [ss Hh].
  destruct Hh as [|r0 s0 rest more Hr0 Hrest].
  { by injection Hrun as <- <-. }
  assert (holds w (r0 :: rest) (s0 :: more)) as Hh by by constructor.
  rewrite (nulls_from_eq _ _ _ _ _ Hh) in Ho.
  destruct (nulls_of this 0 (s0 :: more)) as [ns'|] eqn:Hns; [|done].
  injection Ho as ->.
  rewrite (doNonull_eq _ _ _ _ _ _ _ Hh Hns) in Hrun.
  injection Hrun as <- <-.
  destruct (holds_after_insert w r0 rest s0 more (adds s0 ns) (calls w) Hh)
    as [more' Hh'].
  destruct (nulls_of_grown this 0 (s0 :: more) (adds s0 ns :: more') ns)
    as (ns2 & Hns2 & Hsub); [|done|].
  { eapply (holds_grown w r0 s0 (adds s0 ns)); [done| |done..].
    by intros [? _]%adds_nil_inv. }
  rewrite (doNonull_eq _ _ _ _ _ _ _ Hh' Hns2). simpl.
  rewrite adds_absorbed.
  - rewrite list_insert_insert_eq. done.
  - apply Forall_forall. intros n Hn. apply elem_of_adds. right. by apply Hsub.
Qed.

(** With [nonull] set, the nulls of as many empty sets are the first
    literal glob strings. *)
Lemma nulls_of_all_empty this i n :
  nonull this = true → i + n ≤ length (globSet this) →
  nulls_of this i (replicate n []) = Some (take n (drop i (globSet this))).
Proof.
  intros Hnn. revert i. induction n as [|n IH]; intros i Hlen; [done|].
  destruct (lookup_lt_is_Some_2 (globSet this) i) as [x Hx]; [lia|].
  simpl. rewrite Hnn, Hx, IH by lia. simpl.
  by rewrite (drop_S _ _ _ Hx).
Qed.

(** X7. Where no alternative matched anything and [nonull] is set, the
    output of [doNonull] and [finish] is, with [nounique] unset, the
    literal glob strings of the alternatives: each once, in the order of
    the alternatives unless sorted. *)
Theorem nothing_matched_gives_patterns this r0 rest w :
  holds w (r0 :: rest) (replicate (S (length rest)) []) →
  nonull this = true → nounique this = false →
  S (length rest) ≤ length (globSet this) →
  let literals := adds [] (take (S (length rest)) (globSet this)) in
  ∃ w',
    conclude this (r0 :: rest) w
    = (Ok (if nosort this then literals else sort localeCompare literals), w')
    ∧ NoDup literals
    ∧ ∀ p, p ∈ literals ↔ p ∈ take (S (length rest)) (globSet this).
Proof.
  intros Hh Hnn Hnu Hlen literals.
  pose proof (nulls_of_all_empty this 0 (S (length rest)) Hnn Hlen) as Hns.
  rewrite drop_0 in Hns.
  destruct (holds_after_insert w r0 rest [] (replicate (length rest) [])
              literals (calls w) Hh) as [more' Hh'].
  eexists. split_and!.
  - rewrite (conclude_ok this r0 rest [] (replicate (length rest) []) _ more' w
               Hh Hns Hh').
    rewrite Hnu. cbv zeta. by rewrite app_nil_r.
  - apply NoDup_adds. constructor.
  - intros p. subst literals. rewrite elem_of_adds. split; [|by right].
    intros [Hp|Hp]; [by apply elem_of_nil in Hp|done].
Qed.

(** *** The constructor, from its arguments *)

Lemma map_js_compile_throw mmo pre p post e w :
  Forall (λ q, ∃ m, new_Minimatch q mmo = Ok m) pre →
  new_Minimatch p mmo = Throw e →
  map_js (compile new_Minimatch mmo) (pre ++ p :: post) w
  = (Throw e, World (sets w) (calls w ++ (Compiled <$> pre ++ [p]))).
Proof.
  intros Hpre Hp. revert w. induction Hpre as [|q pre [m Hm] _ IH]; intros w.
  - simpl. unfold bind at 1. unfold compile at 1, bind, record_call.
    by rewrite Hp.
  - simpl. unfold bind at 1. unfold compile at 1, bind, record_call.
    rewrite Hm. unfold bind. rewrite IH. simpl. by rewrite <-app_assoc.
Qed.

Lemma new_Glob_cfg pattern0 options w this w' :
  new_Glob platform new_Minimatch pattern0 options w = (Ok this, w') →
  truthy (opt_matchBase options) && truthy (opt_noglobstar options) = false
  ∧ noglobstar this = truthy (opt_noglobstar options)
  ∧ pattern this = prepared options pattern0.
Proof.
  unfold new_Glob, prepared. unfold bind at 1.
  destruct ((if truthy (opt_nounique options) then ret None
             else bind new_Set (λ r, ret (Some r))) w) as [[mr| |] w0];
    [|done..].
  unfold bind at 1.
  destruct (truthy (opt_matchBase options)) eqn:Hmb;
    [destruct (truthy (opt_noglobstar options)) eqn:Hng; [done|]|];
    unfold ret at 1; unfold bind at 1;
    (destruct (map_js _ _ _) as [[mms| |] w1] eqn:Hmms; [|done..]);
    rewrite (fold_left_push_sets mms [] [] []); simpl;
    intros [= <- <-]; simpl; rewrite ?Hng; done.
Qed.

Lemma new_Glob_returns_on pattern0 options w :
  truthy (opt_matchBase options) && truthy (opt_noglobstar options) = false →
  Forall (λ p, ∃ m, new_Minimatch p (mmo_of options) = Ok m)
         (prepared options pattern0) →
  ∃ this w', new_Glob platform new_Minimatch pattern0 options w = (Ok this, w').
Proof.
  intros Hcfg. unfold new_Glob, prepared. unfold bind at 1.
  destruct ((if truthy (opt_nounique options) then ret None
             else bind new_Set (λ r, ret (Some r))) w) as [o w0] eqn:Hw0.
  assert (∃ mr, o = Ok mr) as [mr ->].
  { destruct (truthy (opt_nounique options)); inv Hw0; by eexists. }
  unfold bind at 1.
  destruct (truthy (opt_matchBase options));
    [destruct (truthy (opt_noglobstar options)); [done|]|];
    intros Hps; unfold ret at 1; unfold bind at 1;
    (edestruct map_js_compile_ok as (mms & w1 & ->); [exact Hps|]);
    rewrite (fold_left_push_sets mms [] [] []); by eexists _, _.
Qed.

Lemma compiled_once (f : string → outcome (@Minimatch RegExp)) ps mms1 mms2 :
  Forall2 (λ p m, f p = Ok m) ps mms1 →
  Forall2 (λ p m, f p = Ok m) ps mms2 → mms1 = mms2.
Proof.
  intros H1. revert mms2.
  induction H1 as [|p m ps mms1 Hm _ IH]; intros mms2 H2; inv H2; [done|].
  f_equal; [congruence|]. by apply IH.
Qed.

Lemma prepared_idempotent (options : @GlobOptions GlobCache OtherOptions)
    pattern0 :
  prepared options (inr (prepared options pattern0))
  = prepared options pattern0.
Proof.
  unfold prepared. simpl.
  destruct (truthy (opt_windowsPathsNoEscape options)
            || is_false (opt_allowWindowsEscape options));
    destruct (truthy (opt_matchBase options)); [| | |done].
  - rewrite !List.map_map. apply List.map_ext. intros p.
    rewrite (replace_backslashes_id (base_pattern (replace_backslashes p))).
    + apply base_pattern_idempotent.
    + apply no_backslash_base_pattern, no_backslash_replace.
  - rewrite !List.map_map. apply List.map_ext. intros p.
    apply replace_backslashes_id, no_backslash_replace.
  - rewrite !List.map_map. apply List.map_ext. intros p.
    apply base_pattern_idempotent.
Qed.

(** X8. Under [matchBase] every pattern of a constructed [Glob] has a
    slash: a pattern that had one is kept (after the backslashes are
    replaced under [windowsPathsNoEscape]), a bare one is prefixed with
    the globstar segment; and no constructed [Glob] has [matchBase] and
    [noglobstar] both. *)
Theorem matchBase_patterns_have_slash pattern0 options w this w' :
  new_Glob platform new_Minimatch pattern0 options w = (Ok this, w') →
  (matchBase this && noglobstar this = false)
  ∧ (matchBase this = true →
     Forall (λ p, includes slash p = true) (pattern this)
     ∧ Forall2 (λ p0 p,
                  let q := if windowsPathsNoEscape this
                           then replace_backslashes p0 else p0 in
                  p = if includes slash q then q else "**/" +:+ q)
               (as_array pattern0) (pattern this)).
Proof.
  intros Hnew. pose proof (new_Glob_cfg _ _ _ _ _ Hnew) as (Hcfg & Hng & _).
  apply new_Glob_inv in Hnew
    as (mms & _ & _ & _ & _ & Hps & _ & _ & Hmb & _).
  split; [by rewrite Hmb, Hng|]. intros Hset.
  rewrite Hset in Hps. cbv zeta in Hps. rewrite Hps. split.
  - apply Forall_fmap, Forall_forall. intros p _. apply includes_base_pattern.
  - apply Forall2_fmap_r.
    destruct (windowsPathsNoEscape this);
      [apply Forall2_fmap_r|]; apply Forall_Forall2_diag, Forall_forall;
      by intros p _.
Qed.

Lemma bind_ext {A B} (m : M (@Pattern RegExp) A)
    (k1 k2 : A → M (@Pattern RegExp) B) w :
  (∀ a w', k1 a w' = k2 a w') → bind m k1 w = bind m k2 w.
Proof.
  intros Hk. unfold bind. destruct (m w) as [[a|e|] w']; [apply Hk|done..].
Qed.

(** X9. The compiler is only ever asked with [nonegate], [nocomment]
    and [preserveMultipleSlashes] set: what the caller passes for the
    three, and what a compiler would do without them, makes no
    difference to how the constructor ends, to the [Glob], the store or
    the calls. *)
Theorem compiler_policy_overrides_caller pattern0 options w
    (nonegate nocomment preserveMultipleSlashes : option bool)
    (other_Minimatch :
       string → @GlobOptions GlobCache OtherOptions
       → outcome (@Minimatch RegExp)) :
  (∀ p mmo,
     opt_nonegate mmo = Some true → opt_nocomment mmo = Some true →
     opt_preserveMultipleSlashes mmo = Some true →
     other_Minimatch p mmo = new_Minimatch p mmo) →
  new_Glob platform other_Minimatch pattern0
    (with_policy nonegate nocomment preserveMultipleSlashes options) w
  = new_Glob platform new_Minimatch pattern0 options w.
Proof.
  intros Hsame.
  assert (∀ ps w0,
            map_js (compile other_Minimatch (mmo_of options)) ps w0
            = map_js (compile new_Minimatch (mmo_of options)) ps w0) as Hmap.
  { induction ps as [|q ps IH]; intros w0; [done|].
    simpl. unfold bind at 1 3. unfold compile at 1 3, bind, record_call.
    rewrite (Hsame q (mmo_of options)) by done.
    destruct (new_Minimatch q (mmo_of options)) as [m| |]; [|done..].
    unfold bind. by rewrite IH. }
  unfold new_Glob.
  apply bind_ext. intros matches_ w0. apply bind_ext. intros pattern3 w1.
  change (mmo_of (with_policy nonegate nocomment preserveMultipleSlashes
                    options)) with (mmo_of options).
  unfold bind. by rewrite Hmap.
Qed.

(** X10. A pattern the compiler throws on ends the constructor in that
    exception: the patterns before it were compiled, in order, those
    after it are not, and the shared set, made before, stays in the
    store. *)
Theorem compile_failure_ends_constructor pattern0 options w pre p post e :
  truthy (opt_matchBase options) && truthy (opt_noglobstar options) = false →
  prepared options pattern0 = pre ++ p :: post →
  Forall (λ q, ∃ m, new_Minimatch q (mmo_of options) = Ok m) pre →
  new_Minimatch p (mmo_of options) = Throw e →
  ∃ w',
    new_Glob platform new_Minimatch pattern0 options w = (Throw e, w')
    ∧ calls w' = calls w ++ (Compiled <$> pre ++ [p])
    ∧ sets w'
      = (if truthy (opt_nounique options) then sets w else sets w ++ [[]]).
Proof.
  intros Hcfg Hps Hpre Hp.
  exists (World (if truthy (opt_nounique options)
                 then sets w else sets w ++ [[]])
                (calls w ++ (Compiled <$> pre ++ [p]))).
  split; [|done]. revert Hps. unfold new_Glob, prepared. unfold bind at 1.
  destruct ((if truthy (opt_nounique options) then ret None
             else bind new_Set (λ r, ret (Some r))) w) as [o w0] eqn:Hw0.
  assert (∃ mr, o = Ok mr
                ∧ w0 = World (if truthy (opt_nounique options)
                              then sets w else sets w ++ [[]]) (calls w))
    as (mr & -> & ->).
  { destruct (truthy (opt_nounique options)); inv Hw0; eexists;
      (split; [done|]); by rewrite ?world_eta. }
  unfold bind at 1.
  destruct (truthy (opt_matchBase options));
    [destruct (truthy (opt_noglobstar options)); [done|]|];
    intros Hps; unfold ret at 1; unfold bind at 1;
    cbv zeta in Hps; rewrite Hps;
    by rewrite (map_js_compile_throw _ _ _ _ _ _ Hpre Hp).
Qed.

(** X11. Unless [matchBase] meets [noglobstar], and as the compiler
    accepts the patterns, the constructor returns a [Glob] of exactly
    the prepared patterns.  The sets of the store are left as they were;
    with [nounique] unset one set is added, empty, which is the shared
    set of the [Glob] and no set that was there before. *)
Theorem constructor_returns pattern0 options w :
  store_ok w →
  truthy (opt_matchBase options) && truthy (opt_noglobstar options) = false →
  Forall (λ p, ∃ m, new_Minimatch p (mmo_of options) = Ok m)
         (prepared options pattern0) →
  ∃ this w',
    new_Glob platform new_Minimatch pattern0 options w = (Ok this, w')
    ∧ pattern this = prepared options pattern0
    ∧ store_ok w' ∧ Glob_inv this w'
    ∧ sets w `prefix_of` sets w'
    ∧ (∀ r, matches this = Some r →
         truthy (opt_nounique options) = false
         ∧ sets w !! r = None ∧ sets w' = sets w ++ [[]]
         ∧ sets w' !! r = Some [])
    ∧ (matches this = None →
         truthy (opt_nounique options) = true ∧ sets w' = sets w)
    ∧ calls w' = calls w ++ (Compiled <$> prepared options pattern0).
Proof.
  intros Hok Hcfg Hps.
  destruct (new_Glob_returns_on pattern0 options w Hcfg Hps)
    as (this & w' & Hnew).
  exists this, w'. split; [done|].
  pose proof (new_Glob_cfg _ _ _ _ _ Hnew) as (_ & _ & Hpat).
  pose proof (new_Glob_inv_ok _ _ _ _ _ Hok Hnew) as [Hok' Hinv].
  apply new_Glob_inv in Hnew
    as (mms & _ & _ & _ & _ & _ & _ & _ & _ & Hnu & _ & _ & Hm & Hs & Hc).
  rewrite Hm, Hs, Hc, Hpat, <-Hnu.
  split_and!; [done..| | | |done].
  - destruct (nounique this); [done|]. by apply prefix_app_r.
  - destruct (nounique this); [done|]. intros r [= <-]. split_and!; [done| |done|].
    + by apply lookup_ge_None_2.
    + by apply list_lookup_middle.
  - by destruct (nounique this).
Qed.

(** X12. The constructor's preparation of the patterns is idempotent: a
    [Glob] made from the patterns of a constructed [Glob], under the
    same options, is constructed as well and has the same patterns and
    the same compiled views. *)
Theorem constructor_idempotent_on_patterns pattern0 options w this w1 w2 :
  new_Glob platform new_Minimatch pattern0 options w = (Ok this, w1) →
  ∃ this' w3,
    new_Glob platform new_Minimatch (inr (pattern this)) options w2
    = (Ok this', w3)
    ∧ pattern this' = pattern this
    ∧ matchSet this' = matchSet this
    ∧ globSet this' = globSet this
    ∧ globParts this' = globParts this.
Proof.
  intros Hnew. pose proof (new_Glob_cfg _ _ _ _ _ Hnew) as (Hcfg & _ & Hpat).
  apply new_Glob_inv in Hnew as (mms & Hall & Hms & Hgs & Hgp & _).
  destruct (new_Glob_returns_on (inr (pattern this)) options w2 Hcfg)
    as (this' & w3 & Hnew').
  { rewrite Hpat, prepared_idempotent, <-Hpat.
    apply Forall_forall. intros p Hp.
    apply list_elem_of_lookup in Hp as [j Hj].
    destruct (Forall2_lookup_l _ _ _ _ _ Hall Hj) as (m & _ & Hm).
    by exists m. }
  exists this', w3. split; [done|].
  pose proof (new_Glob_cfg _ _ _ _ _ Hnew') as (_ & _ & Hpat').
  rewrite Hpat, prepared_idempotent, <-Hpat in Hpat'.
  apply new_Glob_inv in Hnew' as (mms' & Hall' & Hms' & Hgs' & Hgp' & _).
  rewrite Hpat' in Hall'.
  rewrite (compiled_once _ _ _ _ Hall' Hall) in Hms', Hgs', Hgp'.
  split_and!; congruence.
Qed.

(** *** [process] and [processSync], from the constructor on *)

Lemma conclude_calls this rs w : calls (conclude this rs w).2 = calls w.
Proof.
  unfold bind.
  destruct (nulls_from_reads this 0 rs w) as (o & Ho & Hne & Hok).
  destruct o as [ns|e|]; [|by destruct (Hne e)|].
  2:{ unfold doNonull, bind. by rewrite Ho. }
  destruct (live_holds w rs (Hok ns eq_refl)) as [ss Hh].
  destruct Hh as [|r0 s0 rest more Hr0 Hrest]; [done|].
  assert (holds w (r0 :: rest) (s0 :: more)) as Hh by by constructor.
  rewrite (nulls_from_eq _ _ _ _ _ Hh) in Ho.
  destruct (nulls_of this 0 (s0 :: more)) as [ns'|] eqn:Hns; [|done].
  rewrite (doNonull_eq _ _ _ _ _ _ _ Hh Hns).
  destruct (holds_after_insert w r0 rest s0 more (adds s0 ns') (calls w) Hh)
    as [more' Hh'].
  by rewrite (finish_eq _ _ _ _ _ _ Hh').
Qed.

Lemma no_alternative_throws this sched w :
  matchSet this = [] →
  (process localeCompare discover this sched w).1 = Throw NotIterable
  ∧ (processSync localeCompare discover this w).1 = Throw NotIterable.
Proof.
  intros Hnil. unfold process, processSync. rewrite Hnil. simpl.
  unfold bind at 1. unfold ret at 1. unfold bind at 1.
  unfold Promise_all. unfold bind at 1. by rewrite run_schedule_nil.
Qed.

(** X13. A [Glob] the constructor returned, from a compiler whose
    patterns have their three arrays aligned, has for every alternative
    its entry of [globParts] and of [globSet], so that no run reads past
    the end of either.  Run, it ends in one of three ways, [process]
    under any schedule of the walks and [processSync] alike: without an
    alternative both throw the TypeError of spreading [undefined]; where
    traversals fail at their roots both throw the error of one of them,
    [processSync] that of the first such alternative; otherwise both
    return outputs with the same paths, each as often. *)
Theorem constructed_glob_runs pattern0 options w this w' sched :
  (∀ p m, new_Minimatch p (mmo_of options) = Ok m → aligned m) →
  store_ok w →
  new_Glob platform new_Minimatch pattern0 options w = (Ok this, w') →
  (∀ i set_, matchSet this !! i = Some set_ →
     ∃ parts n,
       globParts this !! i = Some parts ∧ globSet this !! i = Some n
       ∧ globList (new_Pattern this i set_) = Some parts)
  ∧ ((matchSet this = []
      ∧ (process localeCompare discover this sched w').1 = Throw NotIterable
      ∧ (processSync localeCompare discover this w').1 = Throw NotIterable)
     ∨ (matchSet this ≠ [] ∧ root_failures discover this = []
        ∧ ∃ out1 out2,
            (process localeCompare discover this sched w').1 = Ok out1
            ∧ (processSync localeCompare discover this w').1 = Ok out2
            ∧ out1 ≡ₚ out2)
     ∨ (∃ m rest,
          root_failures discover this = m :: rest
          ∧ (processSync localeCompare discover this w').1
            = Throw (Foreign m)
          ∧ ∃ m', m' ∈ m :: rest
                  ∧ (process localeCompare discover this sched w').1
                    = Throw (Foreign m'))).
Proof.
  intros Hcompiler Hok Hnew.
  destruct (new_Glob_inv_ok _ _ _ _ _ Hok Hnew) as [Hok' Hinv].
  apply new_Glob_inv in Hnew as (mms & Hall & Hms & Hgs & Hgp & _).
  assert (Forall aligned mms) as Hal.
  { apply Forall_forall. intros m Hm.
    apply list_elem_of_lookup in Hm as [j Hj].
    destruct (Forall2_lookup_r _ _ _ _ _ Hall Hj) as (p & _ & Hp).
    by eapply Hcompiler. }
  destruct (concat_aligned_length mms Hal) as [Hl1 Hl2].
  rewrite <-Hms, <-Hgp in Hl1. rewrite <-Hgs, <-Hgp in Hl2.
  split.
  { intros i set_ Hi. apply lookup_lt_Some in Hi.
    destruct (lookup_lt_is_Some_2 (globParts this) i) as [parts Hparts];
      [lia|].
    destruct (lookup_lt_is_Some_2 (globSet this) i) as [n Hn]; [lia|].
    by exists parts, n. }
  destruct (decide (matchSet this = [])) as [Hnil|Hne].
  { left. split; [done|]. by apply no_alternative_throws. }
  right. destruct (root_failures discover this) as [|m rest] eqn:Hfail.
  2:{ right. exists m, rest. split; [done|]. by apply failing_runs. }
  left. split; [done|]. split; [done|].
  pose proof (process_vs_processSync this w' sched Hok' Hinv Hfail)
    as [Hsame _].
  rewrite process_eq in * by done.
  set (ws := walkers_of discover this (length (sets w')) (alternatives this))
    in *.
  assert (length ws = length (matchSet this)) as Hlen.
  { subst ws. by rewrite length_walkers. }
  destruct (target <$> ws) as [|r0 rest] eqn:Hrs.
  { apply (f_equal length) in Hrs. rewrite length_fmap, Hlen in Hrs.
    by destruct (matchSet this). }
  pose proof (targets_live_after this w' (trace sched ws) Hinv) as Hlive.
  cbv zeta in Hlive. fold ws in Hlive. rewrite Hrs in Hlive.
  destruct (conclude_outcome this r0 rest _ Hlive)
    as [(out1 & w1 & E1)|[_ Hlong]].
  - rewrite E1 in *. simpl in *.
    destruct (processSync localeCompare discover this w').1
      as [out2| |]; [|done..].
    by exists out1, out2.
  - destruct Hlong. apply (f_equal length) in Hrs.
    rewrite length_fmap, Hlen in Hrs. lia.
Qed.

(** The walkers the blocking mode makes are those up to the first
    failing one. *)
Lemma made_first ws m :
  first_failure ws = Some m →
  ∃ k wk,
    ws !! k = Some wk ∧ rejects wk = Some m ∧ made ws = S k
    ∧ ∀ j wk', j < k → ws !! j = Some wk' → rejects wk' = None.
Proof.
  induction ws as [|wk ws IH]; [done|]. rewrite first_failure_cons. simpl.
  destruct (rejects wk) as [m'|] eqn:Hwk; simpl.
  - intros [= ->]. exists 0, wk. split_and!; [done..|]. intros j wk' Hj. lia.
  - intros (k & wk0 & Hk & Hrej & Hmade & Hbefore)%IH.
    exists (S k), wk0. split_and!; [done|done|by rewrite Hmade|].
    intros [|j] wk' Hj; simpl.
    + by intros [= <-].
    + apply Hbefore. lia.
Qed.

(** X14. [process], under any schedule and whether or not a walk fails,
    makes one walker for each alternative, in the order of [matchSet],
    each for the pattern of the alternative's parsed form, its entry of
    [globParts] and index 0.  [processSync] makes the same walkers as
    long as no walk has failed: all of them where no traversal fails,
    and otherwise those up to the first alternative whose traversal
    fails, that one included.  [doNonull] and [finish] call no
    collaborator, and no pattern is compiled again. *)
Theorem one_walker_per_alternative this sched w :
  Glob_inv this w →
  let walkers :=
    imap (λ i set_, Walked {| patternList := set_;
                              globList := globParts this !! i;
                              index := 0 |}) (matchSet this) in
  calls (process localeCompare discover this sched w).2 = calls w ++ walkers
  ∧ (root_failures discover this = [] →
     calls (processSync localeCompare discover this w).2 = calls w ++ walkers)
  ∧ (∀ m rest, root_failures discover this = m :: rest →
       ∃ k set_,
         matchSet this !! k = Some set_
         ∧ discover this (new_Pattern this k set_) = RootError m
         ∧ (∀ j set_j, j < k → matchSet this !! j = Some set_j →
              root_error (discover this (new_Pattern this j set_j)) = None)
         ∧ calls (processSync localeCompare discover this w).2
           = calls w ++ take (S k) walkers).
Proof.
  intros Hinv walkers.
  assert (walked this = walkers) as Hwalked by by rewrite fmap_imap.
  split_and!.
  - rewrite process_run by done. cbv zeta.
    destruct (rejection sched _); [by rewrite <-Hwalked|].
    by rewrite conclude_calls, <-Hwalked.
  - intros Hnone.
    by rewrite processSync_eq, conclude_calls, <-Hwalked by done.
  - intros m rest Hfail. rewrite processSync_run by done. cbv zeta.
    set (ws := walkers_of discover this (length (sets w)) (alternatives this)).
    assert (first_failure ws = Some m) as Hfirst.
    { subst ws. rewrite first_failure_walkers.
      fold (root_failures discover this). by rewrite Hfail. }
    rewrite Hfirst. cbn [snd calls].
    destruct (made_first ws m Hfirst) as (k & wk & Hk & Hrej & -> & Hbefore).
    subst ws. unfold walkers_of in Hk, Hbefore.
    rewrite !list_lookup_imap in Hk.
    destruct (matchSet this !! k) as [set_|] eqn:Hset; [|done].
    injection Hk as <-. unfold rejects in Hrej. simpl in Hrej.
    exists k, set_. split_and!.
    + done.
    + by destruct (discover this (new_Pattern this k set_)); simplify_eq/=.
    + intros j set_j Hj Hsetj.
      apply (Hbefore j {| target := match matches this with
                                    | Some r => r
                                    | None => length (sets w) + j
                                    end;
                          pending := discover this (new_Pattern this j set_j) |}
               Hj).
      by rewrite !list_lookup_imap, Hsetj.
    + by rewrite fmap_take, Hwalked.
Qed.

(** Where all the walkers fill one set, what goes into it is what some
    walker found. *)
Lemma drain_shared ws r (x : string) :
  Forall (λ wk, target wk = r) ws →
  (r, x) ∈ drain ws ↔ ∃ wk, wk ∈ ws ∧ x ∈ found wk.
Proof.
  intros Hr. split.
  - intros (wk & ? & _ & ?)%drain_elem. by exists wk.
  - intros (wk & Hwk & Hx). induction Hr as [|wk' ws Ht _ IH].
    { by apply elem_of_nil in Hwk. }
    rewrite drain_cons. apply elem_of_app.
    apply elem_of_cons in Hwk as [<-|Hwk]; [left|right; by apply IH].
    unfold walk_ins. rewrite <-Ht. by apply list_elem_of_fmap_2.
Qed.

Lemma elem_of_walkers_of this base wk :
  wk ∈ walkers_of discover this base (alternatives this)
  ↔ ∃ i set_,
      matchSet this !! i = Some set_
      ∧ wk = {| target := match matches this with
                          | Some r => r
                          | None => base + i
                          end;
                pending := discover this (new_Pattern this i set_) |}.
Proof.
  rewrite list_elem_of_lookup. unfold walkers_of. split.
  - intros [i Hi]. rewrite !list_lookup_imap in Hi.
    destruct (matchSet this !! i) as [set_|] eqn:Hset; [|done].
    injection Hi as <-. by exists i, set_.
  - intros (i & set_ & Hset & ->). exists i.
    by rewrite !list_lookup_imap, Hset.
Qed.

(** The nulls of as many empty sets, with [nonull] set. *)
Lemma nulls_of_all_empty_elem this i n ns (p : string) :
  nonull this = true → nulls_of this i (replicate n []) = Some ns →
  p ∈ ns ↔ ∃ k, k < n ∧ globSet this !! (i + k) = Some p.
Proof.
  intros Hnn. revert i ns. induction n as [|n IH]; intros i ns Hns.
  { injection Hns as <-. split; [by intros ?%elem_of_nil|].
    intros (k & ? & _). lia. }
  simpl in Hns. rewrite Hnn in Hns. simpl in Hns.
  destruct (globSet this !! i) as [x|] eqn:Hx; [|done]. simpl in Hns.
  destruct (nulls_of this (S i) (replicate n [])) as [more|] eqn:Hmore;
    [|done].
  simpl in Hns. injection Hns as <-.
  rewrite elem_of_cons, (IH (S i) more Hmore). split.
  - intros [->|(k & Hk & Hp)].
    + exists 0. split; [lia|]. by rewrite Nat.add_0_r.
    + exists (S k). split; [lia|]. by rewrite <-Nat.add_succ_comm.
  - intros ([|k] & Hk & Hp).
    + left. rewrite Nat.add_0_r in Hp. congruence.
    + right. exists k. split; [lia|]. by rewrite Nat.add_succ_comm.
Qed.

Lemma all_equal_replicate (s : list string) ss :
  Forall (s =.) ss → ss = replicate (length ss) s.
Proof. induction 1 as [|s' ss <- _ IH]; [done|]. simpl. by rewrite <-IH. Qed.

(** X15. In the default mode, [nounique] unset, the output of [process]
    has exactly the paths the shared set held before and the paths the
    traversal of some alternative reports; where there are none of
    either and [nonull] is set, it has the literal glob strings of the
    alternatives instead.  The traversal is the walker's, which is not
    part of the class. *)
Theorem default_output_is_union this w sched r s out w' :
  Glob_inv this w → matches this = Some r → sets w !! r = Some s →
  process localeCompare discover this sched w = (Ok out, w') →
  let discovered p :=
    ∃ i set_, matchSet this !! i = Some set_
              ∧ p ∈ paths (discover this (new_Pattern this i set_)) in
  ∀ p,
    p ∈ out
    ↔ p ∈ s ∨ discovered p
      ∨ (nonull this = true ∧ s = [] ∧ (∀ q, ¬ discovered q)
         ∧ ∃ i, i < length (matchSet this) ∧ globSet this !! i = Some p).
Proof.
  intros Hinv Hm Hs Hrun discovered p.
  pose proof Hinv as Hinv0. unfold Glob_inv in Hinv0. rewrite Hm in Hinv0.
  destruct Hinv0 as [Hnu Hlive].
  assert (root_failures discover this = []) as Hruns.
  { eapply (returned_no_failure this w sched out w' Hinv). by left. }
  rewrite process_eq in Hrun by done.
  set (ws := walkers_of discover this (length (sets w)) (alternatives this))
    in *.
  assert (fresh_sets this (length (alternatives this)) = []) as Hfresh.
  { unfold fresh_sets. by rewrite Hm. }
  rewrite Hfresh, app_nil_r in Hrun.
  assert (Forall (λ wk, target wk = r) ws) as Hshared
    by apply (walkers_targets_shared this _ _ r Hm).
  assert (Forall (r =.) (target <$> ws)) as Hrs.
  { apply Forall_fmap. eapply Forall_impl; [exact Hshared|]. by intros wk <-. }
  assert (length ws = length (matchSet this)) as Hlen.
  { subst ws. by rewrite length_walkers. }
  set (S1 := adds s (into r (trace sched ws))).
  assert (apply_ins (trace sched ws) (sets w) !! r = Some S1) as Hr1.
  { by rewrite lookup_apply_ins, Hs. }
  assert (∀ q, q ∈ into r (trace sched ws) ↔ discovered q) as Hinto.
  { intros q. rewrite elem_of_into, trace_elem, (drain_shared ws r q Hshared).
    split.
    - intros (wk & Hwk & Hq). subst ws.
      apply elem_of_walkers_of in Hwk as (i & set_ & Hset & ->).
      by exists i, set_.
    - intros (i & set_ & Hset & Hq).
      exists {| target := r;
                pending := discover this (new_Pattern this i set_) |}.
      split; [|exact Hq]. subst ws. apply elem_of_walkers_of.
      exists i, set_. by rewrite Hm. }
  destruct (target <$> ws) as [|r0 rest] eqn:Htargets; [done|].
  pose proof Hrs as [<- _]%Forall_cons_1.
  assert (Forall (live (World (apply_ins (trace sched ws) (sets w))
                              (calls w ++ walked this))) (r :: rest))
    as Hlive1.
  { eapply Forall_impl; [exact Hrs|]. intros r' <-. unfold live. simpl.
    by rewrite length_apply_ins. }
  destruct (live_holds _ _ Hlive1) as [ss Hh].
  destruct ss as [|s0 more]; [by inv Hh|].
  pose proof (holds_same _ _ _ r S1 Hrs Hh Hr1) as Hall.
  pose proof Hall as [<- Hmore]%Forall_cons_1.
  destruct (nulls_of this 0 (S1 :: more)) as [ns|] eqn:Hns;
    [|by rewrite (conclude_stuck _ _ _ _ _ _ Hh Hns) in Hrun].
  destruct (holds_after_insert _ r rest S1 more (adds S1 ns)
              (calls w ++ walked this) Hh) as [more' Hh'].
  rewrite (conclude_ok _ _ _ _ _ _ _ _ Hh Hns Hh'), Hnu in Hrun.
  injection Hrun as <- _. cbv zeta. rewrite app_nil_r.
  assert (p ∈ (if nosort this then adds S1 ns
               else sort localeCompare (adds S1 ns))
          ↔ p ∈ s ∨ discovered p ∨ p ∈ ns) as ->.
  { assert (p ∈ adds S1 ns ↔ p ∈ s ∨ discovered p ∨ p ∈ ns) as Hadds.
    { subst S1. rewrite !elem_of_adds, Hinto.
      split; [intros [[?|?]|?]|intros [?|[?|?]]]; auto. }
    destruct (nosort this); [done|]. unfold sort.
    by rewrite elem_of_Array_sort. }
  assert (length more = length rest) as Hlen'.
  { apply Forall2_length in Hh. simpl in Hh. lia. }
  assert (S (length rest) = length (matchSet this)) as Hn.
  { apply (f_equal length) in Htargets.
    rewrite length_fmap, Hlen in Htargets. simpl in Htargets. lia. }
  destruct (decide (S1 = [] ∧ nonull this = true)) as [[Hnil Hnn]|Hsome].
  - apply adds_nil_inv in Hnil as Hparts. destruct Hparts as [-> Hnone].
    assert (∀ q, ¬ discovered q) as Hnothing.
    { intros q Hq%Hinto. rewrite Hnone in Hq. by apply elem_of_nil in Hq. }
    rewrite (all_equal_replicate S1 (S1 :: more) Hall), Hnil in Hns.
    rewrite (nulls_of_all_empty_elem this 0 _ ns p Hnn Hns).
    simpl. rewrite Hlen', Hn. split.
    + intros [Hp|[Hp|Hp]]; [by apply elem_of_nil in Hp|by destruct (Hnothing p)|].
      right. right. split_and!; [done..|].
      destruct Hp as (k & ? & ?). by exists k.
    + intros [Hp|[Hp|(_ & _ & _ & k & ? & ?)]]; [by left|by right; left|].
      right. right. by exists k.
  - assert (ns = []) as ->.
    { assert (nulls_of this 0 (S1 :: more) = Some []) as Hnone; [|congruence].
      apply nulls_of_none. destruct (nonull this); [right|by left].
      eapply Forall_impl; [exact Hall|]. intros ? <- ->. by apply Hsome. }
    split.
    + intros [Hp|[Hp|Hp]]; [by left|by right; left|by apply elem_of_nil in Hp].
    + intros [Hp|[Hp|(Hnn & -> & Hnothing & _)]]; [by left|by right; left|].
      destruct Hsome. split; [|done]. subst S1.
      destruct (into r (trace sched ws)) as [|q l] eqn:Hl; [done|].
      destruct (Hnothing q). apply Hinto. by left.
Qed.

Lemma into_drain_shared ws r :
  Forall (λ wk, target wk = r) ws → into r (drain ws) = concat (found <$> ws).
Proof.
  induction 1 as [|wk ws Ht _ IH]; [done|].
  rewrite drain_cons, into_app, IH. csimpl. f_equal.
  unfold walk_ins. rewrite Ht. clear.
  induction (found wk) as [|x xs IHx]; [done|].
  csimpl. rewrite into_cons. simpl. by rewrite decide_True, IHx.
Qed.

Lemma found_walkers_of this base :
  found <$> walkers_of discover this base (alternatives this)
  = imap (λ i set_, paths (discover this (new_Pattern this i set_)))
         (matchSet this).
Proof.
  unfold walkers_of. apply list_eq. intros i.
  rewrite list_lookup_fmap, !list_lookup_imap.
  by destruct (matchSet this !! i).
Qed.

(** X16. In the default mode, where no traversal fails at its root,
    [processSync] returns the paths the shared set held and then those
    the traversals report, alternative after alternative in the order
    of [matchSet], each path where it came first; where that leaves
    nothing and [nonull] is set, the literal glob strings of the
    alternatives instead; sorted unless [nosort].  Where traversals
    fail, it throws the error of the first alternative whose traversal
    does.  The traversal is the walker's, which is not part of the
    class. *)
Theorem processSync_default_output this w r s :
  Glob_inv this w → matches this = Some r → sets w !! r = Some s →
  matchSet this ≠ [] → length (matchSet this) ≤ length (globSet this) →
  let reported :=
    concat (imap (λ i set_, paths (discover this (new_Pattern this i set_)))
                 (matchSet this)) in
  let kept := adds s reported in
  let final :=
    if nonull this && bool_decide (kept = [])
    then adds [] (take (length (matchSet this)) (globSet this))
    else kept in
  (root_failures discover this = [] →
   (processSync localeCompare discover this w).1
   = Ok (if nosort this then final else sort localeCompare final))
  ∧ (∀ m rest, root_failures discover this = m :: rest →
       (processSync localeCompare discover this w).1 = Throw (Foreign m)).
Proof.
  intros Hinv Hm Hs Hne Hlong reported kept final. split.
  2:{ intros m rest Hfail. by apply (failing_runs this w [] m rest). }
  intros Hruns.
  pose proof Hinv as Hinv0. unfold Glob_inv in Hinv0. rewrite Hm in Hinv0.
  destruct Hinv0 as [Hnu Hlive].
  rewrite processSync_eq by done.
  set (ws := walkers_of discover this (length (sets w)) (alternatives this)).
  assert (fresh_sets this (length (alternatives this)) = []) as Hfresh.
  { unfold fresh_sets. by rewrite Hm. }
  rewrite Hfresh, app_nil_r.
  assert (Forall (λ wk, target wk = r) ws) as Hshared
    by apply (walkers_targets_shared this _ _ r Hm).
  assert (Forall (r =.) (target <$> ws)) as Hrs.
  { apply Forall_fmap. eapply Forall_impl; [exact Hshared|]. by intros wk <-. }
  assert (length ws = length (matchSet this)) as Hlen.
  { subst ws. by rewrite length_walkers. }
  assert (apply_ins (drain ws) (sets w) !! r = Some kept) as Hr1.
  { rewrite lookup_apply_ins, Hs. simpl.
    rewrite (into_drain_shared ws r Hshared). subst ws.
    by rewrite found_walkers_of. }
  destruct (target <$> ws) as [|r0 rest] eqn:Htargets.
  { apply (f_equal length) in Htargets. rewrite length_fmap, Hlen in Htargets.
    by destruct (matchSet this). }
  pose proof Hrs as [<- _]%Forall_cons_1.
  assert (S (length rest) = length (matchSet this)) as Hn.
  { apply (f_equal length) in Htargets.
    rewrite length_fmap, Hlen in Htargets. simpl in Htargets. lia. }
  assert (Forall (live (World (apply_ins (drain ws) (sets w))
                              (calls w ++ walked this))) (r :: rest))
    as Hlive1.
  { eapply Forall_impl; [exact Hrs|]. intros r' <-. unfold live. simpl.
    by rewrite length_apply_ins. }
  destruct (live_holds _ _ Hlive1) as [ss Hh].
  destruct ss as [|s0 more]; [by inv Hh|].
  pose proof (holds_same _ _ _ r kept Hrs Hh Hr1) as Hall.
  pose proof Hall as [<- Hmore]%Forall_cons_1.
  assert (length more = length rest) as Hlen'.
  { apply Forall2_length in Hh. simpl in Hh. lia. }
  assert (∃ ns, nulls_of this 0 (kept :: more) = Some ns
                ∧ final = adds kept ns) as (ns & Hns & ->).
  { subst final. destruct (nonull this && bool_decide (kept = [])) eqn:Hc.
    - apply andb_true_iff in Hc as [Hnn Hnil%bool_decide_eq_true].
      rewrite (all_equal_replicate kept (kept :: more) Hall), Hnil.
      eexists. split.
      + apply nulls_of_all_empty; [done|]. simpl. lia.
      + by rewrite drop_0; simpl; rewrite Hlen', Hn.
    - exists []. split; [|done]. apply nulls_of_none.
      apply andb_false_iff in Hc as [Hnn|Hnil%bool_decide_eq_false];
        [by left|right].
      eapply Forall_impl; [exact Hall|]. by intros ? <-. }
  destruct (holds_after_insert _ r rest kept more (adds kept ns)
              (calls w ++ walked this) Hh) as [more' Hh'].
  rewrite (conclude_ok _ _ _ _ _ _ _ _ Hh Hns Hh'), Hnu. simpl.
  by rewrite app_nil_r.
Qed.

End Properties.

(** ** The order of the output *)

Section collation.
Context {RegExp GlobCache : Type}.


End collation.

(** ** The scenario *)

Section scenario.
Import Scenario.

Lemma code_points_inj locale (a b : string) :
  code_points locale a = code_points locale b → a = b.
Proof.
  unfold code_points. revert b.
  induction a as [|c a IH]; intros [|d b]; simpl; try done.
  intros [= Hc Hab]. f_equal; [|by apply IH].
  by rewrite <-(ascii_N_embedding c), <-(ascii_N_embedding d), Hc.
Qed.

Lemma collate_consistent : consistent (compare_en collate).
Proof. exact (collator_consistent code_points "en"). Qed.

Lemma collate_no_ties l : no_ties (compare_en collate) l.
Proof.
  intros a b _ _ Hab%compare_keys_eq. by apply code_points_inj in Hab.
Qed.

Lemma by_length_consistent : consistent (compare_en by_length).
Proof. exact (collator_consistent length_key "en"). Qed.

Lemma compiler_aligned p mmo m : compiler p mmo = Ok m → aligned m.
Proof.
  unfold compiler. destruct (String.eqb p ""); intros [= <-]; by split.
Qed.

End scenario.

(** *** The scenarios of the specification *)

(** Patterns ["*.md"] in a directory with README.md and CHANGELOG.md. *)
Example scenario_sorted :
  Scenario.glob_sync ["*.md"]
    no_options
  = Ok ["CHANGELOG.md"; "README.md"].
Proof. vm_compute. reflexivity. Qed.

(** Pattern "missing/*.xyz" matching nothing, [nonull] set. *)
Example scenario_nonull :
  Scenario.glob_sync ["missing/*.xyz"]
    (Scenario.options None None (Some true) None None None None)
  = Ok ["missing/*.xyz"].
Proof. vm_compute. reflexivity. Qed.

(** The same pattern twice, [nounique] unset. *)
Example scenario_duplicate_pattern :
  Scenario.glob_sync ["a.txt"; "a.txt"]
    no_options
  = Ok ["a.txt"].
Proof. vm_compute. reflexivity. Qed.

(** Pattern "FOO" with [matchBase] and [noglobstar]. *)
Example scenario_matchBase_noglobstar :
  Scenario.glob_sync ["FOO"]
    (Scenario.options None None None (Some true) (Some true) None None)
  = Throw (TypeError "base matching requires globstar").
Proof. vm_compute. reflexivity. Qed.

(** A path matched by two alternatives, with and without [nounique]. *)
Example scenario_two_alternatives :
  Scenario.glob_sync ["*.txt"; "a*"]
    no_options
  = Ok ["a.txt"; "b.txt"]
  ∧ Scenario.glob_sync ["*.txt"; "a*"]
      (Scenario.options (Some true) (Some true) None None None None None)
    = Ok ["b.txt"; "a.txt"; "b.txt"; "a.txt"; "a.txt"].
Proof. split; vm_compute; reflexivity. Qed.

(** [nonull] where one alternative matches and another does not: with
    [nounique] unset the result set of both is the shared set, which is
    not empty, and the literal is not put out; with [nounique] set the
    second has a set of its own, which is empty. *)
Example scenario_nonull_shared :
  Scenario.glob_sync ["a*"; "zzz"]
    (Scenario.options None None (Some true) None None None None)
  = Ok ["a.txt"]
  ∧ Scenario.glob_sync ["a*"; "zzz"]
      (Scenario.options (Some true) None (Some true) None None None None)
    = Ok ["a.txt"; "a.txt"; "zzz"; "zzz"].
Proof. split; vm_compute; reflexivity. Qed.

(** Where paths tie, the sort keeps them in the order they came in, and
    the sorted outputs of the two modes still differ by the schedule:
    so it is under the collation by length, a consistent comparator. *)
Example scenario_ties :
  (process Scenario.by_length Scenario.tree
     (Scenario.glob ["b*"; "a*"] false false false 0) [1]
     (World [[]] [])).1
  = Ok ["a.txt"; "b.txt"]
  ∧ (processSync Scenario.by_length Scenario.tree
       (Scenario.glob ["b*"; "a*"] false false false 0)
       (World [[]] [])).1
    = Ok ["b.txt"; "a.txt"].
Proof. split; vm_compute; reflexivity. Qed.

(** The suspending mode from the constructor on, under two schedules. *)
Example scenario_async :
  Scenario.glob_async ["*.txt"; "a*"] no_options [1; 0; 0]
  = Ok ["a.txt"; "b.txt"]
  ∧ Scenario.glob_async ["*.txt"; "a*"] no_options []
    = Ok ["a.txt"; "b.txt"].
Proof. split; vm_compute; reflexivity. Qed.

(** A traversal that fails at its root fails the call.  Where two do,
    the blocking mode throws the error of the first alternative, and the
    suspending mode that of the walk that failed first. *)
Example scenario_root_failure :
  Scenario.glob_sync ["a*"; "locked/*"] no_options
  = Throw (Foreign "EACCES: locked")
  ∧ Scenario.glob_async ["a*"; "locked/*"] no_options [0; 1]
    = Throw (Foreign "EACCES: locked")
  ∧ Scenario.glob_sync ["locked/*"; "sealed/*"] no_options
    = Throw (Foreign "EACCES: locked")
  ∧ Scenario.glob_async ["locked/*"; "sealed/*"] no_options [1]
    = Throw (Foreign "EACCES: sealed").
Proof. split_and!; vm_compute; reflexivity. Qed.

(** The constructor on a 'win32' host. *)
Example scenario_win32 :
  ∃ this w,
    new_Glob "win32" Scenario.compiler (inr ["src\*.ts"; "x"])
      (Scenario.options None None None (Some true) None (Some true)
         (Some "C:\work")) Scenario.start = (Ok this, w)
    ∧ cwd this = "C:/work" ∧ pattern this = ["src/*.ts"; "**/x"].
Proof. eexists _, _. split; [vm_compute; reflexivity|]. by split. Qed.

(** The store the constructor leaves is a store of sets holding the
    shared set of the [Glob]. *)
Example scenario_constructed :
  new_Glob "linux" Scenario.compiler (inr ["b*"; "a*"])
    (Scenario.options None (Some true) None None None None None)
    Scenario.start
  = (Ok (Scenario.glob ["b*"; "a*"] false true false 0),
     World [[]] [Compiled "b*"; Compiled "a*"]).
Proof. vm_compute. reflexivity. Qed.

(** *** The theorems at the scenario *)

(** A closed decidable fact about a store, by evaluation. *)
Ltac by_evaluation :=
  unfold store_ok; simpl; apply (bool_decide_unpack _); vm_compute; exact I.

Lemma finish_starts_from_set0_witness :
  ∃ out,
    finish Scenario.collate (Scenario.glob ["*.txt"; "a*"] true false false 0)
      [0; 1] (World [["b.txt"; "a.txt"]; ["a.txt"]] [])
    = (Ok out, World [["b.txt"; "a.txt"]; ["a.txt"]] [])
    ∧ out = sort Scenario.collate
              (["b.txt"; "a.txt"] ++ concat [["b.txt"; "a.txt"]; ["a.txt"]])
    ∧ (true = false → NoDup out)
    ∧ out ≡ₚ ["b.txt"; "a.txt"] ++ concat [["b.txt"; "a.txt"]; ["a.txt"]].
Proof.
  apply (finish_starts_from_set0 Scenario.collate
           (Scenario.glob ["*.txt"; "a*"] true false false 0)
           (World [["b.txt"; "a.txt"]; ["a.txt"]] [])
           0 [1] ["b.txt"; "a.txt"] [["a.txt"]]).
  - by_evaluation.
  - repeat constructor.
Defined.

Lemma output_paths_once_witness :
  NoDup ["a.txt"; "b.txt"]
  ∧ ∀ p, p ∈ ["a.txt"; "b.txt"] →
         length (filter (p =.) ["a.txt"; "b.txt"]) = 1.
Proof.
  refine (proj2 (output_paths_once Scenario.collate Scenario.tree
                   (Scenario.glob ["*.txt"; "a*"] false false false 0)
                   (World [[]] []) _ _)
            [1; 0] ["a.txt"; "b.txt"] _ _ _).
  - by_evaluation.
  - reflexivity.
  - split; [reflexivity | unfold live; simpl; lia].
  - left. vm_compute. reflexivity.
Defined.

(** C3 as stated fails: with [nonull] set and [nounique] unset, the
    traversal of the alternative "zzz" matches nothing, and its literal
    is not in the output, because the alternative "a*" beside it
    matched: the result set of both is the shared set, which is not
    empty when [doNonull] runs. *)
Lemma nonull_literal_missing :
  nonull (Scenario.glob ["a*"; "zzz"] false false true 0) = true
  ∧ matchSet (Scenario.glob ["a*"; "zzz"] false false true 0) !! 1
    = Some [Literal "zzz"]
  ∧ globSet (Scenario.glob ["a*"; "zzz"] false false true 0) !! 1
    = Some "zzz"
  ∧ Scenario.tree (Scenario.glob ["a*"; "zzz"] false false true 0)
      (new_Pattern (Scenario.glob ["a*"; "zzz"] false false true 0) 1
         [Literal "zzz"])
    = Reports []
  ∧ new_Glob "linux" Scenario.compiler (inr ["a*"; "zzz"])
      (Scenario.options None None (Some true) None None None None)
      Scenario.start
    = (Ok (Scenario.glob ["a*"; "zzz"] false false true 0),
       World [[]] [Compiled "a*"; Compiled "zzz"])
  ∧ (processSync Scenario.collate Scenario.tree
       (Scenario.glob ["a*"; "zzz"] false false true 0)
       (World [[]] [Compiled "a*"; Compiled "zzz"])).1
    = Ok ["a.txt"]
  ∧ (process Scenario.collate Scenario.tree
       (Scenario.glob ["a*"; "zzz"] false false true 0) [1; 0]
       (World [[]] [Compiled "a*"; Compiled "zzz"])).1
    = Ok ["a.txt"]
  ∧ "zzz" ∉ ["a.txt"].
Proof.
  split_and!; [vm_compute; reflexivity..|].
  intros [Hne|Hin%elem_of_nil]%elem_of_cons; [discriminate|done].
Qed.

Lemma nonull_literal_in_output_witness :
  (∃ w1 r0 s0 out,
     doNonull (Scenario.glob ["a*"; "zzz"] true false true 0) [0; 1]
       (World [["a.txt"]; []] []) = (Ok [0; 1], w1)
     ∧ [0; 1] !! 0 = Some r0 ∧ sets w1 !! r0 = Some s0 ∧ "zzz" ∈ s0
     ∧ finish Scenario.collate
         (Scenario.glob ["a*"; "zzz"] true false true 0) [0; 1] w1
       = (Ok out, w1)
     ∧ "zzz" ∈ out)
  ∧ "zzz" ∈ ["a.txt"; "a.txt"; "zzz"; "zzz"]
  ∧ "zzz" ∈ ["missing/*.xyz"; "zzz"].
Proof.
  split_and!.
  - refine (proj1 (nonull_literal_in_output Scenario.collate Scenario.tree
                     (Scenario.glob ["a*"; "zzz"] true false true 0) eq_refl)
              (World [["a.txt"]; []] []) [0; 1] [["a.txt"]; []] 1 "zzz"
              _ _ _ _).
    + repeat constructor.
    + simpl. lia.
    + reflexivity.
    + reflexivity.
  - refine (proj1 (proj2 (nonull_literal_in_output Scenario.collate
                            Scenario.tree
                            (Scenario.glob ["a*"; "zzz"] true false true 0)
                            eq_refl))
              (World [] []) []
              ["a.txt"; "a.txt"; "zzz"; "zzz"]
              (processSync Scenario.collate Scenario.tree
                 (Scenario.glob ["a*"; "zzz"] true false true 0)
                 (World [] [])).2
              1 [Literal "zzz"] "zzz" _ _ _ _ _ _).
    + reflexivity.
    + reflexivity.
    + right. vm_compute. reflexivity.
    + reflexivity.
    + reflexivity.
    + reflexivity.
  - refine (proj2 (proj2 (nonull_literal_in_output Scenario.collate
                            Scenario.tree
                            (Scenario.glob ["missing/*.xyz"; "zzz"]
                               false false true 0)
                            eq_refl))
              (World [[]] []) [1; 0]
              ["missing/*.xyz"; "zzz"]
              (process Scenario.collate Scenario.tree
                 (Scenario.glob ["missing/*.xyz"; "zzz"] false false true 0)
                 [1; 0] (World [[]] [])).2
              0 1 "zzz" _ _ _ _ _ _ _).
    + split; [reflexivity | unfold live; simpl; lia].
    + reflexivity.
    + reflexivity.
    + left. vm_compute. reflexivity.
    + intros [|[|j]] set_; simpl; intros [= <-]; reflexivity.
    + simpl. lia.
    + reflexivity.
Defined.

Lemma matchBase_requires_globstar_witness :
  ∃ w',
    new_Glob "linux" Scenario.compiler (inl "FOO")
      (Scenario.options None None None (Some true) (Some true) None None)
      Scenario.start
    = (Throw (TypeError "base matching requires globstar"), w')
    ∧ calls w' = calls Scenario.start.
Proof.
  apply (matchBase_requires_globstar "linux" Scenario.compiler (inl "FOO")
           (Scenario.options None None None (Some true) (Some true) None None)
           Scenario.start); reflexivity.
Defined.




Lemma views_aligned_witness :
  length (matchSet (Scenario.glob ["b*"; "a*"] false true false 0))
  = length (globParts (Scenario.glob ["b*"; "a*"] false true false 0))
  ∧ length (globSet (Scenario.glob ["b*"; "a*"] false true false 0))
    = length (globParts (Scenario.glob ["b*"; "a*"] false true false 0)).
Proof.
  destruct (views_aligned "linux" Scenario.compiler (inr ["b*"; "a*"])
              (Scenario.options None (Some true) None None None None None)
              Scenario.start
              (Scenario.glob ["b*"; "a*"] false true false 0)
              (World [[]] [Compiled "b*"; Compiled "a*"]))
    as (mms & _ & _ & _ & _ & H1 & H2 & _).
  - intros p m. apply compiler_aligned.
  - vm_compute. reflexivity.
  - by split.
Defined.

Lemma separators_normalized_witness :
  ∃ this w',
    new_Glob "win32" Scenario.compiler (inr ["src\*.ts"; "x"])
      (Scenario.legacy_options (Some "C:\work")) Scenario.start
    = (Ok this, w')
    ∧ cwd this = "C:/work"
    ∧ windowsPathsNoEscape this = true
    ∧ pattern this = ["src/*.ts"; "x"]
    ∧ Forall no_backslash (pattern this).
Proof.
  destruct (new_Glob "win32" Scenario.compiler (inr ["src\*.ts"; "x"])
              (Scenario.legacy_options (Some "C:\work")) Scenario.start)
    as [[this| |] w'] eqn:E; [|vm_compute in E; discriminate..].
  exists this, w'. split; [done|].
  destruct (separators_normalized "win32" Scenario.compiler _ _ _ this w'
              eq_refl E) as (Hcwd & _ & _ & Hset & Hps & _).
  destruct (Hps (or_intror eq_refl)) as [Hpattern Hclean].
  vm_compute in E. injection E as <- <-.
  split_and!.
  - exact (Hcwd "C:\work" eq_refl).
  - apply Hset. by right.
  - exact Hpattern.
  - exact Hclean.
Defined.



Lemma process_needs_an_alternative_witness :
  ((process Scenario.collate Scenario.tree
      (Scenario.glob [] false false false 0) [0] (World [[]] [])).1
   = Throw NotIterable
   ∧ (processSync Scenario.collate Scenario.tree
        (Scenario.glob [] false false false 0) (World [[]] [])).1
     = Throw NotIterable)
  ∧ (process Scenario.collate Scenario.tree
       (Scenario.glob ["a*"; "locked/*"] false false false 0) [0]
       (World [[]] [])).1
    ≠ Throw NotIterable.
Proof.
  split.
  - refine (proj1 (proj2 (process_needs_an_alternative (OtherOptions := unit)
                            "linux" Scenario.compiler Scenario.collate
                            Scenario.tree
                            (Scenario.glob [] false false false 0)
                            (World [[]] []) [0])) _).
    reflexivity.
  - refine (proj1 (proj2 (proj2 (process_needs_an_alternative
                                   (OtherOptions := unit)
                                   "linux" Scenario.compiler Scenario.collate
                                   Scenario.tree
                                   (Scenario.glob ["a*"; "locked/*"]
                                      false false false 0)
                                   (World [[]] []) [0])) _ _)).
    + discriminate.
    + split; [reflexivity | unfold live; simpl; lia].
Defined.

(** *** The further properties at the scenario *)

Lemma sort_idempotent_witness :
  sort Scenario.collate ["b.txt"; "a.txt"] ≡ₚ ["b.txt"; "a.txt"]
  ∧ (sort Scenario.collate ["b.txt"; "a.txt"] = ["b.txt"; "a.txt"]
     ↔ Sorted (cmp_le (compare_en Scenario.collate)) ["b.txt"; "a.txt"])
  ∧ sort Scenario.collate (sort Scenario.collate ["b.txt"; "a.txt"])
    = sort Scenario.collate ["b.txt"; "a.txt"].
Proof.
  destruct (sort_idempotent Scenario.collate ["b.txt"; "a.txt"])
    as [Hperm Hsorted].
  split; [exact Hperm|]. exact (Hsorted collate_consistent).
Defined.

Lemma nounique_counts_set0_twice_witness :
  ∃ out,
    finish Scenario.collate (Scenario.glob ["*.txt"; "a*"] true false false 0)
      [0; 1] (World [["b.txt"; "a.txt"]; ["a.txt"]] [])
    = (Ok out, World [["b.txt"; "a.txt"]; ["a.txt"]] [])
    ∧ length out = 2 * length ["b.txt"; "a.txt"] + length (concat [["a.txt"]])
    ∧ occurrences "a.txt" out
      = (if decide ("a.txt" ∈ ["b.txt"; "a.txt"]) then 2 else 0)
        + length (filter (λ s, "a.txt" ∈ s) [["a.txt"]]).
Proof.
  apply (nounique_counts_set0_twice Scenario.collate
           (Scenario.glob ["*.txt"; "a*"] true false false 0)
           0 [1] ["b.txt"; "a.txt"] [["a.txt"]]
           (World [["b.txt"; "a.txt"]; ["a.txt"]] []) "a.txt").
  - by_evaluation.
  - repeat constructor.
  - reflexivity.
Defined.

Lemma doNonull_nothing_to_add_witness :
  doNonull (Scenario.glob ["a*"; "zzz"] false false true 0) [0; 0]
    (World [["a.txt"]] [])
  = (Ok [0; 0], World [["a.txt"]] []).
Proof.
  apply (doNonull_nothing_to_add
           (Scenario.glob ["a*"; "zzz"] false false true 0) [0; 0]
           [["a.txt"]; ["a.txt"]] (World [["a.txt"]] [])).
  - repeat constructor.
  - right. repeat constructor; discriminate.
Defined.

Lemma doNonull_twice_witness :
  doNonull (Scenario.glob ["missing/*.xyz"] false false true 0) [0]
    (World [["missing/*.xyz"]] [])
  = (Ok [0], World [["missing/*.xyz"]] []).
Proof.
  apply (doNonull_twice (Scenario.glob ["missing/*.xyz"] false false true 0)
           [0] (World [[]] []) [0] (World [["missing/*.xyz"]] [])).
  reflexivity.
Defined.

Lemma nothing_matched_gives_patterns_witness :
  ∃ w',
    bind (doNonull (Scenario.glob ["zzz"; "yyy"; "zzz"] false true true 0)
                   [0; 0; 0])
         (λ ms, finish Scenario.collate
                  (Scenario.glob ["zzz"; "yyy"; "zzz"] false true true 0) ms)
         (World [[]] [])
    = (Ok ["zzz"; "yyy"], w')
    ∧ NoDup ["zzz"; "yyy"]
    ∧ ∀ p, p ∈ ["zzz"; "yyy"] ↔ p ∈ ["zzz"; "yyy"; "zzz"].
Proof.
  apply (nothing_matched_gives_patterns Scenario.collate
           (Scenario.glob ["zzz"; "yyy"; "zzz"] false true true 0)
           0 [0; 0] (World [[]] [])).
  - repeat constructor.
  - reflexivity.
  - reflexivity.
  - simpl. lia.
Defined.

Lemma matchBase_patterns_have_slash_witness :
  ∃ this w',
    new_Glob "linux" Scenario.compiler (inr ["src\*.ts"; "x"])
      (Scenario.options None None None (Some true) None (Some true) None)
      Scenario.start = (Ok this, w')
    ∧ pattern this = ["src/*.ts"; "**/x"]
    ∧ Forall (λ p, includes slash p = true) (pattern this).
Proof.
  destruct (new_Glob "linux" Scenario.compiler (inr ["src\*.ts"; "x"])
              (Scenario.options None None None (Some true) None (Some true)
                 None) Scenario.start)
    as [[this| |] w'] eqn:E; [|vm_compute in E; discriminate..].
  exists this, w'. split; [done|].
  destruct (matchBase_patterns_have_slash "linux" Scenario.compiler _ _ _
              this w' E) as [_ Hbase].
  vm_compute in E. injection E as <- <-.
  split; [reflexivity|]. by apply Hbase.
Defined.

Lemma compiler_policy_overrides_caller_witness :
  new_Glob "linux" Scenario.negating_compiler (inr ["!a*"])
    (with_policy (Some false) None None no_options) Scenario.start
  = new_Glob "linux" Scenario.compiler (inr ["!a*"]) no_options
      Scenario.start.
Proof.
  apply (compiler_policy_overrides_caller "linux" Scenario.compiler
           (inr ["!a*"]) no_options Scenario.start (Some false) None None
           Scenario.negating_compiler).
  intros p mmo Hnonegate _ _. unfold Scenario.negating_compiler.
  by rewrite Hnonegate.
Defined.

Lemma compile_failure_ends_constructor_witness :
  ∃ w',
    new_Glob "linux" Scenario.strict_compiler (inr ["a*"; "["; "b*"])
      no_options Scenario.start
    = (Throw (Foreign "invalid pattern"), w')
    ∧ calls w' = calls Scenario.start ++ (Compiled <$> ["a*"] ++ ["["])
    ∧ sets w' = sets Scenario.start ++ [[]].
Proof.
  apply (compile_failure_ends_constructor "linux" Scenario.strict_compiler
           (inr ["a*"; "["; "b*"]) no_options Scenario.start
           ["a*"] "[" ["b*"] (Foreign "invalid pattern")).
  - reflexivity.
  - reflexivity.
  - constructor; [by eexists|constructor].
  - reflexivity.
Defined.

Lemma constructor_returns_witness :
  ∃ this w',
    new_Glob "linux" Scenario.compiler (inr ["b*"; "a*"]) no_options
      (World [["kept"]] [])
    = (Ok this, w')
    ∧ pattern this = ["b*"; "a*"]
    ∧ store_ok w' ∧ Glob_inv this w'
    ∧ [["kept"]] `prefix_of` sets w'
    ∧ (∀ r, matches this = Some r →
         false = false
         ∧ [["kept"]] !! r = None ∧ sets w' = [["kept"]] ++ [[]]
         ∧ sets w' !! r = Some [])
    ∧ (matches this = None → false = true ∧ sets w' = [["kept"]])
    ∧ calls w' = [] ++ (Compiled <$> ["b*"; "a*"]).
Proof.
  apply (constructor_returns "linux" Scenario.compiler (inr ["b*"; "a*"])
           no_options (World [["kept"]] [])).
  - by_evaluation.
  - reflexivity.
  - repeat (constructor; [by eexists|]). constructor.
Defined.

Lemma constructor_idempotent_on_patterns_witness :
  ∃ this w1 this' w3,
    new_Glob "linux" Scenario.compiler (inr ["src\*.ts"; "x"])
      (Scenario.options None None None (Some true) None (Some true) None)
      Scenario.start = (Ok this, w1)
    ∧ new_Glob "linux" Scenario.compiler (inr (pattern this))
        (Scenario.options None None None (Some true) None (Some true) None)
        w1 = (Ok this', w3)
    ∧ pattern this' = pattern this
    ∧ matchSet this' = matchSet this
    ∧ globSet this' = globSet this
    ∧ globParts this' = globParts this.
Proof.
  destruct (new_Glob "linux" Scenario.compiler (inr ["src\*.ts"; "x"])
              (Scenario.options None None None (Some true) None (Some true)
                 None) Scenario.start)
    as [[this| |] w1] eqn:E; [|vm_compute in E; discriminate..].
  destruct (constructor_idempotent_on_patterns "linux" Scenario.compiler _ _ _
              this w1 w1 E) as (this' & w3 & Hagain).
  by exists this, w1, this', w3.
Defined.

Lemma constructed_glob_runs_witness :
  (∃ out1 out2,
     (process Scenario.collate Scenario.tree
        (Scenario.glob ["b*"; "a*"] false true false 0) [1]
        (World [[]] [Compiled "b*"; Compiled "a*"])).1 = Ok out1
     ∧ (processSync Scenario.collate Scenario.tree
          (Scenario.glob ["b*"; "a*"] false true false 0)
          (World [[]] [Compiled "b*"; Compiled "a*"])).1 = Ok out2
     ∧ out1 ≡ₚ out2)
  ∧ ∃ parts n,
      globParts (Scenario.glob ["b*"; "a*"] false true false 0) !! 1
      = Some parts
      ∧ globSet (Scenario.glob ["b*"; "a*"] false true false 0) !! 1 = Some n
      ∧ globList (new_Pattern
                    (Scenario.glob ["b*"; "a*"] false true false 0) 1
                    [Literal "a*"]) = Some parts.
Proof.
  destruct (constructed_glob_runs "linux" Scenario.compiler Scenario.collate
              Scenario.tree (inr ["b*"; "a*"])
              (Scenario.options None (Some true) None None None None None)
              Scenario.start
              (Scenario.glob ["b*"; "a*"] false true false 0)
              (World [[]] [Compiled "b*"; Compiled "a*"]) [1])
    as [Hviews [(Hnil & _)|[(_ & _ & Hruns)|(m & rest & Hfail & _)]]].
  - intros p m. apply compiler_aligned.
  - by_evaluation.
  - vm_compute. reflexivity.
  - discriminate Hnil.
  - split; [exact Hruns|]. by apply Hviews.
  - discriminate Hfail.
Defined.

Lemma one_walker_per_alternative_witness :
  calls (process Scenario.collate Scenario.tree
           (Scenario.glob ["a*"; "locked/*"; "b*"] false true false 0) [2]
           (World [[]] [])).2
  = [Walked {| patternList := [Literal "a*"]; globList := Some ["a*"];
               index := 0 |};
     Walked {| patternList := [Literal "locked/*"];
               globList := Some ["locked/*"]; index := 0 |};
     Walked {| patternList := [Literal "b*"]; globList := Some ["b*"];
               index := 0 |}]
  ∧ ∃ k set_,
      matchSet (Scenario.glob ["a*"; "locked/*"; "b*"] false true false 0)
        !! k = Some set_
      ∧ Scenario.tree
          (Scenario.glob ["a*"; "locked/*"; "b*"] false true false 0)
          (new_Pattern
             (Scenario.glob ["a*"; "locked/*"; "b*"] false true false 0)
             k set_)
        = RootError "EACCES: locked"
      ∧ (∀ j set_j, j < k →
           matchSet (Scenario.glob ["a*"; "locked/*"; "b*"]
                       false true false 0) !! j = Some set_j →
           root_error
             (Scenario.tree
                (Scenario.glob ["a*"; "locked/*"; "b*"] false true false 0)
                (new_Pattern
                   (Scenario.glob ["a*"; "locked/*"; "b*"]
                      false true false 0) j set_j)) = None)
      ∧ calls (processSync Scenario.collate Scenario.tree
                 (Scenario.glob ["a*"; "locked/*"; "b*"] false true false 0)
                 (World [[]] [])).2
        = [] ++ take (S k)
                  [Walked {| patternList := [Literal "a*"];
                             globList := Some ["a*"]; index := 0 |};
                   Walked {| patternList := [Literal "locked/*"];
                             globList := Some ["locked/*"]; index := 0 |};
                   Walked {| patternList := [Literal "b*"];
                             globList := Some ["b*"]; index := 0 |}].
Proof.
  destruct (one_walker_per_alternative Scenario.collate Scenario.tree
              (Scenario.glob ["a*"; "locked/*"; "b*"] false true false 0) [2]
              (World [[]] [])) as (Hasync & _ & Hsync).
  - split; [reflexivity | unfold live; simpl; lia].
  - split; [exact Hasync|]. exact (Hsync "EACCES: locked" [] eq_refl).
Defined.

Lemma default_output_is_union_witness :
  "a.txt" ∈ ["a.txt"; "b.txt"]
  ↔ "a.txt" ∈ @nil string
    ∨ (∃ i set_,
         matchSet (Scenario.glob ["*.txt"; "a*"] false false false 0) !! i
         = Some set_
         ∧ "a.txt" ∈ paths
                       (Scenario.tree
                          (Scenario.glob ["*.txt"; "a*"] false false false 0)
                          (new_Pattern
                             (Scenario.glob ["*.txt"; "a*"]
                                false false false 0) i set_)))
    ∨ (nonull (Scenario.glob ["*.txt"; "a*"] false false false 0) = true
       ∧ @nil string = []
       ∧ (∀ q, ¬ ∃ i set_,
            matchSet (Scenario.glob ["*.txt"; "a*"] false false false 0) !! i
            = Some set_
            ∧ q ∈ paths
                    (Scenario.tree
                       (Scenario.glob ["*.txt"; "a*"] false false false 0)
                       (new_Pattern
                          (Scenario.glob ["*.txt"; "a*"] false false false 0)
                          i set_)))
       ∧ ∃ i, i < length (matchSet (Scenario.glob ["*.txt"; "a*"]
                                      false false false 0))
              ∧ globSet (Scenario.glob ["*.txt"; "a*"] false false false 0)
                !! i = Some "a.txt").
Proof.
  apply (default_output_is_union Scenario.collate Scenario.tree
           (Scenario.glob ["*.txt"; "a*"] false false false 0)
           (World [[]] []) [1; 0] 0 [] ["a.txt"; "b.txt"]
           (process Scenario.collate Scenario.tree
              (Scenario.glob ["*.txt"; "a*"] false false false 0) [1; 0]
              (World [[]] [])).2).
  - split; [reflexivity | unfold live; simpl; lia].
  - reflexivity.
  - reflexivity.
  - vm_compute. reflexivity.
Defined.

Lemma processSync_default_output_witness :
  (processSync Scenario.collate Scenario.tree
     (Scenario.glob ["*.txt"; "a*"] false true false 0) (World [[]] [])).1
  = Ok ["b.txt"; "a.txt"].
Proof.
  refine (proj1 (processSync_default_output Scenario.collate Scenario.tree
                   (Scenario.glob ["*.txt"; "a*"] false true false 0)
                   (World [[]] []) 0 [] _ _ _ _ _) _).
  - split; [reflexivity | unfold live; simpl; lia].
  - reflexivity.
  - reflexivity.
  - discriminate.
  - simpl. lia.
  - reflexivity.
Defined.
